(** * CDI hooks of LXD: a shallow embedding of [lxd/device/cdi/hooks.go]

    The file follows the Go source: the path helpers of [path/filepath] that
    the hooks use (Unix flavour), [resolveTargetRelativeToLink], the decoding
    of the hooks file into [Hooks], and [ApplyHooksToContainer] as a program
    over the operating-system calls it issues. *)

From Stdlib Require Import Ascii String Bool Arith Lia.
From stdpp Require Import base option list gmap strings.

Set Default Proof Using "Type".
Local Open Scope list_scope.

(** ** Go strings

    A Go string is a sequence of bytes. *)

Abbreviation gostring := (list ascii).

Definition str (s : string) : gostring := list_ascii_of_string s.

Definition streq (a b : gostring) : bool := bool_decide (a = b).

(** ** [path/filepath] on Unix

    The volume name is empty and the only separator is the slash. *)

Module filepath.

Definition Separator : ascii := "/"%char.

Definition IsPathSeparator (c : ascii) : bool := Ascii.eqb c Separator.

(** [IsAbs] on Unix is [strings.HasPrefix(path, "/")]. *)
Definition IsAbs (path : gostring) : bool :=
  match path with
  | c :: _ => IsPathSeparator c
  | [] => false
  end.

(** The scan index [r] of [Clean] always stands at the beginning of a path
    element or on the separator that ends one, so the loop visits the
    slash-separated elements of the path in order: an empty element and [.]
    are skipped, [..] backtracks, any other element is copied. [elements] is
    that sequence of elements. *)
Fixpoint elements (path : gostring) : list gostring :=
  match path with
  | [] => [[]]
  | c :: rest =>
      if IsPathSeparator c then [] :: elements rest
      else match elements rest with
           | e :: es => (c :: e) :: es
           | [] => [[c]]
           end
  end.

(** The inner loop of the [..] case, on the write index [w] of the buffer:
    [for out.w > dotdot && !os.IsPathSeparator(out.index(out.w)) { out.w-- }]. *)
Fixpoint backtrackLoop (out : gostring) (dotdot w : nat) : nat :=
  match w with
  | 0 => 0
  | S w' =>
      if (dotdot <? w) &&
         negb (from_option IsPathSeparator false (out !! w))
      then backtrackLoop out dotdot w'
      else w
  end.

(** [out.w--] followed by the loop; the buffer is cut at the new [w]. *)
Definition backtrack (out : gostring) (dotdot : nat) : gostring :=
  take (backtrackLoop out dotdot (length out - 1)) out.

Definition dot : gostring := str ".".
Definition dotdot_elem : gostring := str "..".

(** The main loop of [Clean]: [out] is the buffer written so far (of length
    [out.w]) and [dotdot] the index where [..] must stop. *)
Fixpoint cleanLoop (rooted : bool) (elems : list gostring)
    (out : gostring) (dotdot : nat) : gostring :=
  match elems with
  | [] => out
  | e :: rest =>
      if streq e [] then cleanLoop rooted rest out dotdot
      else if streq e dot then cleanLoop rooted rest out dotdot
      else if streq e dotdot_elem then
        if dotdot <? length out then
          cleanLoop rooted rest (backtrack out dotdot) dotdot
        else if negb rooted then
          let out1 := if 0 <? length out then out ++ [Separator] else out in
          let out2 := out1 ++ dotdot_elem in
          cleanLoop rooted rest out2 (length out2)
        else cleanLoop rooted rest out dotdot
      else
        let out1 :=
          if (rooted && negb (length out =? 1)) ||
             (negb rooted && negb (length out =? 0))
          then out ++ [Separator] else out in
        cleanLoop rooted rest (out1 ++ e) dotdot
  end.

Definition Clean (path : gostring) : gostring :=
  match path with
  | [] => dot
  | c :: rest =>
      let rooted := IsPathSeparator c in
      let out :=
        if rooted then cleanLoop true (elements rest) [Separator] 1
        else cleanLoop false (elements path) [] 0 in
      if length out =? 0 then dot else out
  end.

(** [Dir]: [i] runs down from the end while [path[i]] is not a separator;
    [lastSep path n] is the resulting [i+1]. *)
Fixpoint lastSep (path : gostring) (n : nat) : nat :=
  match n with
  | 0 => 0
  | S i =>
      if from_option IsPathSeparator false (path !! i) then n
      else lastSep path i
  end.

Definition Dir (path : gostring) : gostring :=
  Clean (take (lastSep path (length path)) path).

(** [strings.Join(elems, sep)]. *)
Fixpoint strings_Join (elems : list gostring) (sep : gostring) : gostring :=
  match elems with
  | [] => []
  | [e] => e
  | e :: rest => e ++ sep ++ strings_Join rest sep
  end.

(** [Join]: the elements from the first non-empty one on, joined with the
    separator and cleaned; the empty string when there is none. *)
Fixpoint Join (elem : list gostring) : gostring :=
  match elem with
  | [] => []
  | e :: rest =>
      if streq e [] then Join rest
      else Clean (strings_Join elem [Separator])
  end.

(** The element of [s] that starts at its head: up to the next separator. *)
Fixpoint element (s : gostring) : gostring :=
  match s with
  | [] => []
  | c :: rest => if IsPathSeparator c then [] else c :: element rest
  end.

(** The first loop of [Rel], which positions [base[b0:bi]] and
    [targ[t0:ti]] at the first differing elements. At the head of every
    iteration [bi = b0] and [ti = t0]; the arguments are [base[b0:]] and
    [targ[t0:]], and the result is [(base[b0:], base[b0:bi], targ[t0:])].
    Every iteration advances [b0], so [length base] iterations suffice. *)
Fixpoint relLoop (fuel : nat) (base targ : gostring)
    : gostring * gostring * gostring :=
  match fuel with
  | 0 => (base, [], targ)
  | S fuel' =>
      match base, targ with
      | [], _ | _, [] => (base, [], targ)
      | _, _ =>
          let eb := element base in
          let et := element targ in
          if negb (streq et eb) then (base, eb, targ)
          else
            (* [if bi < bl { bi++ }], [if ti < tl { ti++ }] *)
            relLoop fuel' (drop (S (length eb)) base)
                          (drop (S (length et)) targ)
      end
  end.

Definition countSep (s : gostring) : nat :=
  length (filter (λ c, IsPathSeparator c = true) s).

Fixpoint ups (seps : nat) : gostring :=
  match seps with
  | 0 => []
  | S n => Separator :: dotdot_elem ++ ups n
  end.

Inductive RelError := CantMakeRelative (targpath basepath : gostring).

Definition Rel (basepath targpath : gostring) : RelError + gostring :=
  let base := Clean basepath in
  let targ := Clean targpath in
  if streq targ base then inr dot
  else
    let base := if streq base dot then [] else base in
    let baseSlashed := IsAbs base in
    let targSlashed := IsAbs targ in
    if negb (Bool.eqb baseSlashed targSlashed)
    then inl (CantMakeRelative targpath basepath)
    else
      let '(b0rest, belem, t0rest) := relLoop (length base) base targ in
      if streq belem dotdot_elem
      then inl (CantMakeRelative targpath basepath)
      else if negb (streq b0rest []) then
        (* Base elements left. Must go up before going down. *)
        inr (dotdot_elem ++ ups (countSep b0rest) ++
             (if negb (streq t0rest []) then Separator :: t0rest else []))
      else inr t0rest.

End filepath.

(** ** [resolveTargetRelativeToLink] *)

Inductive ResolveError :=
| LinkNotAbsolute (link target : gostring)
| RelFailed (e : filepath.RelError).

Definition resolveTargetRelativeToLink (link target : gostring)
    : ResolveError + gostring :=
  if negb (filepath.IsAbs link) then inl (LinkNotAbsolute link target)
  else if negb (filepath.IsAbs target) then inr target
  else
    let linkClean := filepath.Clean link in
    let targetClean := filepath.Clean target in
    let linkDir := filepath.Dir linkClean in
    match filepath.Rel linkDir targetClean with
    | inl err => inl (RelFailed err)
    | inr relPath => inr relPath
    end.


(** ** The hooks file

    [SymlinkEntry] and [Hooks] as in the source. A slice is a list; a nil
    slice and an empty one are both the empty list. *)

Record SymlinkEntry := { Target : gostring; Link : gostring }.

Record Hooks := {
  ContainerRootFS : gostring;
  LDCacheUpdates : list gostring;
  Symlinks : list SymlinkEntry
}.

Definition zeroSymlinkEntry : SymlinkEntry := {| Target := []; Link := [] |}.

Definition zeroHooks : Hooks :=
  {| ContainerRootFS := []; LDCacheUpdates := []; Symlinks := [] |}.

Definition customCDILinkerConfFile : gostring := str "00-lxdcdi.conf".

(** ** [encoding/json]: unmarshalling a JSON value into [Hooks]

    [Decoder.Decode] first scans one complete JSON value from the stream (a
    syntax error or a read error ends it there) and then stores the value in
    the Go value it was given. [json] is a scanned value, with strings and
    keys already unquoted. *)

#[warnings="-register-all"]
Inductive json :=
| JNull
| JBool (b : bool)
| JNumber (literal : gostring)
| JString (s : gostring)
| JArray (elems : list json)
| JObject (members : list (gostring * json)).

Module jsondec.

(** [UnmarshalTypeError]: the JSON value described by [Value] cannot be
    stored in a Go value of type [Type]. *)
Record UnmarshalTypeError := { Value : string; Type_ : string }.

(** The decoder keeps the first error and goes on decoding. *)
Definition saveError (saved new : option UnmarshalTypeError)
    : option UnmarshalTypeError :=
  match saved with
  | Some _ => saved
  | None => new
  end.

(** The description of a value that [UnmarshalTypeError] carries. *)
Definition valueKind (j : json) : string :=
  match j with
  | JNull => "null"
  | JBool _ => "bool"
  | JNumber _ => "number"
  | JString _ => "string"
  | JArray _ => "array"
  | JObject _ => "object"
  end.

Definition typeError (j : json) (gotype : string) : option UnmarshalTypeError :=
  Some {| Value := valueKind j; Type_ := gotype |}.

(** Field names are matched after folding: ASCII letters to upper case, and
    every other rune to the smallest rune of its case-folding orbit. The
    only runes outside ASCII that fold into ASCII are the Kelvin sign
    U+212A (bytes E2 84 AA, folds to K) and the long s U+017F (bytes C5 BF,
    folds to S); a key with any other rune outside ASCII, or with invalid
    UTF-8, matches none of the (ASCII) field names: [None]. *)
Definition upper (c : ascii) : ascii :=
  let n := nat_of_ascii c in
  if (97 <=? n) && (n <=? 122) then ascii_of_nat (n - 32) else c.

Definition isASCII (c : ascii) : bool := nat_of_ascii c <? 128.

Fixpoint foldName (key : gostring) : option gostring :=
  match key with
  | [] => Some []
  | c :: rest =>
      if isASCII c then cons (upper c) <$> foldName rest
      else
        match key with
        | "226"%char :: "132"%char :: "170"%char :: rest' =>
            cons "K"%char <$> foldName rest'
        | "197"%char :: "191"%char :: rest' =>
            cons "S"%char <$> foldName rest'
        | _ => None
        end
  end.

(** The field of a struct that a key selects, when there is one. *)
Fixpoint fieldByName {F : Type} (fields : list (string * F)) (key : gostring)
    : option F :=
  match fields with
  | [] => None
  | (name, f) :: rest =>
      if bool_decide (foldName key = foldName (str name)) then Some f
      else fieldByName rest key
  end.

(** Storing a JSON value in a Go [string]: a string is stored, [null]
    leaves the value as it is, anything else is a type error. *)
Definition decodeString (cur : gostring) (j : json)
    : gostring * option UnmarshalTypeError :=
  match j with
  | JString s => (s, None)
  | JNull => (cur, None)
  | _ => (cur, typeError j "string")
  end.

(** The element loop of [array]: element [i] of the JSON array is decoded
    into element [i] of the slice, which is the existing element while
    [i < len] and a fresh zero value after that (the model does not keep
    the spare capacity of a slice that a repeated key has shortened). *)
Fixpoint decodeElems {T : Type}
    (decodeElem : T → json → T * option UnmarshalTypeError)
    (zero : T) (cur : list T) (elems : list json)
    : list T * option UnmarshalTypeError :=
  match elems with
  | [] => ([], None)
  | e :: rest =>
      let '(x, err1) := decodeElem (hd zero cur) e in
      let '(xs, err2) := decodeElems decodeElem zero (tl cur) rest in
      (x :: xs, saveError err1 err2)
  end.

(** Storing a JSON value in a slice whose elements are not bytes. *)
Definition decodeSlice {T : Type} (gotype : string)
    (decodeElem : T → json → T * option UnmarshalTypeError)
    (zero : T) (cur : list T) (j : json)
    : list T * option UnmarshalTypeError :=
  match j with
  | JArray elems => decodeElems decodeElem zero cur elems
  | JNull => ([], None)
  | _ => (cur, typeError j gotype)
  end.

(** The member loop of [object] for a struct: a member whose key selects a
    field is decoded into that field, any other member is skipped. *)
Fixpoint decodeMembers {S F : Type} (fields : list (string * F))
    (decodeField : F → S → json → S * option UnmarshalTypeError)
    (cur : S) (members : list (gostring * json))
    : S * option UnmarshalTypeError :=
  match members with
  | [] => (cur, None)
  | (key, v) :: rest =>
      match fieldByName fields key with
      | Some f =>
          let '(cur1, err1) := decodeField f cur v in
          let '(cur2, err2) := decodeMembers fields decodeField cur1 rest in
          (cur2, saveError err1 err2)
      | None => decodeMembers fields decodeField cur rest
      end
  end.

(** Storing a JSON value in a struct. *)
Definition decodeStruct {S F : Type} (gotype : string)
    (fields : list (string * F))
    (decodeField : F → S → json → S * option UnmarshalTypeError)
    (cur : S) (j : json) : S * option UnmarshalTypeError :=
  match j with
  | JObject members => decodeMembers fields decodeField cur members
  | JNull => (cur, None)
  | _ => (cur, typeError j gotype)
  end.

Inductive SymlinkEntryField := FTarget | FLink.

Definition symlinkEntryFields : list (string * SymlinkEntryField) :=
  [("target", FTarget); ("link", FLink)].

Definition decodeSymlinkEntryField (f : SymlinkEntryField)
    (cur : SymlinkEntry) (j : json) : SymlinkEntry * option UnmarshalTypeError :=
  match f with
  | FTarget =>
      let '(s, err) := decodeString (Target cur) j in
      ({| Target := s; Link := Link cur |}, err)
  | FLink =>
      let '(s, err) := decodeString (Link cur) j in
      ({| Target := Target cur; Link := s |}, err)
  end.

Definition decodeSymlinkEntry
    : SymlinkEntry → json → SymlinkEntry * option UnmarshalTypeError :=
  decodeStruct "cdi.SymlinkEntry" symlinkEntryFields decodeSymlinkEntryField.

Inductive HooksField := FContainerRootFS | FLDCacheUpdates | FSymlinks.

Definition hooksFields : list (string * HooksField) :=
  [("container_rootfs", FContainerRootFS);
   ("ld_cache_updates", FLDCacheUpdates);
   ("symlinks", FSymlinks)].

Definition decodeHooksField (f : HooksField) (cur : Hooks) (j : json)
    : Hooks * option UnmarshalTypeError :=
  match f with
  | FContainerRootFS =>
      let '(s, err) := decodeString (ContainerRootFS cur) j in
      ({| ContainerRootFS := s; LDCacheUpdates := LDCacheUpdates cur;
          Symlinks := Symlinks cur |}, err)
  | FLDCacheUpdates =>
      let '(l, err) :=
        decodeSlice "[]string" decodeString [] (LDCacheUpdates cur) j in
      ({| ContainerRootFS := ContainerRootFS cur; LDCacheUpdates := l;
          Symlinks := Symlinks cur |}, err)
  | FSymlinks =>
      let '(l, err) :=
        decodeSlice "[]cdi.SymlinkEntry" decodeSymlinkEntry zeroSymlinkEntry
          (Symlinks cur) j in
      ({| ContainerRootFS := ContainerRootFS cur;
          LDCacheUpdates := LDCacheUpdates cur; Symlinks := l |}, err)
  end.

Definition decodeHooks : Hooks → json → Hooks * option UnmarshalTypeError :=
  decodeStruct "cdi.Hooks" hooksFields decodeHooksField.

(** [hooks := &Hooks{}; err = ...Decode(hooks)] on a scanned value: the
    plan when there is no error. *)
Definition Unmarshal (j : json) : UnmarshalTypeError + Hooks :=
  match decodeHooks zeroHooks j with
  | (_, Some err) => inl err
  | (hooks, None) => inr hooks
  end.

End jsondec.

(** ** [strings.TrimSpace] and [bufio.ScanLines] *)

Module strings.

Definition code (c : ascii) : nat := nat_of_ascii c.

(** White space as [unicode.IsSpace] defines it, by the UTF-8 encoding of
    each rune: one, two or three bytes. *)
Definition isSpace1 (c1 : ascii) : bool :=
  (* '\t', '\n', '\v', '\f', '\r', ' ' *)
  ((9 <=? code c1) && (code c1 <=? 13)) || (code c1 =? 32).

Definition isSpace2 (c1 c2 : ascii) : bool :=
  (* U+0085 (NEL), U+00A0 (NBSP) *)
  (code c1 =? 194) && ((code c2 =? 133) || (code c2 =? 160)).

Definition isSpace3 (c1 c2 c3 : ascii) : bool :=
  (* U+1680 *)
  ((code c1 =? 225) && (code c2 =? 154) && (code c3 =? 128)) ||
  (* U+2000 .. U+200A, U+2028, U+2029, U+202F *)
  ((code c1 =? 226) && (code c2 =? 128) &&
   (((128 <=? code c3) && (code c3 <=? 138)) ||
    (code c3 =? 168) || (code c3 =? 169) || (code c3 =? 175))) ||
  (* U+205F *)
  ((code c1 =? 226) && (code c2 =? 129) && (code c3 =? 159)) ||
  (* U+3000 *)
  ((code c1 =? 227) && (code c2 =? 128) && (code c3 =? 128)).

(** [TrimLeftFunc(s, unicode.IsSpace)]: leading white-space runes are
    dropped one after the other. *)
Fixpoint trimLeft (s : gostring) : gostring :=
  match s with
  | [] => []
  | c1 :: r1 =>
      if isSpace1 c1 then trimLeft r1
      else
        match r1 with
        | [] => s
        | c2 :: r2 =>
            if isSpace2 c1 c2 then trimLeft r2
            else
              match r2 with
              | [] => s
              | c3 :: r3 => if isSpace3 c1 c2 c3 then trimLeft r3 else s
              end
        end
  end.

(** The same from the end, on the reversed string: the last rune is a
    white-space rune when the string ends with its encoding. *)
Fixpoint trimLeftRev (s : gostring) : gostring :=
  match s with
  | [] => []
  | c1 :: r1 =>
      if isSpace1 c1 then trimLeftRev r1
      else
        match r1 with
        | [] => s
        | c2 :: r2 =>
            if isSpace2 c2 c1 then trimLeftRev r2
            else
              match r2 with
              | [] => s
              | c3 :: r3 => if isSpace3 c3 c2 c1 then trimLeftRev r3 else s
              end
        end
  end.

Definition trimRight (s : gostring) : gostring := rev (trimLeftRev (rev s)).

(** [TrimSpace(s)] is [TrimFunc(s, unicode.IsSpace)]: the ASCII fast path
    of the implementation computes the same string. *)
Definition TrimSpace (s : gostring) : gostring := trimRight (trimLeft s).

End strings.

Module bufio.

Definition newline : ascii := "010"%char.
Definition cr : ascii := "013"%char.

(** [dropCR] drops a terminal carriage return. *)
Definition dropCR (data : gostring) : gostring :=
  match rev data with
  | c :: r => if Ascii.eqb c cr then rev r else data
  | [] => data
  end.

(** The tokens of [ScanLines] on [data] at end of file, [line] being the
    bytes read since the last newline: each line without its end-of-line
    marker, and the last line also when it is not empty and has no
    newline. The limit on the length of a token is not part of the
    model. *)
Fixpoint scanFrom (line data : gostring) : list gostring :=
  match data with
  | [] => if streq line [] then [] else [dropCR line]
  | c :: rest =>
      if Ascii.eqb c newline then dropCR line :: scanFrom [] rest
      else scanFrom (line ++ [c]) rest
  end.

Definition ScanLines (data : gostring) : list gostring := scanFrom [] data.

End bufio.

(** ** The operating system, as the hooks see it

    [ApplyHooksToContainer] is a sequence of calls into [os], [bufio],
    [encoding/json] and [os/exec]. A program is the tree of the calls it
    issues; what a call answers is up to the environment. *)

(** What the code asks of an error: [errors.Is(err, fs.ErrExist)],
    [errors.Is(err, os.ErrNotExist)] and [os.IsNotExist(err)]. *)
Inductive oserror :=
| ErrExist
| ErrNotExist
| ErrOther (errno : nat).

Definition isErrExist (e : oserror) : bool :=
  match e with ErrExist => true | _ => false end.

Definition isErrNotExist (e : oserror) : bool :=
  match e with ErrNotExist => true | _ => false end.

Inductive openflag := O_APPEND | O_RDWR | O_CREATE | O_WRONLY.

Global Instance openflag_eq_dec : EqDecision openflag.
Proof. solve_decision. Defined.

(** What ends [Decode] before a value is stored: the stream cannot be read
    or does not hold a JSON value. *)
Inductive scanerror := ReadError (e : oserror) | SyntaxError (msg : gostring).

Inductive call :=
| Open (name : gostring)
    (** [os.Open(name)] *)
| ScanValue (name : gostring)
    (** [json.NewDecoder(f).Decode]: reading one JSON value from the file *)
| Close (name : gostring)
    (** [f.Close()] *)
| MkdirAll (path : gostring) (perm : nat)
    (** [os.MkdirAll(path, perm)] *)
| Symlink (oldname newname : gostring)
    (** [os.Symlink(oldname, newname)] *)
| Stat (name : gostring)
    (** [os.Stat(name)] *)
| OpenFile (name : gostring) (flag : list openflag) (perm : nat)
    (** [os.OpenFile(name, flag, perm)] *)
| ScanLines (name : gostring)
    (** [for scanner.Scan() { ... scanner.Text() ... }] on a new
        [bufio.Scanner] of the file: the lines it yields *)
| Fprintln (name : gostring) (line : gostring)
    (** [fmt.Fprintln(f, line)] *)
| Remove (name : gostring)
    (** [os.Remove(name)] *)
| CombinedOutput (name : gostring) (args : list gostring)
    (** [exec.Command(name, args...).CombinedOutput()] *).

Definition resp (c : call) : Type :=
  match c with
  | Open _ => option oserror
  | ScanValue _ => scanerror + json
  | Close _ => unit
  | MkdirAll _ _ => option oserror
  | Symlink _ _ => option oserror
  | Stat _ => option oserror
  | OpenFile _ _ _ => option oserror
  | ScanLines _ => list gostring
  | Fprintln _ _ => option oserror
  | Remove _ => option oserror
  | CombinedOutput _ _ => gostring * option nat
  end.

Inductive prog (A : Type) : Type :=
| Ret (a : A)
| Do (c : call) (k : resp c → prog A).
Arguments Ret {A} a.
Arguments Do {A} c k.

Fixpoint bind {A B : Type} (p : prog A) (f : A → prog B) : prog B :=
  match p with
  | Ret a => f a
  | Do c k => Do c (λ r, bind (k r) f)
  end.

Notation "x ← 'syscall' c ; k" := (Do c (λ x, k))
  (at level 20, c at level 100, k at level 200, right associativity,
   format "'[' x  ←  'syscall'  c ;  '/' k ']'").
Notation "'syscall' c ; k" := (Do c (λ _, k))
  (at level 20, c at level 100, k at level 200, right associativity,
   format "'[' 'syscall'  c ;  '/' k ']'").

(** An environment: how each call is answered, and what it does to the
    world. *)
Definition handler (W : Type) : Type := ∀ c : call, W → resp c * W.

(** Running a program: its result, the world it leaves and the calls it
    issued, in order. *)
Fixpoint run {W A : Type} (h : handler W) (p : prog A) (w : W)
    : A * W * list call :=
  match p with
  | Ret a => (a, w, [])
  | Do c k =>
      let '(r, w1) := h c w in
      let '(a, w2, t) := run h (k r) w1 in
      (a, w2, c :: t)
  end.

(** ** [ApplyHooksToContainer] *)

Inductive HookError :=
| FailedOpeningHooksFile (path : gostring) (e : oserror)
| FailedDecodingHooksFile (path : gostring)
    (e : scanerror + jsondec.UnmarshalTypeError)
| FailedResolvingSymlink (e : ResolveError)
| FailedCreatingSymlinkDir (e : oserror)
| FailedCreatingSymlink (e : oserror)
| FailedCreatingLinkerConfDir (path : gostring) (e : oserror)
| FailedOpeningLdConf (path : gostring) (e : oserror)
| FailedWritingLdConf (path : gostring) (e : oserror)
| FailedCreatingLdConf (path : gostring) (e : oserror)
| CouldNotStatLdConf (path : gostring) (e : oserror)
| FailedRemovingLdCache (e : oserror)
| FailedRunningLdconfig (status : nat) (output : gostring).

(** [// Creating the symlinks]: the loop over [hooks.Symlinks]. *)
Fixpoint applySymlinks (containerRootFSMount : gostring)
    (symlinks : list SymlinkEntry) : prog (option HookError) :=
  match symlinks with
  | [] => Ret None
  | symlink :: rest =>
      match resolveTargetRelativeToLink (Link symlink) (Target symlink) with
      | inl err => Ret (Some (FailedResolvingSymlink err))
      | inr target =>
          err ← syscall MkdirAll
                  (filepath.Dir (filepath.Join [containerRootFSMount; Link symlink]))
                  493 (* 0755 *);
          match err with
          | Some e => Ret (Some (FailedCreatingSymlinkDir e))
          | None =>
              err ← syscall Symlink target
                      (filepath.Join [containerRootFSMount; Link symlink]);
              match err with
              | Some e =>
                  if negb (isErrExist e)
                  then Ret (Some (FailedCreatingSymlink e))
                  else applySymlinks containerRootFSMount rest
              | None => applySymlinks containerRootFSMount rest
              end
          end
      end
  end.

(** [existingLinkerEntries[key]] of a [map[string]bool]: [false] when the
    key is absent. *)
Definition index (m : gmap gostring bool) (key : gostring) : bool :=
  default false (m !! key).

(** [for scanner.Scan() { existingLinkerEntries[strings.TrimSpace(scanner.Text())] = true }] *)
Definition scanExisting (lines : list gostring) : gmap gostring bool :=
  foldl (λ m line, <[strings.TrimSpace line := true]> m) ∅ lines.

(** The loop over [hooks.LDCacheUpdates] of the branch where the file
    exists. *)
Fixpoint appendMissing (ldConfFilePath : gostring) (updates : list gostring)
    (existingLinkerEntries : gmap gostring bool) : prog (option HookError) :=
  match updates with
  | [] => Ret None
  | update :: rest =>
      if negb (index existingLinkerEntries update) then
        err ← syscall Fprintln ldConfFilePath update;
        match err with
        | Some e =>
            syscall Close ldConfFilePath;
            Ret (Some (FailedWritingLdConf ldConfFilePath e))
        | None =>
            appendMissing ldConfFilePath rest
              (<[update := true]> existingLinkerEntries)
        end
      else appendMissing ldConfFilePath rest existingLinkerEntries
  end.

(** The loop over [hooks.LDCacheUpdates] of the branch where the file does
    not exist. *)
Fixpoint writeAll (ldConfFilePath : gostring) (updates : list gostring)
    : prog (option HookError) :=
  match updates with
  | [] => Ret None
  | update :: rest =>
      err ← syscall Fprintln ldConfFilePath update;
      match err with
      | Some e =>
          syscall Close ldConfFilePath;
          Ret (Some (FailedWritingLdConf ldConfFilePath e))
      | None => writeAll ldConfFilePath rest
      end
  end.

(** [// Run `ldconfig` on the HOST (but targeting the container rootFS)] *)
Definition runLdconfig (containerRootFSMount : gostring)
    : prog (option HookError) :=
  r ← syscall CombinedOutput (str "/sbin/ldconfig") [str "-r"; containerRootFSMount];
  match r with
  | (output, Some status) => Ret (Some (FailedRunningLdconfig status output))
  | (_, None) => Ret None
  end.

(** [// Then remove the linker cache and regenerate it] *)
Definition regenerateCache (containerRootFSMount : gostring)
    : prog (option HookError) :=
  let linkerCachePath :=
    filepath.Join [containerRootFSMount; str "etc"; str "ld.so.cache"] in
  err ← syscall Remove linkerCachePath;
  match err with
  | Some e =>
      if negb (isErrNotExist e) then Ret (Some (FailedRemovingLdCache e))
      else runLdconfig containerRootFSMount
  | None => runLdconfig containerRootFSMount
  end.

(** [// Updating the linker cache]: the body of [if l > 0]. *)
Definition updateLinkerCache (containerRootFSMount : gostring)
    (updates : list gostring) : prog (option HookError) :=
  let ldConfDirPath :=
    filepath.Join [containerRootFSMount; str "etc"; str "ld.so.conf.d"] in
  err ← syscall MkdirAll ldConfDirPath 493 (* 0755 *);
  match err with
  | Some e => Ret (Some (FailedCreatingLinkerConfDir ldConfDirPath e))
  | None =>
      let ldConfFilePath :=
        containerRootFSMount ++ str "/etc/ld.so.conf.d/" ++ customCDILinkerConfFile in
      err ← syscall Stat ldConfFilePath;
      match err with
      | None =>
          (* The file already exists. *)
          err ← syscall OpenFile ldConfFilePath [O_APPEND; O_RDWR] 420 (* 0644 *);
          match err with
          | Some e => Ret (Some (FailedOpeningLdConf ldConfFilePath e))
          | None =>
              lines ← syscall ScanLines ldConfFilePath;
              bind (appendMissing ldConfFilePath updates
                      (scanExisting lines))
                (λ err,
                   match err with
                   | Some e => Ret (Some e)
                   | None =>
                       syscall Close ldConfFilePath;
                       regenerateCache containerRootFSMount
                   end)
          end
      | Some e =>
          if isErrNotExist e then
            (* The file does not exist. *)
            err ← syscall OpenFile ldConfFilePath [O_CREATE; O_WRONLY] 420 (* 0644 *);
            match err with
            | Some e => Ret (Some (FailedCreatingLdConf ldConfFilePath e))
            | None =>
                bind (writeAll ldConfFilePath updates)
                  (λ err,
                     match err with
                     | Some e => Ret (Some e)
                     | None =>
                         syscall Close ldConfFilePath;
                         regenerateCache containerRootFSMount
                     end)
            end
          else Ret (Some (CouldNotStatLdConf ldConfFilePath e))
      end
  end.

(** The function from the decoded plan on: the symlinks, then the linker
    cache when [len(hooks.LDCacheUpdates) > 0]. *)
Definition applyHooks (hooks : Hooks) (containerRootFSMount : gostring)
    : prog (option HookError) :=
  bind (applySymlinks containerRootFSMount (Symlinks hooks))
    (λ err,
       match err with
       | Some e => Ret (Some e)
       | None =>
           let l := length (LDCacheUpdates hooks) in
           if 0 <? l
           then updateLinkerCache containerRootFSMount (LDCacheUpdates hooks)
           else Ret None
       end).

Definition ApplyHooksToContainer (hooksFilePath containerRootFSMount : gostring)
    : prog (option HookError) :=
  err ← syscall Open hooksFilePath;
  match err with
  | Some e => Ret (Some (FailedOpeningHooksFile hooksFilePath e))
  | None =>
      (* [defer hookFile.Close()] *)
      bind
        (v ← syscall ScanValue hooksFilePath;
         match v with
         | inl e => Ret (Some (FailedDecodingHooksFile hooksFilePath (inl e)))
         | inr j =>
             match jsondec.Unmarshal j with
             | inl e => Ret (Some (FailedDecodingHooksFile hooksFilePath (inr e)))
             | inr hooks => applyHooks hooks containerRootFSMount
             end
         end)
        (λ result, syscall Close hooksFilePath; Ret result)
  end.

(** ** A reference file system

    An environment to run the hooks in: a tree of directories, regular
    files and symbolic links, keyed by cleaned path. It is kept simple:
    symbolic links are never followed, permissions are not checked, writes
    always succeed, and the command that is run only leaves a record. *)

Module fs.

Inductive node :=
| Dir_
| File (content : gostring)
| Link (target : gostring).

Record world := {
  nodes : gmap gostring node;
  (** the documents that can be opened and scanned as JSON, by name *)
  documents : gmap gostring (scanerror + json);
  (** the commands run so far, latest first *)
  commands : list (gostring * list gostring)
}.

Definition set_nodes (w : world) (n : gmap gostring node) : world :=
  {| nodes := n; documents := documents w; commands := commands w |}.

Definition key (name : gostring) : gostring := filepath.Clean name.

(** A path and the directories above it. *)
Fixpoint chainN (fuel : nat) (k : gostring) : list gostring :=
  match fuel with
  | 0 => [k]
  | S fuel' =>
      if streq (filepath.Dir k) k then [k]
      else k :: chainN fuel' (filepath.Dir k)
  end.

Definition chain (k : gostring) : list gostring := chainN (length k) k.

Definition isDirOrFree (n : option node) : bool :=
  match n with
  | None | Some Dir_ => true
  | Some _ => false
  end.

Definition ENOTDIR : oserror := ErrOther 20.
Definition EISDIR : oserror := ErrOther 21.
Definition ELOOP : oserror := ErrOther 40.
Definition EBADF : oserror := ErrOther 9.
Definition ENOTEMPTY : oserror := ErrOther 39.

Definition mkdirAll (path : gostring) (w : world) : option oserror * world :=
  let ch := chain (key path) in
  if forallb (λ k, isDirOrFree (nodes w !! k)) ch
  then (None, set_nodes w (foldr (λ k m, <[k := Dir_]> m) (nodes w) ch))
  else (Some ENOTDIR, w).

Definition symlink (oldname newname : gostring) (w : world)
    : option oserror * world :=
  let k := key newname in
  match nodes w !! k with
  | Some _ => (Some ErrExist, w)
  | None =>
      match nodes w !! filepath.Dir k with
      | Some Dir_ => (None, set_nodes w (<[k := Link oldname]> (nodes w)))
      | Some _ => (Some ENOTDIR, w)
      | None => (Some ErrNotExist, w)
      end
  end.

Definition stat (name : gostring) (w : world) : option oserror :=
  match nodes w !! key name with
  | Some _ => None
  | None => Some ErrNotExist
  end.

Definition openFile (name : gostring) (flag : list openflag) (w : world)
    : option oserror * world :=
  let k := key name in
  match nodes w !! k with
  | Some (File _) => (None, w)
  | Some Dir_ => (Some EISDIR, w)
  | Some (Link _) => (Some ELOOP, w)
  | None =>
      if bool_decide (O_CREATE ∈ flag) then
        match nodes w !! filepath.Dir k with
        | Some Dir_ => (None, set_nodes w (<[k := File []]> (nodes w)))
        | Some _ => (Some ENOTDIR, w)
        | None => (Some ErrNotExist, w)
        end
      else (Some ErrNotExist, w)
  end.

Definition scanLines (name : gostring) (w : world) : list gostring :=
  match nodes w !! key name with
  | Some (File content) => bufio.ScanLines content
  | _ => []
  end.

(** [fmt.Fprintln(f, line)] writes the line and a newline at the end of
    the file. *)
Definition fprintln (name line : gostring) (w : world)
    : option oserror * world :=
  let k := key name in
  match nodes w !! k with
  | Some (File content) =>
      (None, set_nodes w (<[k := File (content ++ line ++ [bufio.newline])]> (nodes w)))
  | _ => (Some EBADF, w)
  end.

(** Whether something lies below the path [k]. *)
Definition hasEntries (k : gostring) (w : world) : bool :=
  existsb (λ k', negb (streq k' k) && bool_decide (k ∈ chain k'))
    (map fst (map_to_list (nodes w))).

Definition remove (name : gostring) (w : world) : option oserror * world :=
  let k := key name in
  match nodes w !! k with
  | None => (Some ErrNotExist, w)
  | Some Dir_ =>
      if hasEntries k w then (Some ENOTEMPTY, w)
      else (None, set_nodes w (delete k (nodes w)))
  | Some _ => (None, set_nodes w (delete k (nodes w)))
  end.

Definition handle : handler world := λ c w,
  match c return resp c * world with
  | Open name =>
      (match documents w !! name with
       | Some _ => None
       | None => Some ErrNotExist
       end, w)
  | ScanValue name =>
      (match documents w !! name with
       | Some v => v
       | None => inl (ReadError EBADF)
       end, w)
  | Close _ => (tt, w)
  | MkdirAll path _ => mkdirAll path w
  | Symlink oldname newname => symlink oldname newname w
  | Stat name => (stat name w, w)
  | OpenFile name flag _ => openFile name flag w
  | ScanLines name => (scanLines name w, w)
  | Fprintln name line => fprintln name line w
  | Remove name => remove name w
  | CombinedOutput name args =>
      (([], None),
       {| nodes := nodes w; documents := documents w;
          commands := (name, args) :: commands w |})
  end.

(** The symbolic links of a world. *)
Definition symlinks (w : world) : gmap gostring gostring :=
  omap (λ n, match n with Link t => Some t | _ => None end) (nodes w).

(** The content of a regular file. *)
Definition content (name : gostring) (w : world) : option gostring :=
  match nodes w !! key name with
  | Some (File c) => Some c
  | _ => None
  end.

Definition empty : world :=
  {| nodes := ∅; documents := ∅; commands := [] |}.

End fs.

(** ** Cleaned rooted paths, by their names

    Definitions for the statements about the path helpers. *)

Import filepath.

Definition nosep (e : gostring) : Prop :=
  Forall (λ c, IsPathSeparator c = false) e.

(** A name is an element that [Clean] copies. *)
Definition is_name (e : gostring) : Prop :=
  nosep e ∧ e ≠ [] ∧ e ≠ dot ∧ e ≠ dotdot_elem.

(** The rooted path with the given names. *)
Definition render (names : list gostring) : gostring :=
  Separator :: strings_Join names [Separator].

(** What [Clean] does to its stack of names on one element of a rooted path. *)
Definition step (st : list gostring) (e : gostring) : list gostring :=
  if streq e [] then st
  else if streq e dot then st
  else if streq e dotdot_elem then removelast st
  else st ++ [e].

Definition norm (st : list gostring) (es : list gostring) : list gostring :=
  fold_left step es st.

(** The names of an absolute path, as [Clean] leaves them. *)
Definition names_of (path : gostring) : list gostring :=
  norm [] (elements (drop 1 path)).

Abbreviation J names := (strings_Join names [Separator]).

(** The names left once the common leading names are dropped. *)
Fixpoint strip (bs ts : list gostring) : list gostring * list gostring :=
  match bs, ts with
  | b :: bs', t :: ts' => if streq t b then strip bs' ts' else (bs, ts)
  | _, _ => (bs, ts)
  end.

(** ** The shape of a hooks document

    The table of the interface: [container_rootfs] is a string,
    [ld_cache_updates] an array of strings, [symlinks] an array of objects
    with the strings [target] and [link]. Every value may also be [null],
    and members that select no field are free. *)

Module jsonspec.
Import jsondec.

Definition isStringOrNull (j : json) : bool :=
  match j with
  | JString _ | JNull => true
  | _ => false
  end.

Definition isStrings (j : json) : bool :=
  match j with
  | JNull => true
  | JArray elems => forallb isStringOrNull elems
  | _ => false
  end.

Definition isEntry (j : json) : bool :=
  match j with
  | JNull => true
  | JObject members =>
      forallb (λ m, match fieldByName symlinkEntryFields m.1 with
                    | Some _ => isStringOrNull m.2
                    | None => true
                    end) members
  | _ => false
  end.

Definition isEntries (j : json) : bool :=
  match j with
  | JNull => true
  | JArray elems => forallb isEntry elems
  | _ => false
  end.

Definition isHooksField (f : HooksField) (j : json) : bool :=
  match f with
  | FContainerRootFS => isStringOrNull j
  | FLDCacheUpdates => isStrings j
  | FSymlinks => isEntries j
  end.

Definition isHooks (j : json) : bool :=
  match j with
  | JNull => true
  | JObject members =>
      forallb (λ m, match fieldByName hooksFields m.1 with
                    | Some f => isHooksField f m.2
                    | None => true
                    end) members
  | _ => false
  end.

(** No member of the object selects the field. *)
Definition lacks (f : HooksField) (members : list (gostring * json)) : Prop :=
  Forall (λ m, fieldByName hooksFields m.1 ≠ Some f) members.

End jsonspec.

(** ** Calls, by what they are for *)

(** The calls of the symlink loop for the listed entries: the directory
    of the link and the link itself, both under the container root. *)
Definition symlinkCall (root : gostring) (entries : list SymlinkEntry)
    (c : call) : Prop :=
  ∃ e, e ∈ entries ∧
       (c = MkdirAll (filepath.Dir (filepath.Join [root; Link e])) 493
        ∨ ∃ target, c = Symlink target (filepath.Join [root; Link e])).

(** The calls of the linker-configuration merge and of the cache
    regeneration: everything that looks at, opens, reads, writes or removes
    a file, and the command. *)
Definition linkerCacheCall (c : call) : bool :=
  match c with
  | Stat _ | OpenFile _ _ _ | ScanLines _ | Fprintln _ _
  | Remove _ | CombinedOutput _ _ => true
  | _ => false
  end.

(** The calls that can change the file system. *)
Definition mutatingCall (c : call) : bool :=
  match c with
  | MkdirAll _ _ | Symlink _ _ | OpenFile _ _ _ | Fprintln _ _
  | Remove _ | CombinedOutput _ _ => true
  | _ => false
  end.

(** A world with one hooks document and an empty tree. *)
Definition world_with (path : gostring) (doc : json) : fs.world :=
  {| fs.nodes := ∅; fs.documents := {[ path := inr doc ]}; fs.commands := [] |}.

(** The plan of the first counterexample: a valid entry followed by one
    whose link is not absolute. *)
Definition partly_valid_doc : json :=
  JObject [(str "symlinks",
            JArray [JObject [(str "target", JString (str "/usr/lib/libfoo.so"));
                             (str "link", JString (str "/usr/lib/x/libfoo.so"))];
                    JObject [(str "target", JString (str "libbar.so"));
                             (str "link", JString (str "usr/lib/x/libbar.so"))]])].

(** ** The linker-configuration merge, in the words of its description *)

(** The updates to append, in order, given the entries already there:
    an update that is there is passed over, one that is not is appended
    and is there from then on. *)
Fixpoint missing (seen updates : list gostring) : list gostring :=
  match updates with
  | [] => []
  | u :: rest =>
      if bool_decide (u ∈ seen) then missing seen rest
      else u :: missing (u :: seen) rest
  end.

(** The bytes of the given lines, each with its newline. *)
Definition lineBytes (entries : list gostring) : gostring :=
  concat (map (λ u, u ++ [bufio.newline]) entries).



(** A tree with one regular file. *)
Definition world_file (name content : gostring) : fs.world :=
  {| fs.nodes := {[ fs.key name := fs.File content ]};
     fs.documents := ∅; fs.commands := [] |}.

(** Whether a string starts with a white-space rune. *)
Definition startsWithSpace (s : gostring) : bool :=
  match s with
  | [] => false
  | c1 :: r1 =>
      strings.isSpace1 c1 ||
      match r1 with
      | [] => false
      | c2 :: r2 =>
          strings.isSpace2 c1 c2 ||
          match r2 with
          | [] => false
          | c3 :: _ => strings.isSpace3 c1 c2 c3
          end
      end
  end.

(** The same for a reversed string: whether the string ends with one. *)
Definition startsWithSpaceRev (s : gostring) : bool :=
  match s with
  | [] => false
  | c1 :: r1 =>
      strings.isSpace1 c1 ||
      match r1 with
      | [] => false
      | c2 :: r2 =>
          strings.isSpace2 c2 c1 ||
          match r2 with
          | [] => false
          | c3 :: _ => strings.isSpace3 c3 c2 c1
          end
      end
  end.

(** ** An entry that has been applied *)

(** In the world [w] the entry has its directory, down from the top, and
    something at the place of its link. *)
Definition settled (root : gostring) (w : fs.world) (e : SymlinkEntry) : Prop :=
  (∃ target, resolveTargetRelativeToLink (Link e) (Target e) = inr target)
  ∧ (∀ k, k ∈ fs.chain (fs.key (filepath.Dir (filepath.Join [root; Link e]))) →
          fs.nodes w !! k = Some fs.Dir_)
  ∧ is_Some (fs.nodes w !! fs.key (filepath.Join [root; Link e])).

(** The three paths of the linker cache update. *)
Definition confDir (root : gostring) : gostring :=
  filepath.Join [root; str "etc"; str "ld.so.conf.d"].

Definition confFile (root : gostring) : gostring :=
  root ++ str "/etc/ld.so.conf.d/" ++ customCDILinkerConfFile.

Definition cachePath (root : gostring) : gostring :=
  filepath.Join [root; str "etc"; str "ld.so.cache"].

(** The path and the directories above it are directories. *)
Definition chainDirs (w : fs.world) (path : gostring) : Prop :=
  ∀ k, k ∈ fs.chain (fs.key path) → fs.nodes w !! k = Some fs.Dir_.

(** What a successful application of a whole plan leaves for an entry:
    with linker directories in the plan the cache has been removed at the
    end, and a link at the very path of the cache with it. *)
Definition applied (root : gostring) (w : fs.world) (e : SymlinkEntry) : Prop :=
  (∃ target, resolveTargetRelativeToLink (Link e) (Target e) = inr target)
  ∧ chainDirs w (filepath.Dir (filepath.Join [root; Link e]))
  ∧ (is_Some (fs.nodes w !! fs.key (filepath.Join [root; Link e]))
     ∨ fs.key (filepath.Join [root; Link e]) = fs.key (cachePath root))
  ∧ fs.key (cachePath root)
    ∉ fs.chain (fs.key (filepath.Dir (filepath.Join [root; Link e]))).

(** What it leaves of the linker cache update. *)
Definition merged (root : gostring) (w : fs.world) : Prop :=
  chainDirs w (confDir root)
  ∧ (∃ c, fs.content (confFile root) w = Some c)
  ∧ fs.nodes w !! fs.key (cachePath root) = None.

(** ** Further definitions for the statements *)

(** The path [Rel] returns from the cleaned rooted path with the names
    [bs] to the one with the names [ts]: one [..] for every name of [bs]
    after the common leading names, then the names of [ts] after them; a
    dot when the paths are the same. *)
Definition relative (bs ts : list gostring) : gostring :=
  if streq (render ts) (render bs) then dot
  else J (replicate (length (strip bs ts).1) dotdot_elem ++ (strip bs ts).2).

(** The path lies under the root: its names start with the names of the
    root. *)
Definition under (root path : gostring) : Prop :=
  ∃ names, Forall is_name names ∧ path = render (names_of root ++ names).

(** The calls of the symlink loop when every call succeeds: the directory
    and the link of each entry, in the order of the plan, up to the first
    entry that does not resolve. *)
Fixpoint plannedCalls (root : gostring) (entries : list SymlinkEntry)
    : list call :=
  match entries with
  | [] => []
  | e :: rest =>
      match resolveTargetRelativeToLink (Link e) (Target e) with
      | inl _ => []
      | inr target =>
          MkdirAll (filepath.Dir (filepath.Join [root; Link e])) 493
          :: Symlink target (filepath.Join [root; Link e])
          :: plannedCalls root rest
      end
  end.

Definition isMkdirAll (c : call) : bool :=
  match c with MkdirAll _ _ => true | _ => false end.

Definition isSymlink (c : call) : bool :=
  match c with Symlink _ _ => true | _ => false end.

(** What the symlink loop can fail with, and what the trace then ends
    with. *)
Definition loopFailure (entries : list SymlinkEntry) (t : list call)
    (err : HookError) : Prop :=
  match err with
  | FailedResolvingSymlink (LinkNotAbsolute link target) =>
      IsAbs link = false
      ∧ ∃ e, e ∈ entries ∧ Link e = link ∧ Target e = target
  | FailedCreatingSymlinkDir _ =>
      ∃ t' c, t = t' ++ [c] ∧ isMkdirAll c = true
  | FailedCreatingSymlink e =>
      isErrExist e = false ∧ ∃ t' c, t = t' ++ [c] ∧ isSymlink c = true
  | _ => False
  end.

(** The calls that close the named file, counted. *)
Definition isCloseOf (name : gostring) (c : call) : bool :=
  match c with
  | Close n => bool_decide (n = name)
  | _ => false
  end.

Definition closeCount (name : gostring) (t : list call) : nat :=
  length (filter (λ c, isCloseOf name c = true) t).

(** Whether the result tells that the configuration file has been opened:
    it has not when the update failed before or at the opening. *)
Definition confOpened (r : option HookError) : bool :=
  match r with
  | Some (FailedCreatingLinkerConfDir _ _) | Some (CouldNotStatLdConf _ _)
  | Some (FailedOpeningLdConf _ _) | Some (FailedCreatingLdConf _ _) => false
  | _ => true
  end.

(** The calls on the linker cache itself. *)
Definition cacheCall (c : call) : bool :=
  match c with
  | Remove _ | CombinedOutput _ _ => true
  | _ => false
  end.

Definition removeCache (root : gostring) : call := Remove (cachePath root).

Definition ldconfig (root : gostring) : call :=
  CombinedOutput (str "/sbin/ldconfig") [str "-r"; root].

(** What a loop over the updates leaves: either it succeeded and has not
    closed the file, or a write failed and closing the file was its last
    call; it does not touch the cache. *)
Definition loopShape (p : gostring) (r : option HookError) (t : list call) : Prop :=
  ((r = None ∧ closeCount p t = 0)
   ∨ ((∃ e, r = Some (FailedWritingLdConf p e))
      ∧ closeCount p t = 1 ∧ ∃ t', t = t' ++ [Close p]))
  ∧ Forall (λ c, cacheCall c = false) t.


(** The order of the calls of the linker cache update: the calls on the
    cache come last, the removal and then the command, after the
    configuration file has been closed; a failure may end the update
    before; success comes after the command. *)
Definition cacheOrder (root : gostring) (r : option HookError) (t : list call)
    : Prop :=
  ∃ pre tail,
    t = pre ++ tail
    ∧ Forall (λ c, cacheCall c = false) pre
    ∧ (tail = []
       ∨ ((∃ pre', pre = pre' ++ [Close (confFile root)])
          ∧ (tail = [removeCache root]
             ∨ tail = [removeCache root; ldconfig root])))
    ∧ (r = None → tail = [removeCache root; ldconfig root]).


(** From the tree of [w] to that of [w'] nothing is removed and nothing
    is changed, and what is new is a directory or the symlink of an entry,
    at the path of its link under the root and with the resolved target. *)
Definition onlyAdds (root : gostring) (entries : list SymlinkEntry)
    (w w' : fs.world) : Prop :=
  fs.nodes w ⊆ fs.nodes w'
  ∧ fs.documents w' = fs.documents w
  ∧ fs.commands w' = fs.commands w
  ∧ ∀ k n, fs.nodes w' !! k = Some n → fs.nodes w !! k = None →
      n = fs.Dir_
      ∨ ∃ e target,
          e ∈ entries
          ∧ resolveTargetRelativeToLink (Link e) (Target e) = inr target
          ∧ n = fs.Link target
          ∧ k = fs.key (filepath.Join [root; Link e]).

(** The document that spells a plan with the names of the struct tags. *)
Definition entryMembers (e : SymlinkEntry) : list (gostring * json) :=
  [(str "target", JString (Target e)); (str "link", JString (Link e))].

Definition hooksMembers (h : Hooks) : list (gostring * json) :=
  [(str "container_rootfs", JString (ContainerRootFS h));
   (str "ld_cache_updates", JArray (map JString (LDCacheUpdates h)));
   (str "symlinks", JArray (map (λ e, JObject (entryMembers e)) (Symlinks h)))].

(** * Properties *)

(** ** Examples *)

Example resolve_ex1 :
  resolveTargetRelativeToLink (str "/a/b/link") (str "/a/c/lib.so")
  = inr (str "../c/lib.so").
Proof. vm_compute. reflexivity. Qed.

Example resolve_ex2 :
  resolveTargetRelativeToLink (str "/usr/lib/x/libfoo.so") (str "/usr/lib/libfoo.so")
  = inr (str "../libfoo.so").
Proof. vm_compute. reflexivity. Qed.

Example clean_ex :
  map filepath.Clean [str "/a/./b//../c/"; str "a/../../b"; str ""; str "/.."; str "//"]
  = [str "/a/c"; str "../b"; str "."; str "/"; str "/"].
Proof. vm_compute. reflexivity. Qed.

Example rel_ex :
  map (λ p, filepath.Rel (fst p) (snd p))
    [(str "/a", str "/a/b"); (str "/a/b", str "/a"); (str "/", str "/a/b");
     (str "/ab", str "/a"); (str "/a/b/c", str "/a/d"); (str "/a", str "/")]
  = map inr [str "b"; str ".."; str "a/b"; str "../a"; str "../../d"; str ".."].
Proof. vm_compute. reflexivity. Qed.

Example trim_ex :
  map strings.TrimSpace [str "  /opt/a "; str "/opt/a"; str " "; str ""]
  = [str "/opt/a"; str "/opt/a"; str ""; str ""].
Proof. vm_compute. reflexivity. Qed.

Example scan_ex :
  bufio.ScanLines (str "/opt/a" ++ [bufio.newline] ++ str "/opt/b" ++ [bufio.cr; bufio.newline] ++ str "x")
  = [str "/opt/a"; str "/opt/b"; str "x"].
Proof. vm_compute. reflexivity. Qed.

Example chain_ex :
  fs.chain (str "/r/usr/lib") = [str "/r/usr/lib"; str "/r/usr"; str "/r"; str "/"].
Proof. vm_compute. reflexivity. Qed.

(** The end-to-end scenario: one symlink and one linker directory against
    a root that holds nothing but the root directory. *)
Definition scenario_hooks : Hooks :=
  {| ContainerRootFS := str "/r";
     LDCacheUpdates := [str "/usr/lib/x"];
     Symlinks := [{| Target := str "/usr/lib/libfoo.so";
                     Link := str "/usr/lib/x/libfoo.so" |}] |}.

Example scenario_ex :
  let '(err, w, _) := run fs.handle (applyHooks scenario_hooks (str "/r")) fs.empty in
  err = None
  ∧ fs.symlinks w !! str "/r/usr/lib/x/libfoo.so" = Some (str "../libfoo.so")
  ∧ fs.content (str "/r/etc/ld.so.conf.d/00-lxdcdi.conf") w
    = Some (str "/usr/lib/x" ++ [bufio.newline])
  ∧ fs.commands w = [(str "/sbin/ldconfig", [str "-r"; str "/r"])].
Proof. vm_compute. done. Qed.

(** ** Path elements and the shape of cleaned rooted paths *)

Lemma streq_true a b : streq a b = true ↔ a = b.
Proof. unfold streq. apply bool_decide_eq_true. Qed.

Lemma streq_false a b : streq a b = false ↔ a ≠ b.
Proof. unfold streq. apply bool_decide_eq_false. Qed.

Lemma IsPathSeparator_true c : IsPathSeparator c = true ↔ c = Separator.
Proof. unfold IsPathSeparator. apply Ascii.eqb_eq. Qed.

Lemma elements_nonempty p : elements p ≠ [].
Proof. destruct p as [|c p]; simpl; [done|]. destruct (IsPathSeparator c); [done|]. by destruct (elements p). Qed.

Lemma elements_nosep p : Forall nosep (elements p).
Proof.
  induction p as [|c p IH]; simpl.
  - repeat constructor.
  - destruct (IsPathSeparator c) eqn:Hc.
    + constructor; [constructor|done].
    + destruct (elements p) as [|e es]; [repeat constructor; done|].
      inversion IH; subst. constructor; [|done]. by constructor.
Qed.

Lemma elements_app_sep a b :
  elements (a ++ Separator :: b) = elements a ++ elements b.
Proof.
  induction a as [|c a IH]; simpl; [done|].
  rewrite IH. destruct (IsPathSeparator c); [done|].
  pose proof (elements_nonempty a). by destruct (elements a).
Qed.

Lemma elements_nosep_id e : nosep e → elements e = [e].
Proof.
  induction 1 as [|c e Hc _ IH]; simpl; [done|]. by rewrite Hc, IH.
Qed.

Lemma strings_Join_cons e es :
  es ≠ [] → strings_Join (e :: es) [Separator] = e ++ Separator :: strings_Join es [Separator].
Proof. by destruct es. Qed.

Lemma strings_Join_snoc es e :
  es ≠ [] →
  strings_Join (es ++ [e]) [Separator] = strings_Join es [Separator] ++ Separator :: e.
Proof.
  induction es as [|x es IH]; [done|]. intros _.
  destruct es as [|y es]; [done|].
  change ((x :: y :: es) ++ [e]) with (x :: ((y :: es) ++ [e])).
  rewrite strings_Join_cons by (simpl; done). rewrite IH by done.
  rewrite (strings_Join_cons x) by done. by rewrite <- app_assoc.
Qed.

Lemma elements_Join es :
  es ≠ [] → Forall nosep es → elements (strings_Join es [Separator]) = es.
Proof.
  induction es as [|x es IH]; [done|]. intros _ H. inversion H; subst.
  destruct es as [|y es]; [by apply elements_nosep_id|].
  rewrite strings_Join_cons by done. rewrite elements_app_sep.
  rewrite IH by done. by rewrite elements_nosep_id.
Qed.

Lemma render_snoc st e :
  render (st ++ [e]) =
  if decide (st = []) then Separator :: e else render st ++ Separator :: e.
Proof.
  unfold render. destruct (decide (st = [])) as [->|Hne]; [done|].
  by rewrite strings_Join_snoc.
Qed.

Lemma render_length st : 1 ≤ length (render st).
Proof. unfold render; simpl; lia. Qed.

Lemma render_length_1 st :
  Forall is_name st → length (render st) = 1 → st = [].
Proof.
  destruct st as [|e st]; [done|]. intros H. inversion H as [|?? [_ [Hne _]]]; subst.
  unfold render. destruct e; [done|]. destruct st; simpl; rewrite ?length_app; simpl; lia.
Qed.

Lemma backtrackLoop_S out dd w :
  backtrackLoop out dd (S w) =
  if (dd <? S w) && negb (from_option IsPathSeparator false (out !! S w))
  then backtrackLoop out dd w else S w.
Proof. reflexivity. Qed.

Lemma backtrackLoop_sep P s c dd k :
  nosep c → IsPathSeparator s = true → dd ≤ length P → k ≤ length c →
  backtrackLoop (P ++ s :: c) dd (length P + k) = length P.
Proof.
  intros Hc Hs Hdd. induction k as [|k IH]; intros Hk.
  - rewrite Nat.add_0_r. destruct (length P) as [|n] eqn:Hn; [done|].
    rewrite backtrackLoop_S, <- Hn.
    rewrite lookup_app_r by lia. rewrite Nat.sub_diag. simpl. rewrite Hs.
    by rewrite andb_false_r.
  - rewrite Nat.add_succ_r, backtrackLoop_S.
    rewrite lookup_app_r by lia.
    replace (S (length P + k) - length P) with (S k) by lia. simpl.
    destruct (c !! k) as [x|] eqn:Hx; [|apply lookup_ge_None in Hx; lia].
    simpl. unfold nosep in Hc. rewrite Forall_lookup in Hc. rewrite (Hc _ _ Hx). simpl.
    replace (dd <? S (length P + k)) with true by (symmetry; apply Nat.ltb_lt; lia).
    simpl. apply IH. lia.
Qed.

Lemma backtrackLoop_stop P c k :
  nosep c → k ≤ length c →
  backtrackLoop (P ++ c) (length P) (length P + k) = length P.
Proof.
  intros Hc. induction k as [|k IH]; intros Hk.
  - rewrite Nat.add_0_r. destruct (length P) as [|n] eqn:Hn; [done|].
    rewrite backtrackLoop_S. by rewrite Nat.ltb_irrefl.
  - rewrite Nat.add_succ_r, backtrackLoop_S.
    replace (length P <? S (length P + k)) with true by (symmetry; apply Nat.ltb_lt; lia).
    rewrite lookup_app_r by lia.
    replace (S (length P + k) - length P) with (S k) by lia.
    destruct (c !! S k) as [x|] eqn:Hx; simpl.
    + unfold nosep in Hc. rewrite Forall_lookup in Hc. rewrite (Hc _ _ Hx). simpl. apply IH. lia.
    + apply IH. lia.
Qed.

Lemma backtrack_render st :
  Forall is_name st → st ≠ [] →
  backtrack (render st) 1 = render (removelast st).
Proof.
  intros Hst Hne. destruct (exists_last Hne) as [st' [e ->]].
  rewrite removelast_last. apply Forall_app in Hst as [Hst' He].
  inversion He as [|?? [Hns [Hene _]] _]; subst.
  rewrite render_snoc. unfold backtrack. destruct (decide (st' = [])) as [->|Hne'].
  - destruct e as [|c0 e']; [done|]. set (e := c0 :: e') in *.
    change (Separator :: e) with ([Separator] ++ e).
    replace (length ([Separator] ++ e) - 1) with (length [Separator] + (length e - 1))
      by (rewrite length_app; subst e; simpl; lia).
    change 1 with (length [Separator]) at 1.
    rewrite backtrackLoop_stop by (done || lia). done.
  - replace (length (render st' ++ Separator :: e) - 1) with (length (render st') + length e)
      by (rewrite length_app; simpl; lia).
    rewrite backtrackLoop_sep; [|done|done|apply render_length|lia].
    by rewrite take_app_length.
Qed.

Lemma is_name_step st e :
  nosep e → Forall is_name st → Forall is_name (step st e).
Proof.
  intros He Hst. unfold step.
  destruct (streq e []) eqn:E1; [done|].
  destruct (streq e dot) eqn:E2; [done|].
  destruct (streq e dotdot_elem) eqn:E3.
  - destruct st as [|x st] using rev_ind; [done|].
    rewrite removelast_last. by apply Forall_app in Hst as [? _].
  - apply Forall_app. split; [done|]. constructor; [|done].
    apply streq_false in E1, E2, E3. done.
Qed.

Lemma is_name_norm es st :
  Forall nosep es → Forall is_name st → Forall is_name (norm st es).
Proof.
  revert st. induction es as [|e es IH]; intros st Hes Hst; [done|].
  inversion Hes; subst. simpl. apply IH; [done|]. by apply is_name_step.
Qed.

Lemma norm_names es st : Forall is_name es → norm st es = st ++ es.
Proof.
  revert st. induction es as [|e es IH]; intros st Hes; simpl.
  - by rewrite app_nil_r.
  - inversion Hes as [|?? (_ & H1 & H2 & H3)]; subst.
    replace (step st e) with (st ++ [e]).
    + rewrite IH by done. by rewrite <- app_assoc.
    + unfold step. apply streq_false in H1, H2, H3. by rewrite H1, H2, H3.
Qed.

Lemma norm_app st es1 es2 : norm st (es1 ++ es2) = norm (norm st es1) es2.
Proof. apply fold_left_app. Qed.

Lemma cleanLoop_cons rooted e rest out dotdot :
  cleanLoop rooted (e :: rest) out dotdot =
  if streq e [] then cleanLoop rooted rest out dotdot
  else if streq e dot then cleanLoop rooted rest out dotdot
  else if streq e dotdot_elem then
    if dotdot <? length out then
      cleanLoop rooted rest (backtrack out dotdot) dotdot
    else if negb rooted then
      let out1 := if 0 <? length out then out ++ [Separator] else out in
      let out2 := out1 ++ dotdot_elem in
      cleanLoop rooted rest out2 (length out2)
    else cleanLoop rooted rest out dotdot
  else
    let out1 :=
      if (rooted && negb (length out =? 1)) ||
         (negb rooted && negb (length out =? 0))
      then out ++ [Separator] else out in
    cleanLoop rooted rest (out1 ++ e) dotdot.
Proof. reflexivity. Qed.

Lemma norm_cons st e es : norm st (e :: es) = norm (step st e) es.
Proof. reflexivity. Qed.

Lemma cleanLoop_rooted es st :
  Forall nosep es → Forall is_name st →
  cleanLoop true es (render st) 1 = render (norm st es).
Proof.
  revert st. induction es as [|e es IH]; intros st Hes Hst; [done|].
  inversion Hes; subst. rewrite cleanLoop_cons, norm_cons. unfold step. cbv zeta.
  destruct (streq e []) eqn:E1; [by apply IH|].
  destruct (streq e dot) eqn:E2; [by apply IH|].
  destruct (streq e dotdot_elem) eqn:E3.
  - destruct (1 <? length (render st)) eqn:Hl.
    + apply Nat.ltb_lt in Hl.
      assert (st ≠ []) as Hne by (intros ->; simpl in Hl; lia).
      rewrite backtrack_render by done. apply IH; [done|].
      destruct st as [|x st'] using rev_ind; [done|].
      rewrite removelast_last. by apply Forall_app in Hst as [? _].
    + apply Nat.ltb_ge in Hl. pose proof (render_length st).
      rewrite (render_length_1 st) by (done || lia). simpl negb. cbv iota.
      by apply (IH []).
  - rewrite andb_true_l, andb_false_l, orb_false_r.
    assert (Forall is_name (st ++ [e])) as Hst'.
    { apply Forall_app. split; [done|]. constructor; [|done].
      apply streq_false in E1, E2, E3. done. }
    rewrite <- IH by done. f_equal. rewrite render_snoc.
    destruct (decide (st = [])) as [->|Hne]; [done|].
    destruct (length (render st) =? 1) eqn:Hl.
    + apply Nat.eqb_eq in Hl. by apply render_length_1 in Hl.
    + simpl. by rewrite <- app_assoc.
Qed.

Lemma names_of_is_name path : Forall is_name (names_of path).
Proof. apply is_name_norm; [apply elements_nosep|constructor]. Qed.

Lemma Clean_abs path :
  IsAbs path = true → Clean path = render (names_of path).
Proof.
  destruct path as [|c rest]; [done|]. simpl. intros ->.
  change [Separator] with (render []).
  rewrite cleanLoop_rooted by (apply elements_nosep || constructor).
  unfold names_of. simpl. rewrite drop_0. done.
Qed.

Lemma names_of_render ns : Forall is_name ns → names_of (render ns) = ns.
Proof.
  intros Hns. unfold names_of, render. simpl. rewrite drop_0.
  destruct (decide (ns = [])) as [->|Hne]; [done|].
  rewrite elements_Join; [|done|]. { by rewrite norm_names. }
  eapply Forall_impl; [done|]. by intros ? [? _].
Qed.

Lemma Clean_render ns : Forall is_name ns → Clean (render ns) = render ns.
Proof. intros Hns. rewrite Clean_abs by done. by rewrite names_of_render. Qed.

Lemma lastSep_S path i :
  lastSep path (S i) =
  if from_option IsPathSeparator false (path !! i) then S i else lastSep path i.
Proof. reflexivity. Qed.

Lemma lastSep_app P s c k :
  nosep c → IsPathSeparator s = true → k ≤ length c →
  lastSep (P ++ s :: c) (length P + 1 + k) = length P + 1.
Proof.
  intros Hc Hs. induction k as [|k IH]; intros Hk.
  - rewrite Nat.add_0_r, Nat.add_1_r, lastSep_S.
    rewrite lookup_app_r by lia. rewrite Nat.sub_diag. simpl. by rewrite Hs.
  - rewrite Nat.add_succ_r, lastSep_S.
    rewrite lookup_app_r by lia.
    replace (length P + 1 + k - length P) with (S k) by lia. simpl.
    destruct (c !! k) as [x|] eqn:Hx; [|apply lookup_ge_None in Hx; lia].
    simpl. unfold nosep in Hc. rewrite Forall_lookup in Hc. rewrite (Hc _ _ Hx).
    apply IH. lia.
Qed.

Lemma Dir_render ns :
  Forall is_name ns → Dir (render ns) = render (removelast ns).
Proof.
  intros Hns. unfold Dir.
  destruct ns as [|e st _] using rev_ind; [done|].
  rewrite removelast_last. apply Forall_app in Hns as [Hst He].
  inversion He as [|?? [Hns _] _]; subst.
  rewrite render_snoc. destruct (decide (st = [])) as [->|Hne].
  - change (Separator :: e) with ([] ++ Separator :: e).
    replace (length ([] ++ Separator :: e)) with (length (@nil ascii) + 1 + length e)
      by (simpl; lia).
    rewrite lastSep_app by done. done.
  - replace (length (render st ++ Separator :: e))
      with (length (render st) + 1 + length e) by (rewrite length_app; simpl; lia).
    rewrite lastSep_app by done.
    replace (render st ++ Separator :: e) with ((render st ++ [Separator]) ++ e)
      by (by rewrite <- app_assoc).
    replace (length (render st) + 1) with (length (render st ++ [Separator]))
      by (rewrite length_app; simpl; lia).
    rewrite take_app_length.
    rewrite Clean_abs by done. f_equal.
    unfold names_of, render. simpl. rewrite drop_0.
    change (strings_Join st [Separator] ++ [Separator])
      with (strings_Join st [Separator] ++ Separator :: []).
    rewrite elements_app_sep. rewrite elements_Join; [|done|].
    + rewrite norm_app. rewrite (norm_names st) by done. reflexivity.
    + eapply Forall_impl; [done|]. by intros ? [? _].
Qed.
Lemma strip_spec bs ts :
  ∃ common, bs = common ++ (strip bs ts).1 ∧ ts = common ++ (strip bs ts).2.
Proof.
  revert ts. induction bs as [|b bs IH]; intros ts; [by exists []|].
  destruct ts as [|t ts]; [by exists []|]. simpl.
  destruct (streq t b) eqn:E; [|by exists []].
  apply streq_true in E as ->. destruct (IH ts) as (c & H1 & H2).
  exists (b :: c). simpl. by rewrite <- H1, <- H2.
Qed.

Lemma element_app_sep e rest :
  nosep e → element (e ++ Separator :: rest) = e.
Proof. induction 1 as [|c e Hc _ IH]; simpl; [done|]. by rewrite Hc, IH. Qed.

Lemma element_nosep e : nosep e → element e = e.
Proof. induction 1 as [|c e Hc _ IH]; simpl; [done|]. by rewrite Hc, IH. Qed.

Lemma element_Join b bs : nosep b → element (J (b :: bs)) = b.
Proof.
  intros Hb. destruct bs as [|b' bs]; [by apply element_nosep|].
  rewrite strings_Join_cons by done. by apply element_app_sep.
Qed.

Lemma drop_Join b bs : drop (S (length b)) (J (b :: bs)) = J bs.
Proof.
  destruct bs as [|b' bs].
  - simpl strings_Join. apply drop_ge. lia.
  - rewrite strings_Join_cons by done.
    change (b ++ Separator :: J (b' :: bs)) with (b ++ [Separator] ++ J (b' :: bs)).
    rewrite app_assoc.
    replace (S (length b)) with (length (b ++ [Separator])) by (rewrite length_app; simpl; lia).
    apply drop_app_length.
Qed.

Lemma Join_nil_inv ns : Forall is_name ns → J ns = [] → ns = [].
Proof.
  destruct ns as [|e ns]; [done|]. intros H. inversion H as [|?? (_ & Hne & _)]; subst.
  destruct ns; simpl; [done|]. by destruct e.
Qed.

Lemma relLoop_nil_r fuel base : relLoop fuel base [] = (base, [], []).
Proof. by destruct fuel, base. Qed.

Lemma relLoop_S fuel base targ :
  base ≠ [] → targ ≠ [] →
  relLoop (S fuel) base targ =
  if negb (streq (element targ) (element base)) then (base, element base, targ)
  else relLoop fuel (drop (S (length (element base))) base)
                    (drop (S (length (element targ))) targ).
Proof. by destruct base, targ. Qed.

Lemma Join_cons_ne b bs : b ≠ [] → J (b :: bs) ≠ [].
Proof. destruct b; [done|]. by destruct bs. Qed.

Lemma relLoop_names fuel bs ts :
  Forall is_name bs → Forall is_name ts → length (J bs) ≤ fuel →
  ∃ belem, relLoop fuel (J bs) (J ts) = (J (strip bs ts).1, belem, J (strip bs ts).2)
           ∧ belem ≠ dotdot_elem.
Proof.
  revert bs ts. induction fuel as [|fuel IH]; intros bs ts Hbs Hts Hfuel.
  - assert (J bs = []) as Hnil by (apply length_zero_iff_nil; lia).
    rewrite (Join_nil_inv bs) by done. exists []. done.
  - destruct bs as [|b bs]; [exists []; split; [reflexivity|done]|].
    destruct ts as [|t ts].
    { exists []. split; [|done]. simpl strip. apply relLoop_nil_r. }
    inversion Hbs as [|?? (Hb1 & Hb2 & Hb3 & Hb4)]; subst.
    inversion Hts as [|?? (Ht1 & Ht2 & Ht3 & Ht4)]; subst.
    rewrite relLoop_S by (by apply Join_cons_ne).
    rewrite !element_Join by done. simpl strip.
    destruct (streq t b) eqn:E; simpl negb; cbv iota.
    + rewrite !drop_Join. apply IH; [done..|].
      rewrite <- (drop_Join b bs), length_drop.
      pose proof (Join_cons_ne b bs Hb2). destruct (J (b :: bs)); [done|].
      simpl in *. lia.
    + exists b. done.
Qed.

Lemma countSep_nosep e : nosep e → countSep e = 0.
Proof.
  unfold countSep. induction 1 as [|c e Hc _ IH]; [done|].
  rewrite filter_cons. destruct (decide (IsPathSeparator c = true)); [congruence|done].
Qed.

Lemma countSep_app a b : countSep (a ++ b) = countSep a + countSep b.
Proof. unfold countSep. by rewrite filter_app, length_app. Qed.

Lemma countSep_Join ns : Forall nosep ns → countSep (J ns) = length ns - 1.
Proof.
  induction ns as [|e ns IH]; [done|]. intros H. inversion H; subst.
  destruct ns as [|e' ns]; [by apply countSep_nosep|].
  rewrite strings_Join_cons by done.
  change (e ++ Separator :: J (e' :: ns)) with (e ++ [Separator] ++ J (e' :: ns)).
  rewrite !countSep_app, IH, countSep_nosep by done. simpl. lia.
Qed.

Lemma ups_Join k ts :
  dotdot_elem ++ ups k ++ (if negb (streq (J ts) []) then Separator :: J ts else [])
  = J (replicate (S k) dotdot_elem ++ ts) ∨ (J ts = [] ∧ ts ≠ []).
Proof.
  destruct (decide (ts = [])) as [->|Hne].
  - left. simpl. rewrite app_nil_r. induction k as [|k IH]; [done|].
    simpl in *. by rewrite <- IH.
  - destruct (streq (J ts) []) eqn:E; [apply streq_true in E; by right|left].
    simpl negb. cbv iota. induction k as [|k IH].
    + simpl ups. destruct ts; [done|]. reflexivity.
    + change (replicate (S (S k)) dotdot_elem ++ ts)
        with (dotdot_elem :: (replicate (S k) dotdot_elem ++ ts)).
      rewrite strings_Join_cons by done. rewrite <- IH. reflexivity.
Qed.

Lemma norm_elements_J st xs :
  Forall nosep xs → norm st (elements (J xs)) = norm st xs.
Proof.
  intros H. destruct (decide (xs = [])) as [->|Hne]; [done|].
  by rewrite elements_Join.
Qed.

Lemma is_name_nosep ns : Forall is_name ns → Forall nosep ns.
Proof. intros H. eapply Forall_impl; [done|]. by intros ? [? _]. Qed.

Lemma Clean_join_names bs xs :
  Forall is_name bs → Forall nosep xs →
  Clean (render bs ++ Separator :: J xs) = render (norm bs xs).
Proof.
  intros Hbs Hxs. rewrite Clean_abs by done. f_equal.
  unfold names_of, render. simpl drop. rewrite drop_0.
  rewrite elements_app_sep, norm_app.
  rewrite !norm_elements_J by (done || by apply is_name_nosep).
  by rewrite (norm_names bs).
Qed.

Lemma nosep_dotdot : nosep dotdot_elem.
Proof. by repeat constructor. Qed.

Lemma norm_dotdots common bs :
  norm (common ++ bs) (replicate (length bs) dotdot_elem) = common.
Proof.
  induction bs as [|b bs IH] using rev_ind; simpl.
  - by rewrite app_nil_r.
  - rewrite length_app. simpl. rewrite Nat.add_1_r. simpl replicate.
    rewrite norm_cons. unfold step. simpl.
    rewrite app_assoc, removelast_last. apply IH.
Qed.

Lemma relLoop_render bs ts :
  relLoop (length (render bs)) (render bs) (render ts)
  = relLoop (length (J bs)) (J bs) (J ts).
Proof. reflexivity. Qed.

Lemma Rel_render bs ts :
  Forall is_name bs → Forall is_name ts →
  ∃ rel, Rel (render bs) (render ts) = inr rel
         ∧ Clean (render bs ++ Separator :: rel) = render ts.
Proof.
  intros Hbs Hts. unfold Rel. rewrite !Clean_render by done.
  destruct (streq (render ts) (render bs)) eqn:E.
  { apply streq_true in E. exists dot. split; [done|].
    change dot with (J [dot]). rewrite Clean_join_names; [|done|by repeat constructor].
    rewrite E. f_equal. }
  replace (streq (render bs) dot) with false by done.
  change (negb (eqb (IsAbs (render bs)) (IsAbs (render ts)))) with false. cbv iota.
  rewrite relLoop_render.
  destruct (relLoop_names (length (J bs)) bs ts Hbs Hts (le_n _)) as (belem & -> & Hbe).
  destruct (strip_spec bs ts) as (common & Hb & Ht).
  destruct (strip bs ts) as [bs' ts']. simpl in *.
  assert (Forall is_name bs' ∧ Forall is_name ts') as [Hbs' Hts'].
  { rewrite Hb in Hbs. rewrite Ht in Hts.
    apply Forall_app in Hbs as [_ ?]. by apply Forall_app in Hts as [_ ?]. }
  apply streq_false in Hbe. rewrite Hbe.
  assert (∀ rel, rel = J (replicate (length bs') dotdot_elem ++ ts') →
            Clean (render bs ++ Separator :: rel) = render ts) as Hfin.
  { intros rel ->. rewrite Clean_join_names; [|done|].
    - f_equal. rewrite norm_app. rewrite Hb at 1. rewrite norm_dotdots.
      rewrite norm_names by done. done.
    - apply Forall_app. split; [|by apply is_name_nosep].
      apply Forall_replicate, nosep_dotdot. }
  destruct (streq (J bs') []) eqn:E'; simpl negb; cbv iota.
  - apply streq_true in E'. apply Join_nil_inv in E'; [|done]. subst bs'.
    eexists. split; [done|]. by apply Hfin.
  - eexists. split; [done|]. apply Hfin.
    rewrite countSep_Join by (by apply is_name_nosep).
    destruct bs' as [|b bs']; [done|].
    replace (length (b :: bs') - 1) with (length bs') by (simpl; lia).
    change (length (b :: bs')) with (S (length bs')).
    destruct (ups_Join (length bs') ts') as [H|[Hn Hne]]; [exact H|].
    by apply Join_nil_inv in Hn.
Qed.

Lemma Join_two a b :
  a ≠ [] → Join [a; b] = Clean (a ++ Separator :: b).
Proof.
  intros Ha. simpl. apply streq_false in Ha. by rewrite Ha.
Qed.

Lemma resolve_abs link target :
  IsAbs link = true → IsAbs target = true →
  ∃ rel, resolveTargetRelativeToLink link target = inr rel
         ∧ Join [Dir (Clean link); rel] = Clean target.
Proof.
  intros Hl Ht. unfold resolveTargetRelativeToLink. rewrite Hl, Ht. simpl negb. cbv iota zeta.
  rewrite (Clean_abs link), (Clean_abs target) by done.
  pose proof (names_of_is_name link) as Hnl.
  pose proof (names_of_is_name target) as Hnt.
  rewrite Dir_render by done.
  assert (Forall is_name (removelast (names_of link))) as Hd.
  { destruct (names_of link) as [|x l _] using rev_ind; [done|].
    rewrite removelast_last. by apply Forall_app in Hnl as [? _]. }
  destruct (Rel_render _ _ Hd Hnt) as (rel & -> & Hc).
  exists rel. split; [done|]. by rewrite Join_two.
Qed.

Lemma Clean_idem_abs path : IsAbs path = true → Clean (Clean path) = Clean path.
Proof.
  intros H. rewrite (Clean_abs path) by done. apply Clean_render, names_of_is_name.
Qed.

Lemma resolve_not_abs link target :
  IsAbs link = false →
  resolveTargetRelativeToLink link target = inl (LinkNotAbsolute link target).
Proof. intros H. unfold resolveTargetRelativeToLink. by rewrite H. Qed.

(** ** The path resolver *)

(** C6. A link that is not absolute is refused with the error of the
    first check, whatever the target is, absolute or relative: no path is
    returned. *)
Theorem resolve_link_not_absolute (link target : gostring) :
  IsAbs link = false →
  resolveTargetRelativeToLink link target = inl (LinkNotAbsolute link target).
Proof. apply resolve_not_abs. Qed.

Lemma resolve_link_not_absolute_witness :
  IsAbs (str "rel/path") = false
  ∧ resolveTargetRelativeToLink (str "rel/path") (str "/a/c/lib.so")
    = inl (LinkNotAbsolute (str "rel/path") (str "/a/c/lib.so"))
  ∧ resolveTargetRelativeToLink (str "rel/path") (str "lib.so")
    = inl (LinkNotAbsolute (str "rel/path") (str "lib.so")).
Proof.
  split; [reflexivity|].
  split; apply (resolve_link_not_absolute (str "rel/path")); reflexivity.
Defined.

(** C5, as stated, fails: with a relative target and a link that is not
    absolute the resolver returns the error of the link check, not the
    target. *)
Lemma resolve_relative_target_counterexample :
  IsAbs (str "lib.so") = false
  ∧ resolveTargetRelativeToLink (str "rel/path") (str "lib.so")
    ≠ inr (str "lib.so").
Proof. split; [reflexivity|]. vm_compute. discriminate. Qed.

(** C5, amended. For every target that is not absolute and every
    absolute link, the resolver returns the target unchanged. *)
Theorem resolve_relative_target (link target : gostring) :
  IsAbs link = true → IsAbs target = false →
  resolveTargetRelativeToLink link target = inr target.
Proof.
  intros Hl Ht. unfold resolveTargetRelativeToLink. by rewrite Hl, Ht.
Qed.

Lemma resolve_relative_target_witness :
  resolveTargetRelativeToLink (str "/a/b/link") (str "lib.so") = inr (str "lib.so").
Proof.
  apply (resolve_relative_target (str "/a/b/link") (str "lib.so")); reflexivity.
Defined.

(** C4. For an absolute link and an absolute target the resolver
    succeeds, and the directory of the cleaned link joined with the path
    it returns is the cleaned target ([Join] cleans its result, and
    cleaning it once more changes nothing); for [/a/b/link] and
    [/a/c/lib.so] the path returned is [../c/lib.so]. *)
Theorem resolve_absolute_roundtrip (link target : gostring) :
  IsAbs link = true → IsAbs target = true →
  (∃ rel,
     resolveTargetRelativeToLink link target = inr rel
     ∧ Join [Dir (Clean link); rel] = Clean target
     ∧ Clean (Join [Dir (Clean link); rel]) = Clean target)
  ∧ resolveTargetRelativeToLink (str "/a/b/link") (str "/a/c/lib.so")
    = inr (str "../c/lib.so").
Proof.
  intros Hl Ht. split; [|by vm_compute].
  destruct (resolve_abs link target Hl Ht) as (rel & Hr & Hj).
  exists rel. split; [done|]. split; [done|].
  rewrite Hj. by apply Clean_idem_abs.
Qed.

Lemma resolve_absolute_roundtrip_witness :
  ∃ rel,
    resolveTargetRelativeToLink (str "/usr/lib/x/libfoo.so") (str "/usr/lib/libfoo.so")
    = inr rel
    ∧ Join [Dir (Clean (str "/usr/lib/x/libfoo.so")); rel]
      = Clean (str "/usr/lib/libfoo.so").
Proof.
  destruct (resolve_absolute_roundtrip (str "/usr/lib/x/libfoo.so")
              (str "/usr/lib/libfoo.so") eq_refl eq_refl) as [(rel & H1 & H2 & _) _].
  exists rel. split; [exact H1|exact H2].
Defined.

(** ** Decoding the hooks file *)

Section decode.
Import jsondec jsonspec.

Example decode_ex :
  Unmarshal
    (JObject [(str "container_rootfs", JString (str "/r"));
              (str "LD_Cache_Updates", JArray [JString (str "/usr/lib/x")]);
              (str "comment", JNumber (str "1"));
              (str "symlinks",
               JArray [JObject [(str "target", JString (str "/usr/lib/libfoo.so"));
                                (str "link", JString (str "/usr/lib/x/libfoo.so"))]])])
  = inr scenario_hooks.
Proof. vm_compute. reflexivity. Qed.

Example decode_wrong_type_ex :
  Unmarshal (JObject [(str "symlinks", JNumber (str "5"))])
  = inl {| Value := "number"; Type_ := "[]cdi.SymlinkEntry" |}.
Proof. vm_compute. reflexivity. Qed.

Lemma saveError_None a b : saveError a b = None ↔ a = None ∧ b = None.
Proof. destruct a, b; simpl; intuition congruence. Qed.

Lemma decodeString_ok cur j :
  (decodeString cur j).2 = None ↔ isStringOrNull j = true.
Proof. by destruct j. Qed.

Lemma decodeElems_ok {T} (dec : T → json → T * option UnmarshalTypeError)
    (ok : json → bool) zero cur elems :
  (∀ c e, (dec c e).2 = None ↔ ok e = true) →
  (decodeElems dec zero cur elems).2 = None ↔ forallb ok elems = true.
Proof.
  intros Hdec. revert cur. induction elems as [|e elems IH]; intros cur; simpl; [done|].
  specialize (Hdec (hd zero cur) e). specialize (IH (tl cur)).
  destruct (dec (hd zero cur) e) as [x e1].
  destruct (decodeElems dec zero (tl cur) elems) as [xs e2]. simpl in *.
  rewrite saveError_None, andb_true_iff. tauto.
Qed.

Lemma decodeSlice_ok {T} gotype (dec : T → json → T * option UnmarshalTypeError)
    (ok : json → bool) zero cur j :
  (∀ c e, (dec c e).2 = None ↔ ok e = true) →
  (decodeSlice gotype dec zero cur j).2 = None ↔
  match j with JNull => true | JArray elems => forallb ok elems | _ => false end = true.
Proof.
  intros Hdec. destruct j; try done. by apply decodeElems_ok.
Qed.

Lemma decodeMembers_ok {S F} (fields : list (string * F))
    (dec : F → S → json → S * option UnmarshalTypeError)
    (ok : F → json → bool) cur members :
  (∀ f c v, (dec f c v).2 = None ↔ ok f v = true) →
  (decodeMembers fields dec cur members).2 = None ↔
  forallb (λ m, match fieldByName fields m.1 with
                | Some f => ok f m.2
                | None => true
                end) members = true.
Proof.
  intros Hdec. revert cur. induction members as [|[k v] members IH]; intros cur; simpl; [done|].
  destruct (fieldByName fields k) as [f|]; [|by rewrite IH].
  specialize (Hdec f cur v). destruct (dec f cur v) as [c1 e1].
  specialize (IH c1). destruct (decodeMembers fields dec c1 members) as [c2 e2].
  simpl in *. rewrite saveError_None, andb_true_iff. tauto.
Qed.

Lemma decodeSymlinkEntry_ok cur j :
  (decodeSymlinkEntry cur j).2 = None ↔ isEntry j = true.
Proof.
  destruct j; try done.
  apply (decodeMembers_ok _ _ (λ _ v, isStringOrNull v)).
  intros f c v. pose proof (decodeString_ok (Target c) v).
  pose proof (decodeString_ok (Link c) v).
  destruct f; simpl; [destruct (decodeString (Target c) v)|destruct (decodeString (Link c) v)]; done.
Qed.

Lemma decodeHooksField_ok f cur j :
  (decodeHooksField f cur j).2 = None ↔ isHooksField f j = true.
Proof.
  destruct f; simpl.
  - pose proof (decodeString_ok (ContainerRootFS cur) j).
    by destruct (decodeString (ContainerRootFS cur) j).
  - pose proof (decodeSlice_ok "[]string" decodeString isStringOrNull []
                  (LDCacheUpdates cur) j decodeString_ok).
    by destruct (decodeSlice "[]string" decodeString [] (LDCacheUpdates cur) j).
  - pose proof (decodeSlice_ok "[]cdi.SymlinkEntry" decodeSymlinkEntry isEntry
                  zeroSymlinkEntry (Symlinks cur) j decodeSymlinkEntry_ok).
    by destruct (decodeSlice "[]cdi.SymlinkEntry" decodeSymlinkEntry
                   zeroSymlinkEntry (Symlinks cur) j).
Qed.

Lemma decodeHooks_ok cur j : (decodeHooks cur j).2 = None ↔ isHooks j = true.
Proof.
  destruct j; try done.
  apply (decodeMembers_ok _ _ isHooksField), decodeHooksField_ok.
Qed.

Lemma decodeMembers_cons {S F} (fields : list (string * F))
    (dec : F → S → json → S * option UnmarshalTypeError) cur k v rest :
  decodeMembers fields dec cur ((k, v) :: rest) =
  match fieldByName fields k with
  | Some f =>
      let '(cur1, err1) := dec f cur v in
      let '(cur2, err2) := decodeMembers fields dec cur1 rest in
      (cur2, saveError err1 err2)
  | None => decodeMembers fields dec cur rest
  end.
Proof. reflexivity. Qed.

(** A field that no member selects keeps its value. *)
Lemma decodeMembers_lacks {X} (get : Hooks → X) f cur members :
  (∀ f' c v, f' ≠ f → get (decodeHooksField f' c v).1 = get c) →
  lacks f members →
  get (decodeMembers hooksFields decodeHooksField cur members).1 = get cur.
Proof.
  intros Hget Hl. revert cur.
  induction Hl as [|[k v] members Hk _ IH]; intros cur; [done|].
  rewrite decodeMembers_cons. change ((k, v).1) with k in Hk.
  destruct (fieldByName hooksFields k) as [f'|] eqn:E; [|apply IH].
  specialize (Hget f' cur v). destruct (decodeHooksField f' cur v) as [c1 e1].
  specialize (IH c1). destruct (decodeMembers hooksFields decodeHooksField c1 members).
  simpl in *. rewrite IH. apply Hget. congruence.
Qed.

Lemma decodeHooksField_frame_symlinks f c v :
  f ≠ FSymlinks → Symlinks (decodeHooksField f c v).1 = Symlinks c.
Proof.
  intros Hf. destruct f; [| |done]; simpl.
  - by destruct (decodeString (ContainerRootFS c) v).
  - by destruct (decodeSlice "[]string" decodeString [] (LDCacheUpdates c) v).
Qed.

Lemma decodeHooksField_frame_updates f c v :
  f ≠ FLDCacheUpdates → LDCacheUpdates (decodeHooksField f c v).1 = LDCacheUpdates c.
Proof.
  intros Hf. destruct f; [|done|]; simpl.
  - by destruct (decodeString (ContainerRootFS c) v).
  - by destruct (decodeSlice "[]cdi.SymlinkEntry" decodeSymlinkEntry
                   zeroSymlinkEntry (Symlinks c) v).
Qed.

Lemma decodeHooksField_frame_rootfs f c v :
  f ≠ FContainerRootFS → ContainerRootFS (decodeHooksField f c v).1 = ContainerRootFS c.
Proof.
  intros Hf. destruct f; [done| |]; simpl.
  - by destruct (decodeSlice "[]string" decodeString [] (LDCacheUpdates c) v).
  - by destruct (decodeSlice "[]cdi.SymlinkEntry" decodeSymlinkEntry
                   zeroSymlinkEntry (Symlinks c) v).
Qed.

(** C3, as stated, fails: the objects [{}] and
    [{"container_rootfs": "/r"}] lack the fields [symlinks] and
    [ld_cache_updates] and are decoded without an error, into plans whose
    lists are empty. *)
Lemma unmarshal_missing_fields_counterexample :
  Unmarshal (JObject []) = inr zeroHooks
  ∧ Unmarshal (JObject [(str "container_rootfs", JString (str "/r"))])
    = inr {| ContainerRootFS := str "/r"; LDCacheUpdates := []; Symlinks := [] |}.
Proof. split; vm_compute; reflexivity. Qed.

(** C3, amended. Loading fails with a decode error exactly when a value
    has the wrong JSON type: the document is neither an object nor
    [null], or a member that selects a field holds a value of another
    shape than the field's. A missing field is no error: the plan is
    returned with that field at its zero value, the empty string or the
    empty list. *)
Theorem unmarshal_hooks (j : json) :
  ((∃ hooks, Unmarshal j = inr hooks) ↔ isHooks j = true)
  ∧ (∀ members hooks,
       j = JObject members → Unmarshal j = inr hooks →
       (lacks FSymlinks members → Symlinks hooks = [])
       ∧ (lacks FLDCacheUpdates members → LDCacheUpdates hooks = [])
       ∧ (lacks FContainerRootFS members → ContainerRootFS hooks = [])).
Proof.
  split.
  - pose proof (decodeHooks_ok zeroHooks j) as H. unfold Unmarshal.
    destruct (decodeHooks zeroHooks j) as [h [e|]]; simpl in H.
    + split; [by intros [? ?]|]. intros Hj. apply H in Hj. done.
    + split; [intros _; by apply H|eauto].
  - intros members hooks -> Hu. unfold Unmarshal in Hu.
    change (decodeHooks zeroHooks (JObject members))
      with (decodeMembers hooksFields decodeHooksField zeroHooks members) in Hu.
    pose proof (decodeMembers_lacks Symlinks FSymlinks zeroHooks members
                  decodeHooksField_frame_symlinks) as H1.
    pose proof (decodeMembers_lacks LDCacheUpdates FLDCacheUpdates zeroHooks members
                  decodeHooksField_frame_updates) as H2.
    pose proof (decodeMembers_lacks ContainerRootFS FContainerRootFS zeroHooks members
                  decodeHooksField_frame_rootfs) as H3.
    destruct (decodeMembers hooksFields decodeHooksField zeroHooks members) as [h [e|]];
      [done|]. injection Hu as <-. simpl in *. auto.
Qed.

End decode.

(** ** Running the hooks *)

Section running.
Context {W : Type} (h : handler W).

Lemma run_Do {A} (c : call) (k : resp c → prog A) w :
  run h (Do c k) w =
  let '(r, w1) := h c w in
  let '(a, w2, t) := run h (k r) w1 in (a, w2, c :: t).
Proof. reflexivity. Qed.

Lemma run_bind {A B} (p : prog A) (f : A → prog B) w :
  run h (bind p f) w =
  let '(a, w1, t1) := run h p w in
  let '(b, w2, t2) := run h (f a) w1 in (b, w2, t1 ++ t2).
Proof.
  revert w. induction p as [a|c k IH]; intros w; simpl.
  - by destruct (run h (f a) w) as [[b w2] t2].
  - destruct (h c w) as [r w1]. rewrite IH.
    destruct (run h (k r) w1) as [[a w2] t1].
    by destruct (run h (f a) w2) as [[b w3] t2].
Qed.

Lemma symlinkCall_mono root e entries c :
  symlinkCall root entries c → symlinkCall root (e :: entries) c.
Proof. intros (x & Hx & Hc). exists x. split; [by right|done]. Qed.

(** The symlink loop issues nothing but the two calls of each entry. *)
Lemma applySymlinks_calls root entries w :
  Forall (symlinkCall root entries) (run h (applySymlinks root entries) w).2.
Proof.
  revert w. induction entries as [|e entries IH]; intros w; simpl; [constructor|].
  destruct (resolveTargetRelativeToLink (Link e) (Target e)) as [err|target];
    [constructor|].
  rewrite run_Do. destruct (h (MkdirAll _ _) w) as [[err|] w1]; simpl.
  { repeat constructor. exists e. split; [by left|by left]. }
  destruct (h (Symlink _ _) w1) as [[err|] w2] eqn:Hs; simpl.
  - destruct (isErrExist err); simpl.
    + specialize (IH w2). destruct (run h (applySymlinks root entries) w2) as [[r w3] t].
      simpl in *. constructor; [exists e; split; [by left|by left]|].
      constructor; [exists e; split; [by left|right; eauto]|].
      eapply Forall_impl; [done|]. apply symlinkCall_mono.
    + constructor; [exists e; split; [by left|by left]|].
      constructor; [exists e; split; [by left|right; eauto]|]. constructor.
  - specialize (IH w2). destruct (run h (applySymlinks root entries) w2) as [[r w3] t].
    simpl in *. constructor; [exists e; split; [by left|by left]|].
    constructor; [exists e; split; [by left|right; eauto]|].
    eapply Forall_impl; [done|]. apply symlinkCall_mono.
Qed.

Lemma symlinkCall_not_linker root entries c :
  symlinkCall root entries c → linkerCacheCall c = false.
Proof. by intros (e & _ & [->|[t ->]]). Qed.

(** The loop stops at an entry whose link is not absolute: what it does is
    what it does on the entries before that one, and it fails. *)
Lemma applySymlinks_bad_link root pre bad post w :
  IsAbs (Link bad) = false →
  ∃ e, run h (applySymlinks root (pre ++ bad :: post)) w
       = (Some e, (run h (applySymlinks root pre) w).1.2,
          (run h (applySymlinks root pre) w).2).
Proof.
  intros Hbad. revert w. induction pre as [|x pre IH]; intros w; simpl.
  { rewrite resolve_not_abs by done. eauto. }
  destruct (resolveTargetRelativeToLink (Link x) (Target x)) as [err|target]; [eauto|].
  rewrite !run_Do. destruct (h (MkdirAll _ _) w) as [[err|] w1]; simpl; [eauto|].
  destruct (h (Symlink _ _) w1) as [[err|] w2]; simpl.
  - destruct (isErrExist err); simpl; [|eauto].
    destruct (IH w2) as [e ->].
    destruct (run h (applySymlinks root pre) w2) as [[r w3] t]. simpl. eauto.
  - destruct (IH w2) as [e ->].
    destruct (run h (applySymlinks root pre) w2) as [[r w3] t]. simpl. eauto.
Qed.

(** From the call to the plan: when the file opens and holds a plan, the
    function is [applyHooks] on that plan between the reading of the file
    and its closing. *)
Lemma run_ApplyHooksToContainer path root w w1 w2 j hooks :
  h (Open path) w = (None, w1) →
  h (ScanValue path) w1 = (inr j, w2) →
  jsondec.Unmarshal j = inr hooks →
  run h (ApplyHooksToContainer path root) w =
  let '(r, w3, t) := run h (applyHooks hooks root) w2 in
  (r, (h (Close path) w3).2, Open path :: ScanValue path :: t ++ [Close path]).
Proof.
  intros Ho Hs Hu. unfold ApplyHooksToContainer. rewrite run_Do, Ho.
  rewrite run_bind, run_Do, Hs, Hu.
  destruct (run h (applyHooks hooks root) w2) as [[r w3] t].
  rewrite run_Do. destruct (h (Close path) w3) as [u w4]. reflexivity.
Qed.

Lemma run_applyHooks_no_updates hooks root w :
  LDCacheUpdates hooks = [] →
  run h (applyHooks hooks root) w = run h (applySymlinks root (Symlinks hooks)) w.
Proof.
  intros Hu. unfold applyHooks. rewrite run_bind, Hu.
  destruct (run h (applySymlinks root (Symlinks hooks)) w) as [[[e|] w1] t];
    simpl; by rewrite app_nil_r.
Qed.

(** C10. A plan with no symlinks and no linker directories, such as the
    one the object [{}] decodes to, makes the function return success
    after three calls, all on the hooks file: it is opened, read and
    closed. Nothing is created, written, removed or run. *)
Theorem apply_empty_plan path root w w1 w2 j hooks :
  h (Open path) w = (None, w1) →
  h (ScanValue path) w1 = (inr j, w2) →
  jsondec.Unmarshal j = inr hooks →
  Symlinks hooks = [] → LDCacheUpdates hooks = [] →
  run h (ApplyHooksToContainer path root) w
  = (None, (h (Close path) w2).2, [Open path; ScanValue path; Close path])
  ∧ Forall (λ c, mutatingCall c = false)
      (run h (ApplyHooksToContainer path root) w).2
  ∧ jsondec.Unmarshal (JObject []) = inr zeroHooks.
Proof.
  intros Ho Hs Hu Hsym Hupd.
  assert (run h (ApplyHooksToContainer path root) w
          = (None, (h (Close path) w2).2, [Open path; ScanValue path; Close path])) as E.
  { rewrite (run_ApplyHooksToContainer path root w w1 w2 j hooks) by done.
    rewrite run_applyHooks_no_updates by done. by rewrite Hsym. }
  split; [done|]. split; [|reflexivity]. rewrite E. by repeat constructor.
Qed.

(** C7. With an empty list of linker directories the function issues,
    between the reading of the hooks file and its closing, nothing but the
    calls of the symlink loop: no call looks at, opens, reads, writes or
    removes a file and no command is run, so the configuration file is
    neither created nor modified, the cache is not removed and the cache
    is not regenerated. *)
Theorem apply_no_updates path root w w1 w2 j hooks :
  h (Open path) w = (None, w1) →
  h (ScanValue path) w1 = (inr j, w2) →
  jsondec.Unmarshal j = inr hooks →
  LDCacheUpdates hooks = [] →
  ∃ t, (run h (ApplyHooksToContainer path root) w).2
       = Open path :: ScanValue path :: t ++ [Close path]
       ∧ Forall (symlinkCall root (Symlinks hooks)) t
       ∧ Forall (λ c, linkerCacheCall c = false)
           (run h (ApplyHooksToContainer path root) w).2.
Proof.
  intros Ho Hs Hu Hupd.
  rewrite (run_ApplyHooksToContainer path root w w1 w2 j hooks) by done.
  rewrite run_applyHooks_no_updates by done.
  pose proof (applySymlinks_calls root (Symlinks hooks) w2) as Hc.
  destruct (run h (applySymlinks root (Symlinks hooks)) w2) as [[r w3] t].
  simpl in *. exists t. split; [done|]. split; [done|].
  repeat (constructor; [done|]). apply Forall_app. split; [|by repeat constructor].
  eapply Forall_impl; [done|]. intros c. apply symlinkCall_not_linker.
Qed.

(** C1, amended. A plan with an entry whose link is not absolute makes
    the function fail, and it issues no call for that entry or a later
    one, nor any call of the linker-configuration merge or of the cache
    regeneration. The entries before it have been worked on by then: what
    the function did is what the symlink loop does on those entries. *)
Theorem apply_bad_link path root w w1 w2 j hooks pre bad post :
  h (Open path) w = (None, w1) →
  h (ScanValue path) w1 = (inr j, w2) →
  jsondec.Unmarshal j = inr hooks →
  Symlinks hooks = pre ++ bad :: post →
  IsAbs (Link bad) = false →
  ∃ e t w3,
    run h (ApplyHooksToContainer path root) w
    = (Some e, (h (Close path) w3).2, Open path :: ScanValue path :: t ++ [Close path])
    ∧ (run h (applySymlinks root pre) w2).1.2 = w3
    ∧ (run h (applySymlinks root pre) w2).2 = t
    ∧ Forall (symlinkCall root pre) t
    ∧ Forall (λ c, linkerCacheCall c = false) t.
Proof.
  intros Ho Hs Hu Hsym Hbad.
  rewrite (run_ApplyHooksToContainer path root w w1 w2 j hooks) by done.
  unfold applyHooks. rewrite run_bind, Hsym.
  destruct (applySymlinks_bad_link root pre bad post w2 Hbad) as [e ->].
  pose proof (applySymlinks_calls root pre w2) as Hc.
  destruct (run h (applySymlinks root pre) w2) as [[r w3] t]. simpl in *.
  exists e, t, w3. rewrite app_nil_r. repeat split; try done.
  eapply Forall_impl; [done|]. intros c. apply symlinkCall_not_linker.
Qed.

End running.

Lemma apply_empty_plan_witness :
  run fs.handle (ApplyHooksToContainer (str "/run/hooks.json") (str "/r"))
    (world_with (str "/run/hooks.json") (JObject []))
  = (None, world_with (str "/run/hooks.json") (JObject []),
     [Open (str "/run/hooks.json"); ScanValue (str "/run/hooks.json");
      Close (str "/run/hooks.json")]).
Proof.
  apply (apply_empty_plan fs.handle (str "/run/hooks.json") (str "/r")
           (world_with (str "/run/hooks.json") (JObject []))
           (world_with (str "/run/hooks.json") (JObject []))
           (world_with (str "/run/hooks.json") (JObject []))
           (JObject []) zeroHooks); reflexivity.
Defined.

Lemma apply_no_updates_witness :
  ∃ t, (run fs.handle (ApplyHooksToContainer (str "/run/hooks.json") (str "/r"))
          (world_with (str "/run/hooks.json") partly_valid_doc)).2
       = Open (str "/run/hooks.json") :: ScanValue (str "/run/hooks.json")
           :: t ++ [Close (str "/run/hooks.json")]
       ∧ Forall (λ c, linkerCacheCall c = false) t.
Proof.
  destruct (apply_no_updates fs.handle (str "/run/hooks.json") (str "/r")
              (world_with (str "/run/hooks.json") partly_valid_doc)
              (world_with (str "/run/hooks.json") partly_valid_doc)
              (world_with (str "/run/hooks.json") partly_valid_doc)
              partly_valid_doc
              {| ContainerRootFS := []; LDCacheUpdates := [];
                 Symlinks := [{| Target := str "/usr/lib/libfoo.so";
                                 Link := str "/usr/lib/x/libfoo.so" |};
                              {| Target := str "libbar.so";
                                 Link := str "usr/lib/x/libbar.so" |}] |}
              eq_refl eq_refl eq_refl eq_refl) as (t & Ht & Hc & Hl).
  exists t. split; [exact Ht|].
  eapply Forall_impl; [exact Hc|]. intros c. apply symlinkCall_not_linker.
Defined.

(** C1, as stated, fails: the plan below has a valid entry followed by
    one whose link is not absolute. The function fails on the second entry,
    after it has created, for the first one, the directories down to
    [/r/usr/lib/x] and the symlink in it, in a tree that held nothing. *)
Lemma apply_bad_link_counterexample :
  let '(err, w, _) :=
    run fs.handle (ApplyHooksToContainer (str "/run/hooks.json") (str "/r"))
      (world_with (str "/run/hooks.json") partly_valid_doc) in
  err = Some (FailedResolvingSymlink
                (LinkNotAbsolute (str "usr/lib/x/libbar.so") (str "libbar.so")))
  ∧ fs.nodes (world_with (str "/run/hooks.json") partly_valid_doc) = ∅
  ∧ fs.nodes w !! str "/r/usr/lib/x" = Some fs.Dir_
  ∧ fs.symlinks w !! str "/r/usr/lib/x/libfoo.so" = Some (str "../libfoo.so").
Proof. vm_compute. done. Qed.

Lemma apply_bad_link_witness :
  ∃ e, (run fs.handle (ApplyHooksToContainer (str "/run/hooks.json") (str "/r"))
          (world_with (str "/run/hooks.json") partly_valid_doc)).1.1 = Some e.
Proof.
  destruct (apply_bad_link fs.handle (str "/run/hooks.json") (str "/r")
              (world_with (str "/run/hooks.json") partly_valid_doc)
              (world_with (str "/run/hooks.json") partly_valid_doc)
              (world_with (str "/run/hooks.json") partly_valid_doc)
              partly_valid_doc
              {| ContainerRootFS := []; LDCacheUpdates := [];
                 Symlinks := [{| Target := str "/usr/lib/libfoo.so";
                                 Link := str "/usr/lib/x/libfoo.so" |};
                              {| Target := str "libbar.so";
                                 Link := str "usr/lib/x/libbar.so" |}] |}
              [{| Target := str "/usr/lib/libfoo.so";
                  Link := str "/usr/lib/x/libfoo.so" |}]
              {| Target := str "libbar.so"; Link := str "usr/lib/x/libbar.so" |}
              [] eq_refl eq_refl eq_refl eq_refl eq_refl) as (e & t & w3 & H & _).
  exists e. by rewrite H.
Defined.

(** ** The linker-configuration merge *)

Lemma index_insert (m : gmap gostring bool) k u :
  index (<[k := true]> m) u = true ↔ k = u ∨ index m u = true.
Proof.
  unfold index. destruct (decide (k = u)) as [->|Hne].
  - rewrite lookup_insert_eq. simpl. tauto.
  - rewrite lookup_insert_ne by done. intuition congruence.
Qed.

Lemma index_foldl (m : gmap gostring bool) lines u :
  index (foldl (λ m line, <[strings.TrimSpace line := true]> m) m lines) u = true
  ↔ index m u = true ∨ u ∈ map strings.TrimSpace lines.
Proof.
  revert m. induction lines as [|l lines IH]; intros m; simpl.
  - rewrite elem_of_nil. tauto.
  - rewrite IH, index_insert, elem_of_cons. intuition congruence.
Qed.

(** What [existingLinkerEntries] holds after the scan: the trimmed
    lines. *)
Lemma index_scanExisting lines u :
  index (scanExisting lines) u = true ↔ u ∈ map strings.TrimSpace lines.
Proof.
  unfold scanExisting. rewrite index_foldl. unfold index.
  rewrite lookup_empty. simpl. intuition congruence.
Qed.




Lemma set_nodes_id w : fs.set_nodes w (fs.nodes w) = w.
Proof. by destruct w. Qed.

Lemma content_File path w c :
  fs.content path w = Some c ↔ fs.nodes w !! fs.key path = Some (fs.File c).
Proof.
  unfold fs.content. destruct (fs.nodes w !! fs.key path) as [[]|]; intuition congruence.
Qed.

Lemma fprintln_File path line w c :
  fs.content path w = Some c →
  fs.fprintln path line w
  = (None, fs.set_nodes w
             (<[fs.key path := fs.File (c ++ line ++ [bufio.newline])]> (fs.nodes w))).
Proof. intros H. apply content_File in H. unfold fs.fprintln. by rewrite H. Qed.

Lemma lineBytes_cons u rest :
  lineBytes (u :: rest) = u ++ [bufio.newline] ++ lineBytes rest.
Proof. unfold lineBytes. simpl. by rewrite <- app_assoc. Qed.

(** The loop of the branch where the file exists, on the reference file
    system: the updates that are not among the entries are appended. *)
Lemma run_appendMissing path updates m seen w c :
  (∀ u, index m u = true ↔ u ∈ seen) →
  fs.content path w = Some c →
  run fs.handle (appendMissing path updates m) w
  = (None,
     fs.set_nodes w
       (<[fs.key path := fs.File (c ++ lineBytes (missing seen updates))]> (fs.nodes w)),
     map (Fprintln path) (missing seen updates)).
Proof.
  revert m seen w c. induction updates as [|u updates IH]; intros m seen w c Hm Hc.
  - simpl. rewrite app_nil_r. apply content_File in Hc.
    by rewrite insert_id, set_nodes_id.
  - simpl. destruct (index m u) eqn:Hi; simpl.
    + rewrite bool_decide_eq_true_2 by (by apply Hm). by apply IH.
    + rewrite bool_decide_eq_false_2 by (rewrite <- Hm; congruence).
      rewrite (fprintln_File _ _ _ c) by done.
      rewrite (IH _ (u :: seen) _ (c ++ u ++ [bufio.newline])).
      * simpl. rewrite insert_insert_eq, lineBytes_cons, <- !app_assoc. done.
      * intros x. rewrite index_insert, elem_of_cons, Hm. intuition congruence.
      * apply content_File. simpl. by rewrite lookup_insert_eq.
Qed.

(** The loop of the branch where the file does not exist: every update
    is written. *)
Lemma run_writeAll path updates w c :
  fs.content path w = Some c →
  run fs.handle (writeAll path updates) w
  = (None,
     fs.set_nodes w (<[fs.key path := fs.File (c ++ lineBytes updates)]> (fs.nodes w)),
     map (Fprintln path) updates).
Proof.
  revert w c. induction updates as [|u updates IH]; intros w c Hc.
  - simpl. rewrite app_nil_r. apply content_File in Hc.
    by rewrite insert_id, set_nodes_id.
  - simpl. rewrite (fprintln_File _ _ _ c) by done.
    rewrite (IH _ (c ++ u ++ [bufio.newline])).
    + simpl. rewrite insert_insert_eq, lineBytes_cons, <- !app_assoc. done.
    + apply content_File. simpl. by rewrite lookup_insert_eq.
Qed.

(** *** Lines *)








(** *** White space *)

Lemma trimLeft_fixed s : startsWithSpace s = false → strings.trimLeft s = s.
Proof.
  destruct s as [|c1 [|c2 [|c3 r]]]; simpl; [done|..].
  - rewrite orb_false_r. by intros ->.
  - rewrite orb_false_r. intros [-> ->]%orb_false_iff. done.
  - intros [-> [-> ->]%orb_false_iff]%orb_false_iff. done.
Qed.

Lemma trimLeftRev_fixed s :
  startsWithSpaceRev s = false → strings.trimLeftRev s = s.
Proof.
  destruct s as [|c1 [|c2 [|c3 r]]]; simpl; [done|..].
  - rewrite orb_false_r. by intros ->.
  - rewrite orb_false_r. intros [-> ->]%orb_false_iff. done.
  - intros [-> [-> ->]%orb_false_iff]%orb_false_iff. done.
Qed.

Lemma trimLeft_trimmed_n n s :
  length s ≤ n → startsWithSpace (strings.trimLeft s) = false.
Proof.
  revert s. induction n as [|n IH]; intros s Hn.
  { destruct s; [done|simpl in Hn; lia]. }
  destruct s as [|c1 r1]; [done|]. simpl in Hn. simpl strings.trimLeft.
  destruct (strings.isSpace1 c1) eqn:E1; [apply IH; lia|].
  destruct r1 as [|c2 r2]; [simpl; by rewrite E1|]. simpl in Hn.
  destruct (strings.isSpace2 c1 c2) eqn:E2; [apply IH; lia|].
  destruct r2 as [|c3 r3]; [simpl; by rewrite E1, E2|]. simpl in Hn.
  destruct (strings.isSpace3 c1 c2 c3) eqn:E3; [apply IH; lia|].
  simpl. by rewrite E1, E2, E3.
Qed.

Lemma trimLeftRev_trimmed_n n s :
  length s ≤ n → startsWithSpaceRev (strings.trimLeftRev s) = false.
Proof.
  revert s. induction n as [|n IH]; intros s Hn.
  { destruct s; [done|simpl in Hn; lia]. }
  destruct s as [|c1 r1]; [done|]. simpl in Hn. simpl strings.trimLeftRev.
  destruct (strings.isSpace1 c1) eqn:E1; [apply IH; lia|].
  destruct r1 as [|c2 r2]; [simpl; by rewrite E1|]. simpl in Hn.
  destruct (strings.isSpace2 c2 c1) eqn:E2; [apply IH; lia|].
  destruct r2 as [|c3 r3]; [simpl; by rewrite E1, E2|]. simpl in Hn.
  destruct (strings.isSpace3 c3 c2 c1) eqn:E3; [apply IH; lia|].
  simpl. by rewrite E1, E2, E3.
Qed.

Lemma trimLeftRev_suffix_n n s :
  length s ≤ n → ∃ p, s = p ++ strings.trimLeftRev s.
Proof.
  revert s. induction n as [|n IH]; intros s Hn.
  { destruct s; [by exists []|simpl in Hn; lia]. }
  destruct s as [|c1 r1]; [by exists []|]. simpl in Hn. simpl strings.trimLeftRev.
  destruct (strings.isSpace1 c1).
  { destruct (IH r1) as [p Hp]; [lia|]. exists (c1 :: p). simpl. by rewrite <- Hp. }
  destruct r1 as [|c2 r2]; [by exists []|]. simpl in Hn.
  destruct (strings.isSpace2 c2 c1).
  { destruct (IH r2) as [p Hp]; [lia|]. exists (c1 :: c2 :: p). simpl. by rewrite <- Hp. }
  destruct r2 as [|c3 r3]; [by exists []|]. simpl in Hn.
  destruct (strings.isSpace3 c3 c2 c1); [|by exists []].
  destruct (IH r3) as [p Hp]; [lia|]. exists (c1 :: c2 :: c3 :: p). simpl. by rewrite <- Hp.
Qed.

Lemma startsWithSpace_prefix a b :
  startsWithSpace (a ++ b) = false → startsWithSpace a = false.
Proof.
  destruct a as [|c1 [|c2 [|c3 r]]]; simpl; [done|..].
  - intros [-> _]%orb_false_iff. done.
  - intros [-> H]%orb_false_iff. destruct b; simpl in *.
    + by rewrite orb_false_r in H |- *.
    + apply orb_false_iff in H as [-> _]. done.
  - done.
Qed.

(** A trimmed string neither starts nor ends with white space. *)
Lemma TrimSpace_trimmed s :
  startsWithSpace (strings.TrimSpace s) = false
  ∧ startsWithSpaceRev (rev (strings.TrimSpace s)) = false.
Proof.
  unfold strings.TrimSpace, strings.trimRight. set (y := strings.trimLeft s).
  split.
  - destruct (trimLeftRev_suffix_n (length (rev y)) (rev y) (le_n _)) as [p Hp].
    apply (startsWithSpace_prefix _ (rev p)).
    rewrite <- rev_app_distr, <- Hp, rev_involutive.
    by apply (trimLeft_trimmed_n (length s)).
  - rewrite rev_involutive. by apply (trimLeftRev_trimmed_n (length (rev y))).
Qed.

Lemma TrimSpace_fixed s :
  startsWithSpace s = false → startsWithSpaceRev (rev s) = false →
  strings.TrimSpace s = s.
Proof.
  intros H1 H2. unfold strings.TrimSpace, strings.trimRight.
  rewrite trimLeft_fixed by done. rewrite trimLeftRev_fixed by done.
  apply rev_involutive.
Qed.

Lemma TrimSpace_idemp s :
  strings.TrimSpace (strings.TrimSpace s) = strings.TrimSpace s.
Proof. destruct (TrimSpace_trimmed s). by apply TrimSpace_fixed. Qed.


Example merge_existing_ex :
  let conf := str "/r/etc/ld.so.conf.d/00-lxdcdi.conf" in
  let old := lineBytes [str "/opt/a/lib"; str "/opt/b/lib"] in
  let '(err, w, _) :=
    run fs.handle
      (updateLinkerCache (str "/r") [str "/opt/b/lib"; str "/opt/c/lib"; str "/opt/c/lib"])
      (world_file conf old) in
  err = None
  ∧ bufio.ScanLines <$> fs.content conf w
    = Some [str "/opt/a/lib"; str "/opt/b/lib"; str "/opt/c/lib"].
Proof. vm_compute. done. Qed.

(** C9, as stated, fails for white space around the existing line: the
    line [" /opt/a/lib "] is entered as ["/opt/a/lib"], so the update
    ["/opt/a/lib"], which differs from the line only by that white space,
    is found and is not appended. *)
Lemma trimmed_line_counterexample :
  let line := str " /opt/a/lib " in
  let update := str "/opt/a/lib" in
  line ≠ update
  ∧ strings.TrimSpace line = strings.TrimSpace update
  ∧ index (scanExisting [line]) update = true
  ∧ appendMissing (str "/r/etc/ld.so.conf.d/00-lxdcdi.conf") [update]
      (scanExisting [line]) = Ret None.
Proof. split; [done|]. vm_compute. done. Qed.

(** C9, amended. The lines of the file are trimmed before they enter
    the set and an update is looked up as it is: it is found exactly when
    it equals the trimmed form of a line. So an update that carries white
    space around it is never found among the lines and is written, and an
    update that carries none is found, and passed over, when a line
    differs from it by surrounding white space only. *)
Theorem existing_lines_trimmed (path : gostring) (lines : list gostring)
    (update : gostring) (rest : list gostring) :
  (index (scanExisting lines) update = true
   ↔ ∃ line, line ∈ lines ∧ strings.TrimSpace line = update)
  ∧ (strings.TrimSpace update ≠ update →
     index (scanExisting lines) update = false
     ∧ appendMissing path (update :: rest) (scanExisting lines)
       = Do (Fprintln path update)
           (λ err, match err with
                   | Some e =>
                       Do (Close path) (λ _, Ret (Some (FailedWritingLdConf path e)))
                   | None =>
                       appendMissing path rest (<[update := true]> (scanExisting lines))
                   end))
  ∧ (strings.TrimSpace update = update →
     ∀ line, line ∈ lines → strings.TrimSpace line = strings.TrimSpace update →
     index (scanExisting lines) update = true
     ∧ appendMissing path (update :: rest) (scanExisting lines)
       = appendMissing path rest (scanExisting lines)).
Proof.
  assert (index (scanExisting lines) update = true
          ↔ ∃ line, line ∈ lines ∧ strings.TrimSpace line = update) as Hidx.
  { rewrite index_scanExisting, list_elem_of_In, in_map_iff. split.
    - intros (l & <- & Hl%list_elem_of_In). eauto.
    - intros (l & Hl%list_elem_of_In & <-). eauto. }
  split; [done|]. split.
  - intros Hne. assert (index (scanExisting lines) update = false) as Hf.
    { apply not_true_is_false. intros E.
      apply Hidx in E as (l & _ & <-). by rewrite TrimSpace_idemp in Hne. }
    split; [done|]. simpl. by rewrite Hf.
  - intros Hfix line Hl Heq.
    assert (index (scanExisting lines) update = true) as Ht.
    { apply Hidx. exists line. split; [done|]. congruence. }
    split; [done|]. simpl. by rewrite Ht.
Qed.

(** ** Applying the symlinks again *)

Lemma foldr_insert_dir_lookup (ch : list gostring) (m : gmap gostring fs.node) (k : gostring) :
  foldr (λ k m, <[k := fs.Dir_]> m) m ch !! k
  = if bool_decide (k ∈ ch) then Some fs.Dir_ else m !! k.
Proof.
  induction ch as [|x ch IH]; simpl; [done|].
  destruct (decide (x = k)) as [->|Hne].
  - rewrite lookup_insert_eq. rewrite bool_decide_eq_true_2; [done|by left].
  - rewrite lookup_insert_ne by done. rewrite IH.
    destruct (bool_decide (k ∈ ch)) eqn:E.
    + apply bool_decide_eq_true in E. rewrite bool_decide_eq_true_2; [done|by right].
    + apply bool_decide_eq_false in E. rewrite bool_decide_eq_false_2; [done|].
      rewrite elem_of_cons. intros [?|?]; congruence.
Qed.

Lemma mkdirAll_ok path w w' :
  fs.mkdirAll path w = (None, w') →
  fs.nodes w ⊆ fs.nodes w'
  ∧ ∀ k, k ∈ fs.chain (fs.key path) → fs.nodes w' !! k = Some fs.Dir_.
Proof.
  unfold fs.mkdirAll.
  destruct (forallb _ _) eqn:E; [|done]. intros [= <-]. simpl.
  rewrite forallb_forall in E. split.
  - apply map_subseteq_spec. intros k n Hk. rewrite foldr_insert_dir_lookup.
    destruct (bool_decide (k ∈ fs.chain (fs.key path))) eqn:Hin; [|done].
    apply bool_decide_eq_true in Hin. apply list_elem_of_In, E in Hin.
    rewrite Hk in Hin. by destruct n.
  - intros k Hk. rewrite foldr_insert_dir_lookup. by rewrite bool_decide_eq_true_2.
Qed.

Lemma mkdirAll_again path w :
  (∀ k, k ∈ fs.chain (fs.key path) → fs.nodes w !! k = Some fs.Dir_) →
  fs.mkdirAll path w = (None, w).
Proof.
  intros H. unfold fs.mkdirAll.
  rewrite (proj2 (forallb_forall _ _)).
  - f_equal.
    replace (foldr (λ k m, <[k := fs.Dir_]> m) (fs.nodes w) (fs.chain (fs.key path)))
      with (fs.nodes w); [apply set_nodes_id|].
    apply map_eq. intros k. rewrite foldr_insert_dir_lookup.
    destruct (bool_decide (k ∈ fs.chain (fs.key path))) eqn:E; [|done].
    apply bool_decide_eq_true in E. by rewrite H.
  - intros k Hk%list_elem_of_In. by rewrite H.
Qed.

Lemma symlink_ok oldname newname w r w' :
  fs.symlink oldname newname w = (r, w') →
  (r = None ∨ r = Some ErrExist) →
  fs.nodes w ⊆ fs.nodes w' ∧ is_Some (fs.nodes w' !! fs.key newname).
Proof.
  unfold fs.symlink. destruct (fs.nodes w !! fs.key newname) as [n|] eqn:E.
  - intros [= <- <-] _. rewrite E. eauto.
  - destruct (fs.nodes w !! filepath.Dir (fs.key newname)) as [[]|];
      intros [= <- <-] [?|?]; try done.
    simpl. rewrite lookup_insert_eq. split; [|eauto]. by apply insert_subseteq.
Qed.

Lemma symlink_again oldname newname w :
  is_Some (fs.nodes w !! fs.key newname) →
  fs.symlink oldname newname w = (Some ErrExist, w).
Proof. intros [n Hn]. unfold fs.symlink. by rewrite Hn. Qed.

Lemma settled_mono root w w' e :
  fs.nodes w ⊆ fs.nodes w' → settled root w e → settled root w' e.
Proof.
  intros Hsub (Hr & Hd & [n Hn]). split; [done|]. split.
  - intros k Hk. eapply lookup_weaken; [by apply Hd|done].
  - exists n. eapply lookup_weaken; done.
Qed.

Lemma applySymlinks_cons root e rest :
  applySymlinks root (e :: rest) =
  match resolveTargetRelativeToLink (Link e) (Target e) with
  | inl err => Ret (Some (FailedResolvingSymlink err))
  | inr target =>
      Do (MkdirAll (Dir (Join [root; Link e])) 493)
        (λ err,
           match err with
           | Some e => Ret (Some (FailedCreatingSymlinkDir e))
           | None =>
               Do (Symlink target (Join [root; Link e]))
                 (λ err,
                    match err with
                    | Some e =>
                        if negb (isErrExist e)
                        then Ret (Some (FailedCreatingSymlink e))
                        else applySymlinks root rest
                    | None => applySymlinks root rest
                    end)
           end)
  end.
Proof. reflexivity. Qed.

(** After a successful run of the loop every entry is settled, and what
    was in the tree is still there. *)
Lemma applySymlinks_settles root entries w w1 t :
  run fs.handle (applySymlinks root entries) w = (None, w1, t) →
  fs.nodes w ⊆ fs.nodes w1 ∧ Forall (settled root w1) entries.
Proof.
  revert w w1 t. induction entries as [|e entries IH]; intros w w1 t.
  { intros [= <- <-]. split; [done|constructor]. }
  rewrite applySymlinks_cons.
  destruct (resolveTargetRelativeToLink (Link e) (Target e)) as [err|target] eqn:Hr;
    [done|].
  rewrite run_Do. change (fs.handle (MkdirAll ?p ?m) w) with (fs.mkdirAll p w).
  destruct (fs.mkdirAll _ w) as [[err|] wa] eqn:Hm; [done|].
  apply mkdirAll_ok in Hm as [Hsub1 Hch].
  rewrite run_Do. change (fs.handle (Symlink ?o ?n) wa) with (fs.symlink o n wa).
  destruct (fs.symlink _ _ wa) as [r wb] eqn:Hs.
  assert (r = None ∨ r = Some ErrExist → fs.nodes wa ⊆ fs.nodes wb
          ∧ is_Some (fs.nodes wb !! fs.key (filepath.Join [root; Link e]))) as Hsym
    by exact (symlink_ok _ _ _ _ _ Hs).
  assert (∀ w2 t2, run fs.handle (applySymlinks root entries) wb = (None, w2, t2) →
            (r = None ∨ r = Some ErrExist) →
            fs.nodes w ⊆ fs.nodes w2 ∧ Forall (settled root w2) (e :: entries)) as Hrest.
  { intros w2 t2 Hrun Hrok. destruct (Hsym Hrok) as [Hsub2 Hl].
    destruct (IH _ _ _ Hrun) as [Hsub3 Hall]. split; [by repeat (etrans; [done|])|].
    constructor; [|done]. apply (settled_mono root wb); [done|].
    split; [eauto|]. split; [|done].
    intros k Hk. eapply lookup_weaken; [by apply Hch|done]. }
  destruct r as [[]|]; simpl; try done.
  - destruct (run fs.handle (applySymlinks root entries) wb) as [[r2 w2] t2] eqn:Hrun.
    intros [= -> <- <-]. eapply Hrest; eauto.
  - destruct (run fs.handle (applySymlinks root entries) wb) as [[r2 w2] t2] eqn:Hrun.
    intros [= -> <- <-]. eapply Hrest; eauto.
Qed.

(** On settled entries the loop succeeds and changes nothing. *)
Lemma applySymlinks_settled root entries w :
  Forall (settled root w) entries →
  ∃ t, run fs.handle (applySymlinks root entries) w = (None, w, t).
Proof.
  induction 1 as [|e entries ([target Hr] & Hd & Hl) _ [t IH]]; [by exists []|].
  rewrite applySymlinks_cons, Hr, run_Do.
  change (fs.handle (MkdirAll ?p ?m) w) with (fs.mkdirAll p w).
  rewrite mkdirAll_again by done. rewrite run_Do.
  change (fs.handle (Symlink ?o ?n) w) with (fs.symlink o n w).
  rewrite symlink_again by done. simpl. rewrite IH. eauto.
Qed.

(** Whatever the environment, an [already exists] from the creation of a
    symlink is taken for success: the loop goes on with the entries that
    remain, after the two calls of the entry and no other. *)
Lemma applySymlinks_tolerates {W} (h : handler W) root e rest w w1 w2 target err :
  resolveTargetRelativeToLink (Link e) (Target e) = inr target →
  h (MkdirAll (Dir (Join [root; Link e])) 493) w = (None, w1) →
  h (Symlink target (Join [root; Link e])) w1 = (Some err, w2) →
  isErrExist err = true →
  run h (applySymlinks root (e :: rest)) w =
  let '(r, w3, t) := run h (applySymlinks root rest) w2 in
  (r, w3, MkdirAll (Dir (Join [root; Link e])) 493
          :: Symlink target (Join [root; Link e]) :: t).
Proof.
  intros Hr Hm Hs He. rewrite applySymlinks_cons, Hr, run_Do, Hm, run_Do, Hs, He. simpl.
  by destruct (run h (applySymlinks root rest) w2) as [[r w3] t].
Qed.

(** ** Paths under an absolute root *)

Lemma render_inj a b :
  Forall is_name a → Forall is_name b → render a = render b → a = b.
Proof.
  intros Ha Hb H. rewrite <- (names_of_render a), <- (names_of_render b) by done.
  by rewrite H.
Qed.

Lemma IsAbs_cons path : IsAbs path = true → ∃ rest, path = Separator :: rest.
Proof.
  destruct path as [|c rest]; [done|]. simpl. intros ->%IsPathSeparator_true. eauto.
Qed.

(** Cleaning what is appended to an absolute root with a separator. *)
Lemma Clean_under_root root s :
  IsAbs root = true →
  Clean (root ++ Separator :: s) = render (norm (names_of root) (elements s)).
Proof.
  intros Hr. destruct (IsAbs_cons root Hr) as [rest ->].
  rewrite Clean_abs by done. f_equal. unfold names_of. simpl drop. rewrite !drop_0.
  by rewrite elements_app_sep, norm_app.
Qed.

Lemma is_name_under_root root s :
  Forall is_name (norm (names_of root) (elements s)).
Proof. apply is_name_norm; [apply elements_nosep|apply names_of_is_name]. Qed.

Lemma Join_under_root root link :
  IsAbs root = true →
  Join [root; link] = render (norm (names_of root) (elements link)).
Proof.
  intros Hr. rewrite Join_two by (by destruct root). by apply Clean_under_root.
Qed.

Lemma Join3_under_root root a b :
  IsAbs root = true → is_name a → is_name b →
  Join [root; a; b] = render (names_of root ++ [a; b]).
Proof.
  intros Hr Ha Hb. destruct (IsAbs_cons root Hr) as [rest ->].
  change (Join [Separator :: rest; a; b])
    with (Clean ((Separator :: rest) ++ Separator :: J [a; b])).
  rewrite Clean_under_root by done. f_equal.
  rewrite norm_elements_J by (constructor; [apply Ha|constructor; [apply Hb|constructor]]).
  apply norm_names. by repeat (constructor; [done|]).
Qed.

Lemma key_render ns : Forall is_name ns → fs.key (render ns) = render ns.
Proof. apply Clean_render. Qed.

Lemma is_name_removelast ns : Forall is_name ns → Forall is_name (removelast ns).
Proof.
  intros H. destruct ns as [|x l _] using rev_ind; [done|].
  rewrite removelast_last. by apply Forall_app in H as [? _].
Qed.

Lemma removelast_take {A} (l : list A) : removelast l = take (length l - 1) l.
Proof.
  destruct l as [|x l _] using rev_ind; [done|].
  rewrite removelast_last, length_app. simpl.
  replace (length l + 1 - 1) with (length l) by lia. by rewrite take_app_length.
Qed.

Lemma length_J ns : Forall is_name ns → length ns ≤ length (render ns).
Proof.
  unfold render. induction 1 as [|e ns (_ & Hne & _) _ IH]; simpl; [lia|].
  destruct ns as [|e' ns].
  - destruct e; [done|]. simpl. lia.
  - rewrite length_app. simpl in *. destruct e; [done|]. simpl. lia.
Qed.

(** The chain of a cleaned rooted path: the path with its leading names. *)
Lemma chainN_render fuel ns k :
  Forall is_name ns → length ns ≤ fuel →
  k ∈ fs.chainN fuel (render ns) ↔ ∃ j, k = render (take j ns).
Proof.
  revert ns. induction fuel as [|fuel IH]; intros ns Hns Hf.
  - destruct ns; [|simpl in Hf; lia]. simpl. rewrite list_elem_of_singleton.
    split; [intros ->; by exists 0|]. intros [j ->]. by rewrite take_nil.
  - simpl. rewrite Dir_render by done.
    destruct (streq (render (removelast ns)) (render ns)) eqn:E.
    + apply streq_true, render_inj in E; [|by apply is_name_removelast|done].
      assert (ns = []) as ->.
      { destruct ns as [|x l _] using rev_ind; [done|].
        rewrite removelast_last in E. apply (f_equal length) in E.
        rewrite length_app in E. simpl in E. lia. }
      rewrite list_elem_of_singleton.
      split; [intros ->; by exists 0|]. intros [j ->]. by rewrite take_nil.
    + apply streq_false in E. rewrite elem_of_cons, IH;
        [|by apply is_name_removelast|].
      * split.
        -- intros [->|[j ->]]; [exists (length ns); by rewrite firstn_all|].
           rewrite removelast_take, take_take. eauto.
        -- intros [j ->]. destruct (decide (length ns ≤ j)).
           ++ left. by rewrite take_ge.
           ++ right. exists j. rewrite removelast_take, take_take.
              f_equal. f_equal. lia.
      * rewrite removelast_take, length_take. lia.
Qed.

Lemma chain_render ns k :
  Forall is_name ns →
  k ∈ fs.chain (render ns) ↔ ∃ j, k = render (take j ns).
Proof. intros H. apply chainN_render; [done|]. by apply length_J. Qed.

(** What lies in the chain of the directory of a path lies in the chain of
    the path, and is not the path. *)
Lemma chain_parent ns k :
  Forall is_name ns → ns ≠ [] →
  k ∈ fs.chain (render (removelast ns)) →
  k ∈ fs.chain (render ns) ∧ k ≠ render ns.
Proof.
  intros Hns Hne. rewrite !chain_render by (done || by apply is_name_removelast).
  intros [j ->]. rewrite removelast_take, take_take. split; [eauto|].
  intros E. apply render_inj in E; [|by apply Forall_take|done].
  apply (f_equal length) in E. rewrite length_take in E.
  destruct ns; [done|]. simpl in E. lia.
Qed.

(** ** The reference file system, call by call *)

Lemma hasEntries_true k w k' :
  is_Some (fs.nodes w !! k') → k' ≠ k → k ∈ fs.chain k' →
  fs.hasEntries k w = true.
Proof.
  intros [n Hn] Hne Hin. unfold fs.hasEntries. apply existsb_exists.
  exists k'. split.
  - apply in_map_iff. exists (k', n). split; [done|].
    apply list_elem_of_In. by apply elem_of_map_to_list.
  - apply andb_true_iff. split.
    + apply negb_true_iff. by apply streq_false.
    + by apply bool_decide_eq_true.
Qed.

(** A removal that does not fail for another reason than the absence of
    the file leaves the tree without the path; a directory that was removed
    had nothing below it. *)
Lemma remove_ok name w r w' :
  fs.remove name w = (r, w') →
  (r = None ∨ r = Some ErrNotExist) →
  w' = fs.set_nodes w (delete (fs.key name) (fs.nodes w))
  ∧ (fs.nodes w !! fs.key name = Some fs.Dir_ → fs.hasEntries (fs.key name) w = false).
Proof.
  unfold fs.remove. destruct (fs.nodes w !! fs.key name) as [[]|] eqn:E.
  - destruct (fs.hasEntries (fs.key name) w) eqn:Hh; intros [= <- <-] [?|?]; done.
  - intros [= <- <-] _. done.
  - intros [= <- <-] _. done.
  - intros [= <- <-] _. split; [|done].
    rewrite delete_id by done. by rewrite set_nodes_id.
Qed.

Lemma remove_free_or_link name w :
  fs.nodes w !! fs.key name = None ∨ (∃ t, fs.nodes w !! fs.key name = Some (fs.Link t)) →
  ∃ r, fs.remove name w = (r, fs.set_nodes w (delete (fs.key name) (fs.nodes w)))
       ∧ (r = None ∨ r = Some ErrNotExist).
Proof.
  unfold fs.remove. intros [H|[t H]]; rewrite H.
  - exists (Some ErrNotExist). split; [|by right].
    rewrite delete_id by done. by rewrite set_nodes_id.
  - exists None. split; [done|by left].
Qed.

(** An open that succeeds leaves a regular file at the path and nothing
    else changed. *)
Lemma openFile_ok name flag w w' :
  fs.openFile name flag w = (None, w') →
  fs.nodes w ⊆ fs.nodes w' ∧ ∃ c, fs.content name w' = Some c.
Proof.
  unfold fs.openFile, fs.content. destruct (fs.nodes w !! fs.key name) as [[]|] eqn:E.
  - done.
  - intros [= <-]. rewrite E. eauto.
  - done.
  - destruct (bool_decide (O_CREATE ∈ flag)); [|done].
    destruct (fs.nodes w !! Dir (fs.key name)) as [[]|]; try done.
    intros [= <-]. simpl. rewrite lookup_insert_eq. split; [|eauto].
    by apply insert_subseteq.
Qed.

Lemma openFile_File name flag w c :
  fs.content name w = Some c → fs.openFile name flag w = (None, w).
Proof. intros H%content_File. unfold fs.openFile. by rewrite H. Qed.

Lemma stat_File name w c : fs.content name w = Some c → fs.stat name w = None.
Proof. intros H%content_File. unfold fs.stat. by rewrite H. Qed.

Lemma symlinks_lookup w k :
  fs.symlinks w !! k
  = fs.nodes w !! k ≫= (λ n, match n with fs.Link t => Some t | _ => None end).
Proof. unfold fs.symlinks. apply lookup_omap. Qed.

(** Directories apart, what is in the tree after [MkdirAll] was there
    before. *)
Lemma mkdirAll_file path w w' k c :
  fs.mkdirAll path w = (None, w') →
  fs.nodes w' !! k = Some (fs.File c) → fs.nodes w !! k = Some (fs.File c).
Proof.
  unfold fs.mkdirAll. destruct (forallb _ _); [|done]. intros [= <-].
  cbn [fs.nodes fs.set_nodes]. rewrite foldr_insert_dir_lookup.
  by destruct (bool_decide _).
Qed.

(** Opening a path that is there changes nothing. *)
Lemma openFile_existing name flag w w' :
  fs.stat name w = None → fs.openFile name flag w = (None, w') → w' = w.
Proof.
  unfold fs.stat, fs.openFile.
  destruct (fs.nodes w !! fs.key name) as [[]|]; try done. by intros _ [= <-].
Qed.

(** Creating a file at a path that is free. *)
Lemma openFile_created name flag w w' e :
  fs.stat name w = Some e → fs.openFile name flag w = (None, w') →
  fs.content name w = None ∧ fs.content name w' = Some [].
Proof.
  unfold fs.stat, fs.openFile, fs.content.
  destruct (fs.nodes w !! fs.key name) as [n|]; [done|]. intros _.
  destruct (bool_decide (O_CREATE ∈ flag)); [|done].
  destruct (fs.nodes w !! Dir (fs.key name)) as [[]|]; try done.
  intros [= <-]. cbn [fs.nodes fs.set_nodes]. by rewrite lookup_insert_eq.
Qed.

(** ** The linker cache update on the reference file system *)

Lemma run_regenerateCache_inv root w w1 t :
  run fs.handle (regenerateCache root) w = (None, w1, t) →
  fs.nodes w1 = delete (fs.key (cachePath root)) (fs.nodes w)
  ∧ (fs.nodes w !! fs.key (cachePath root) = Some fs.Dir_ →
     fs.hasEntries (fs.key (cachePath root)) w = false).
Proof.
  unfold regenerateCache. fold (cachePath root). rewrite run_Do.
  change (fs.handle (Remove ?n) w) with (fs.remove n w).
  destruct (fs.remove (cachePath root) w) as [r wD] eqn:Hr.
  pose proof (remove_ok _ _ _ _ Hr) as Hok.
  destruct r as [e|].
  - destruct (isErrNotExist e) eqn:He; [|done]. destruct e; try done.
    destruct Hok as [-> Hd]; [by right|]. simpl. intros [= <- _]. done.
  - destruct Hok as [-> Hd]; [by left|]. simpl. intros [= <- _]. done.
Qed.

Lemma run_regenerateCache root w :
  fs.nodes w !! fs.key (cachePath root) = None
  ∨ (∃ t, fs.nodes w !! fs.key (cachePath root) = Some (fs.Link t)) →
  ∃ w1 t, run fs.handle (regenerateCache root) w = (None, w1, t)
          ∧ fs.nodes w1 = delete (fs.key (cachePath root)) (fs.nodes w).
Proof.
  intros H. destruct (remove_free_or_link (cachePath root) w H) as (r & Hr & Hok).
  unfold regenerateCache. fold (cachePath root). rewrite run_Do.
  change (fs.handle (Remove ?n) w) with (fs.remove n w). rewrite Hr.
  destruct Hok as [->| ->]; simpl; eauto.
Qed.

(** The update from the point where the configuration file is open. *)
Lemma run_merge_tail_inv root (p : prog (option HookError)) wB wC tp w1 t :
  run fs.handle p wB = (None, wC, tp) →
  run fs.handle
    (bind p (λ err, match err with
                    | Some e => Ret (Some e)
                    | None => Do (Close (confFile root)) (λ _, regenerateCache root)
                    end)) wB = (None, w1, t) →
  fs.nodes w1 = delete (fs.key (cachePath root)) (fs.nodes wC)
  ∧ (fs.nodes wC !! fs.key (cachePath root) = Some fs.Dir_ →
     fs.hasEntries (fs.key (cachePath root)) wC = false).
Proof.
  intros Hp. rewrite run_bind, Hp, run_Do. simpl fs.handle. cbv iota beta.
  destruct (run fs.handle (regenerateCache root) wC) as [[r w2] t2] eqn:Hr.
  intros [= -> <- _]. by apply run_regenerateCache_inv in Hr.
Qed.

(** What the update has done when it succeeds: the directory of the
    configuration file is there, the file holds what it held followed by
    the updates that were missing (or all the updates when it was not
    there), and the path of the cache is free. *)
Lemma run_updateLinkerCache_inv root updates wA w1 t :
  run fs.handle (updateLinkerCache root updates) wA = (None, w1, t) →
  ∃ wB c0 c,
    fs.nodes wA ⊆ fs.nodes wB
    ∧ chainDirs wB (confDir root)
    ∧ fs.content (confFile root) wB = Some c0
    ∧ ((fs.content (confFile root) wA = Some c0
        ∧ c = c0 ++ lineBytes (missing (map strings.TrimSpace (bufio.ScanLines c0))
                                 updates))
       ∨ (fs.content (confFile root) wA = None ∧ c = lineBytes updates))
    ∧ let wC := fs.set_nodes wB
                  (<[fs.key (confFile root) := fs.File c]> (fs.nodes wB)) in
      fs.nodes w1 = delete (fs.key (cachePath root)) (fs.nodes wC)
      ∧ (fs.nodes wC !! fs.key (cachePath root) = Some fs.Dir_ →
         fs.hasEntries (fs.key (cachePath root)) wC = false).
Proof.
  unfold updateLinkerCache. fold (confDir root) (confFile root). rewrite run_Do.
  change (fs.handle (MkdirAll ?p ?m) wA) with (fs.mkdirAll p wA).
  destruct (fs.mkdirAll (confDir root) wA) as [[e|] wB0] eqn:Hm; [done|].
  assert (∀ c, fs.nodes wB0 !! fs.key (confFile root) = Some (fs.File c) →
               fs.nodes wA !! fs.key (confFile root) = Some (fs.File c)) as Hfile
    by (intros c; apply (mkdirAll_file _ _ _ _ _ Hm)).
  apply mkdirAll_ok in Hm as [Hsub Hch]. rewrite run_Do.
  change (fs.handle (Stat ?n) wB0) with (fs.stat n wB0, wB0).
  assert (∀ flag wB tl (Q : gostring → gostring → Prop),
            fs.openFile (confFile root) flag wB0 = (None, wB) →
            (∀ c0, fs.content (confFile root) wB = Some c0 →
               ∃ c tp, run fs.handle tl wB
                 = (None, fs.set_nodes wB
                            (<[fs.key (confFile root) := fs.File c]> (fs.nodes wB)), tp)
                 ∧ Q c0 c) →
            ∀ w1 t,
            run fs.handle
              (bind tl (λ err, match err with
                    | Some e => Ret (Some e)
                    | None => Do (Close (confFile root)) (λ _, regenerateCache root)
                    end)) wB = (None, w1, t) →
            ∃ c0 c,
              fs.nodes wA ⊆ fs.nodes wB
              ∧ chainDirs wB (confDir root)
              ∧ fs.content (confFile root) wB = Some c0
              ∧ Q c0 c
              ∧ let wC := fs.set_nodes wB
                  (<[fs.key (confFile root) := fs.File c]> (fs.nodes wB)) in
                fs.nodes w1 = delete (fs.key (cachePath root)) (fs.nodes wC)
                ∧ (fs.nodes wC !! fs.key (cachePath root) = Some fs.Dir_ →
                   fs.hasEntries (fs.key (cachePath root)) wC = false)) as Hgo.
  { intros flag wB tl Q Ho Htl w1' t' Hrun.
    apply openFile_ok in Ho as [Hsub2 [c0 Hc0]].
    destruct (Htl c0 Hc0) as (c & tp & Hp & HQ).
    exists c0, c. split; [by etrans|]. split.
    { intros k Hk. eapply lookup_weaken; [by apply Hch|done]. }
    split; [done|]. split; [done|].
    by apply (run_merge_tail_inv root tl wB _ tp w1' t'). }
  destruct (fs.stat (confFile root) wB0) as [e|] eqn:Hs.
  - destruct (isErrNotExist e); [|done]. rewrite run_Do.
    change (fs.handle (OpenFile ?n ?f ?m) wB0) with (fs.openFile n f wB0).
    destruct (fs.openFile (confFile root) _ wB0) as [[e'|] wB] eqn:Ho; [done|].
    match goal with |- context [run fs.handle ?p wB] =>
      destruct (run fs.handle p wB) as [[r w2] t0] eqn:Hrun end.
    intros [= -> <- _].
    destruct (openFile_created _ _ _ _ _ Hs Ho) as [Hnone Hnew].
    destruct (Hgo _ _ (writeAll (confFile root) updates)
                (λ c0 c, c = c0 ++ lineBytes updates) Ho) with (w1 := w2) (t := t0)
      as (c0 & c & H1 & H2 & H3 & H4 & H5); [|exact Hrun|].
    { intros c0 Hc0. rewrite (run_writeAll _ _ _ c0) by done. eauto. }
    exists wB, c0, c. repeat (split; [done|]). split; [|done]. right. split.
    + unfold fs.content in *. destruct (fs.nodes wA !! _) as [n|] eqn:E; [|done].
      eapply lookup_weaken in E; [|exact Hsub]. by rewrite E in Hnone.
    + rewrite Hnew in H3. injection H3 as <-. done.
  - rewrite run_Do.
    change (fs.handle (OpenFile ?n ?f ?m) wB0) with (fs.openFile n f wB0).
    destruct (fs.openFile (confFile root) _ wB0) as [[e'|] wB] eqn:Ho; [done|].
    pose proof (openFile_existing _ _ _ _ Hs Ho) as ->.
    rewrite run_Do. change (fs.handle (ScanLines ?n) wB0) with (fs.scanLines n wB0, wB0).
    cbv iota beta.
    match goal with |- context [run fs.handle ?p wB0] =>
      destruct (run fs.handle p wB0) as [[r w2] t0] eqn:Hrun end.
    intros [= -> <- _].
    destruct (Hgo _ _ (appendMissing (confFile root) updates
                         (scanExisting (fs.scanLines (confFile root) wB0)))
                (λ c0 c, c = c0 ++ lineBytes
                                   (missing (map strings.TrimSpace (bufio.ScanLines c0))
                                      updates)) Ho) with (w1 := w2) (t := t0)
      as (c0 & c & H1 & H2 & H3 & H4 & H5); [|exact Hrun|].
    { intros c0 Hc0.
      assert (fs.scanLines (confFile root) wB0 = bufio.ScanLines c0) as ->.
      { unfold fs.scanLines. apply content_File in Hc0. by rewrite Hc0. }
      erewrite (run_appendMissing _ _ _ _ _ c0); [eauto| |done].
      apply index_scanExisting. }
    exists wB0, c0, c. repeat (split; [done|]). split; [|done]. left. split; [|done].
    apply content_File. apply Hfile. by apply content_File.
Qed.

(** ** The paths of the linker cache update under an absolute root *)

Ltac names :=
  repeat (constructor; [repeat split; try discriminate; repeat constructor|]);
  try constructor.

Lemma cachePath_render root :
  IsAbs root = true →
  cachePath root = render (names_of root ++ [str "etc"; str "ld.so.cache"]).
Proof. intros H. apply Join3_under_root; [done| |]; repeat split; try discriminate; repeat constructor. Qed.

Lemma confDir_render root :
  IsAbs root = true →
  confDir root = render (names_of root ++ [str "etc"; str "ld.so.conf.d"]).
Proof. intros H. apply Join3_under_root; [done| |]; repeat split; try discriminate; repeat constructor. Qed.

Lemma confFile_key root :
  IsAbs root = true →
  fs.key (confFile root)
  = render (names_of root ++ [str "etc"; str "ld.so.conf.d"; str "00-lxdcdi.conf"]).
Proof.
  intros H. unfold fs.key.
  change (confFile root)
    with (root ++ Separator :: J [str "etc"; str "ld.so.conf.d"; str "00-lxdcdi.conf"]).
  rewrite Clean_under_root by done. f_equal.
  rewrite norm_elements_J by (apply is_name_nosep; names).
  apply norm_names. names.
Qed.

Lemma names_under root xs :
  Forall is_name xs → Forall is_name (names_of root ++ xs).
Proof. intros H. apply Forall_app. split; [apply names_of_is_name|done]. Qed.

Lemma cachePath_key root :
  IsAbs root = true → fs.key (cachePath root) = cachePath root.
Proof.
  intros H. rewrite cachePath_render by done. apply key_render, names_under. names.
Qed.

Lemma confDir_key root :
  IsAbs root = true → fs.key (confDir root) = confDir root.
Proof.
  intros H. rewrite confDir_render by done. apply key_render, names_under. names.
Qed.

Lemma confFile_not_cache root :
  IsAbs root = true → fs.key (confFile root) ≠ fs.key (cachePath root).
Proof.
  intros H. rewrite confFile_key, cachePath_key, cachePath_render by done.
  intros E. apply render_inj in E; [|apply names_under; names..].
  apply app_inv_head in E. discriminate.
Qed.

Lemma cache_not_above_confDir root :
  IsAbs root = true →
  fs.key (cachePath root) ∉ fs.chain (fs.key (confDir root)).
Proof.
  intros H. rewrite confDir_key, cachePath_key, confDir_render, cachePath_render by done.
  rewrite chain_render by (apply names_under; names). intros [j E].
  apply render_inj in E; [|apply names_under; names|apply Forall_take, names_under; names].
  assert (length (names_of root) + 2 ≤ j) as Hj.
  { apply (f_equal length) in E. rewrite length_take, !length_app in E. simpl in E. lia. }
  rewrite take_ge in E by (rewrite length_app; simpl; lia).
  apply app_inv_head in E. discriminate.
Qed.

(** The link of an entry and its directory. *)
Lemma link_render root link :
  IsAbs root = true →
  ∃ ns, Forall is_name ns
        ∧ Join [root; link] = render ns
        ∧ fs.key (Join [root; link]) = render ns
        ∧ Dir (Join [root; link]) = render (removelast ns)
        ∧ fs.key (Dir (Join [root; link])) = render (removelast ns).
Proof.
  intros H. exists (norm (names_of root) (elements link)).
  pose proof (is_name_under_root root link) as Hn.
  rewrite Join_under_root by done. rewrite Dir_render by done.
  rewrite !key_render by (done || by apply is_name_removelast). done.
Qed.

(** ** A whole plan, applied again *)

Lemma chain_head k : k ∈ fs.chain k.
Proof.
  unfold fs.chain. destruct (length k); simpl; [by left|].
  destruct (streq (Dir k) k); by left.
Qed.

(** The update on a tree where it has been made before. *)
Lemma run_updateLinkerCache_again root updates w c :
  IsAbs root = true →
  chainDirs w (confDir root) →
  fs.content (confFile root) w = Some c →
  fs.nodes w !! fs.key (cachePath root) = None
  ∨ (∃ t, fs.nodes w !! fs.key (cachePath root) = Some (fs.Link t)) →
  ∃ w2 t c',
    run fs.handle (updateLinkerCache root updates) w = (None, w2, t)
    ∧ fs.nodes w2
      = delete (fs.key (cachePath root))
          (<[fs.key (confFile root) := fs.File c']> (fs.nodes w)).
Proof.
  intros Hr Hd Hc Hk. unfold updateLinkerCache. fold (confDir root) (confFile root).
  rewrite run_Do. change (fs.handle (MkdirAll ?p ?m) w) with (fs.mkdirAll p w).
  rewrite mkdirAll_again by done. rewrite run_Do.
  change (fs.handle (Stat ?n) w) with (fs.stat n w, w).
  rewrite (stat_File _ _ c) by done. rewrite run_Do.
  change (fs.handle (OpenFile ?n ?f ?m) w) with (fs.openFile n f w).
  rewrite (openFile_File _ _ _ c) by done. rewrite run_Do.
  change (fs.handle (ScanLines ?n) w) with (fs.scanLines n w, w). cbv iota beta.
  rewrite run_bind.
  erewrite (run_appendMissing _ _ _ _ _ c); [|apply index_scanExisting|done].
  rewrite run_Do. simpl fs.handle. cbv iota beta.
  set (wC := fs.set_nodes w _).
  destruct (run_regenerateCache root wC) as (w2 & t2 & Hrun & Hn).
  { subst wC. simpl. rewrite lookup_insert_ne by (by apply confFile_not_cache). done. }
  rewrite Hrun. eexists _, _, _. split; [reflexivity|]. exact Hn.
Qed.

(** The state a successful application of a plan with linker
    directories leaves. *)
Lemma applyHooks_leaves root hooks w w1 t :
  IsAbs root = true → LDCacheUpdates hooks ≠ [] →
  run fs.handle (applyHooks hooks root) w = (None, w1, t) →
  Forall (applied root w1) (Symlinks hooks) ∧ merged root w1.
Proof.
  intros Hr Hu. unfold applyHooks. rewrite run_bind.
  destruct (run fs.handle (applySymlinks root (Symlinks hooks)) w)
    as [[r wA] tA] eqn:Hs.
  destruct r as [e|].
  { by destruct (run fs.handle (Ret (Some e)) wA) as [[? ?] ?] eqn:E; inversion E. }
  replace (0 <? length (LDCacheUpdates hooks)) with true
    by (destruct (LDCacheUpdates hooks); done).
  destruct (run fs.handle (updateLinkerCache root (LDCacheUpdates hooks)) wA)
    as [[r2 w2] t2] eqn:Hrun.
  intros [= -> <- _].
  apply applySymlinks_settles in Hs as [_ Hset].
  apply run_updateLinkerCache_inv in Hrun as (wB & c0 & c & Hsub & Hcd & Hc0 & _ & Hn & Hempty).
  set (kc := fs.key (cachePath root)) in *.
  set (kf := fs.key (confFile root)) in *.
  assert (kf ≠ kc) as Hfc by (by apply confFile_not_cache).
  apply content_File in Hc0. fold kf in Hc0.
  assert (∀ k, fs.nodes wB !! k = Some fs.Dir_ → k ≠ kc →
               fs.nodes w2 !! k = Some fs.Dir_) as Hdir.
  { intros k Hk Hne. rewrite Hn. rewrite lookup_delete_ne by done. cbn [fs.nodes fs.set_nodes].
    rewrite lookup_insert_ne; [done|]. intros <-. congruence. }
  assert (∀ k, is_Some (fs.nodes wB !! k) → k ≠ kc →
               is_Some (fs.nodes w2 !! k)) as Hsome.
  { intros k Hk Hne. rewrite Hn. rewrite lookup_delete_ne by done. cbn [fs.nodes fs.set_nodes].
    destruct (decide (kf = k)) as [->|]; [rewrite lookup_insert_eq; eauto|].
    by rewrite lookup_insert_ne. }
  split.
  - rewrite Forall_forall in Hset |- *. intros e He.
    destruct (Hset e He) as (Hres & Hch & Hl).
    destruct (link_render root (Link e) Hr) as (ns & Hns & HJ & HkJ & HD & HkD).
    assert (kc ∉ fs.chain (fs.key (Dir (Join [root; Link e])))) as Hnot.
    { intros Hin.
      assert (fs.hasEntries kc
                (fs.set_nodes wB (<[kf := fs.File c]> (fs.nodes wB))) = true) as Ht.
      { apply (hasEntries_true _ _ (fs.key (Join [root; Link e]))).
        - cbn [fs.nodes fs.set_nodes]. destruct (decide (kf = fs.key (Join [root; Link e]))) as [<-|].
          + rewrite lookup_insert_eq. eauto.
          + rewrite lookup_insert_ne by done. destruct Hl as [x Hl].
            exists x. eapply lookup_weaken; done.
        - rewrite HkJ. rewrite HkD in Hin. destruct (decide (ns = [])) as [->|Hne].
          + cbn [removelast] in Hin. apply chain_render in Hin as [j Hj]; [|done].
            rewrite take_nil in Hj. unfold kc in Hj.
            rewrite cachePath_key, cachePath_render in Hj by done.
            apply render_inj in Hj; [|apply names_under; names|done].
            by destruct (names_of root).
          + intros E. by destruct (chain_parent ns kc Hns Hne Hin).
        - rewrite HkJ. rewrite HkD in Hin. destruct (decide (ns = [])) as [->|Hne].
          + done.
          + by destruct (chain_parent ns kc Hns Hne Hin). }
      rewrite Hempty in Ht; [done|]. cbn [fs.nodes fs.set_nodes].
      rewrite lookup_insert_ne by done.
      eapply lookup_weaken; [by apply Hch|done]. }
    split; [done|]. split; [|split; [|done]].
    + intros k Hk. apply Hdir.
      * eapply lookup_weaken; [by apply Hch|done].
      * intros ->. done.
    + destruct (decide (fs.key (Join [root; Link e]) = kc)) as [|Hne]; [by right|].
      left. apply Hsome; [|done]. destruct Hl as [x Hl]. exists x.
      eapply lookup_weaken; done.
  - split; [|split].
    + intros k Hk. apply Hdir; [by apply Hcd|].
      intros ->. by apply (cache_not_above_confDir root).
    + exists c. apply content_File. fold kf. rewrite Hn.
      rewrite lookup_delete_ne by done. cbn [fs.nodes fs.set_nodes]. by rewrite lookup_insert_eq.
    + rewrite Hn. apply lookup_delete_eq.
Qed.

(** The symlink loop on the tree a whole application has left: the only
    thing it can add is a link at the path of the cache. *)
Lemma applySymlinks_applied root entries w1 w' :
  IsAbs root = true →
  Forall (applied root w1) entries →
  fs.nodes w1 !! fs.key (cachePath root) = None →
  (w' = w1 ∨ ∃ t, w' = fs.set_nodes w1
                         (<[fs.key (cachePath root) := fs.Link t]> (fs.nodes w1))) →
  ∃ w'' t,
    run fs.handle (applySymlinks root entries) w' = (None, w'', t)
    ∧ (w'' = w1 ∨ ∃ t', w'' = fs.set_nodes w1
                           (<[fs.key (cachePath root) := fs.Link t']> (fs.nodes w1))).
Proof.
  intros Hr Hall Hfree. revert w'.
  induction Hall as [|e entries ([target Hres] & Hch & Hl & Hnot) _ IH]; intros w' Hw'.
  { exists w', []. done. }
  set (kc := fs.key (cachePath root)) in *.
  destruct (link_render root (Link e) Hr) as (ns & Hns & HJ & HkJ & HD & HkD).
  assert (chainDirs w' (Dir (Join [root; Link e]))) as Hch'.
  { intros k Hk. destruct Hw' as [->|[t ->]]; [by apply Hch|].
    cbn [fs.nodes fs.set_nodes]. rewrite lookup_insert_ne; [by apply Hch|].
    intros <-. done. }
  rewrite applySymlinks_cons, Hres, run_Do.
  change (fs.handle (MkdirAll ?p ?m) w') with (fs.mkdirAll p w').
  rewrite mkdirAll_again by done. rewrite run_Do.
  change (fs.handle (Symlink ?o ?n) w') with (fs.symlink o n w').
  destruct (fs.nodes w' !! fs.key (Join [root; Link e])) as [x|] eqn:Hx.
  - rewrite symlink_again by (rewrite Hx; eauto). cbn [isErrExist negb].
    destruct (IH w' Hw') as (w'' & t & -> & Hw''). eauto.
  - assert (w' = w1 ∧ fs.key (Join [root; Link e]) = kc) as [-> Hkc].
    { destruct Hw' as [->|[t ->]].
      - split; [done|]. destruct Hl as [[y Hy]|?]; [congruence|done].
      - cbn [fs.nodes fs.set_nodes] in Hx.
        destruct (decide (kc = fs.key (Join [root; Link e]))) as [E|E].
        + rewrite E, lookup_insert_eq in Hx. done.
        + rewrite lookup_insert_ne in Hx by done.
          destruct Hl as [[y Hy]|?]; congruence. }
    assert (fs.symlink target (Join [root; Link e]) w1
            = (None, fs.set_nodes w1 (<[kc := fs.Link target]> (fs.nodes w1)))) as ->.
    { unfold fs.symlink. cbv zeta. rewrite Hx, <- Hkc, HkJ, Dir_render by done.
      rewrite <- HkD, (Hch _ (chain_head _)). done. }
    destruct (IH (fs.set_nodes w1 (<[kc := fs.Link target]> (fs.nodes w1))))
      as (w'' & t & -> & Hw''); [eauto|]. eauto.
Qed.

(** A plan with linker directories, on the tree its application has
    left: it succeeds again and the symlinks are the same. *)
Lemma applyHooks_again root hooks w1 :
  IsAbs root = true → LDCacheUpdates hooks ≠ [] →
  Forall (applied root w1) (Symlinks hooks) → merged root w1 →
  ∃ w2 t2, run fs.handle (applyHooks hooks root) w1 = (None, w2, t2)
           ∧ fs.symlinks w2 = fs.symlinks w1.
Proof.
  intros Hr Hu Hall (Hcd & [c Hc] & Hfree).
  set (kc := fs.key (cachePath root)) in *.
  set (kf := fs.key (confFile root)) in *.
  assert (kf ≠ kc) as Hfc by (by apply confFile_not_cache).
  destruct (applySymlinks_applied root (Symlinks hooks) w1 w1 Hr Hall Hfree)
    as (w' & t & Hrun & Hw'); [by left|].
  assert (∀ k, k ≠ kc → fs.nodes w' !! k = fs.nodes w1 !! k) as Hsame.
  { intros k Hk. destruct Hw' as [->|[x ->]]; [done|].
    cbn [fs.nodes fs.set_nodes]. by rewrite lookup_insert_ne. }
  destruct (run_updateLinkerCache_again root (LDCacheUpdates hooks) w' c)
    as (w2 & t2 & c' & Hrun2 & Hn); [done| | | |].
  - intros k Hk. rewrite Hsame; [by apply Hcd|].
    intros ->. by apply (cache_not_above_confDir root).
  - apply content_File. rewrite Hsame by done. by apply content_File.
  - destruct Hw' as [->|[x ->]]; [by left|right].
    cbn [fs.nodes fs.set_nodes]. rewrite lookup_insert_eq. eauto.
  - exists w2, (t ++ t2). split.
    + unfold applyHooks. rewrite run_bind, Hrun.
      replace (0 <? length (LDCacheUpdates hooks)) with true
        by (destruct (LDCacheUpdates hooks); done).
      by rewrite Hrun2.
    + apply map_eq. intros k. rewrite !symlinks_lookup, Hn.
      apply content_File in Hc. fold kf in Hc.
      destruct (decide (k = kc)) as [->|Hk].
      * by rewrite lookup_delete_eq, Hfree.
      * rewrite lookup_delete_ne by done.
        destruct (decide (kf = k)) as [<-|Hkf].
        -- by rewrite lookup_insert_eq, Hc.
        -- rewrite lookup_insert_ne by done. by rewrite Hsame.
Qed.

(** C8. When a plan has been applied with success under an absolute
    container root, applying the same plan again succeeds and leaves the
    same symlinks. The symlink loop alone, under any root, succeeds again
    without changing the tree at all. The reason is the same in every
    environment: a link that exists makes the creation fail with [already
    exists], which the loop takes for success, with no further call on
    that link, before it goes on with the entries that remain. *)
Theorem plan_applied_twice (root : gostring) (hooks : Hooks)
    (w w1 : fs.world) (t1 : list call) :
  IsAbs root = true →
  run fs.handle (applyHooks hooks root) w = (None, w1, t1) →
  (∃ w2 t2, run fs.handle (applyHooks hooks root) w1 = (None, w2, t2)
            ∧ fs.symlinks w2 = fs.symlinks w1)
  ∧ (∀ root' entries wa wb ta,
       run fs.handle (applySymlinks root' entries) wa = (None, wb, ta) →
       ∃ tb, run fs.handle (applySymlinks root' entries) wb = (None, wb, tb)
             ∧ Forall (symlinkCall root' entries) tb)
  ∧ (∀ W (h : handler W) e rest w w1 w2 target err,
       resolveTargetRelativeToLink (Link e) (Target e) = inr target →
       h (MkdirAll (Dir (Join [root; Link e])) 493) w = (None, w1) →
       h (Symlink target (Join [root; Link e])) w1 = (Some err, w2) →
       isErrExist err = true →
       run h (applySymlinks root (e :: rest)) w =
       let '(r, w3, t) := run h (applySymlinks root rest) w2 in
       (r, w3, MkdirAll (Dir (Join [root; Link e])) 493
               :: Symlink target (Join [root; Link e]) :: t)).
Proof.
  intros Hr Hrun. split; [|split].
  - destruct (decide (LDCacheUpdates hooks = [])) as [Hu|Hu].
    + rewrite run_applyHooks_no_updates in Hrun by done.
      apply applySymlinks_settles in Hrun as [_ Hall].
      destruct (applySymlinks_settled _ _ _ Hall) as [t2 Ht2].
      exists w1, t2. split; [|done]. by rewrite run_applyHooks_no_updates.
    + destruct (applyHooks_leaves root hooks w w1 t1 Hr Hu Hrun) as [Hall Hm].
      by apply applyHooks_again.
  - intros root' entries wa wb ta Ha.
    apply applySymlinks_settles in Ha as [_ Hall].
    destruct (applySymlinks_settled _ _ _ Hall) as [tb Htb].
    exists tb. split; [done|].
    pose proof (applySymlinks_calls fs.handle root' entries wb) as Hc.
    by rewrite Htb in Hc.
  - intros W h. apply applySymlinks_tolerates.
Qed.

Lemma plan_applied_twice_witness :
  let first := run fs.handle (applyHooks scenario_hooks (str "/r")) fs.empty in
  first.1.1 = None
  ∧ ∃ w2 t2,
      run fs.handle (applyHooks scenario_hooks (str "/r")) first.1.2 = (None, w2, t2)
      ∧ fs.symlinks w2 = fs.symlinks first.1.2.
Proof.
  intros first.
  assert (first.1.1 = None) as H by (vm_compute; reflexivity).
  split; [exact H|].
  destruct (plan_applied_twice (str "/r") scenario_hooks fs.empty first.1.2 first.2
              eq_refl) as [(w2 & t2 & H2 & Hs) _].
  - rewrite <- H. unfold first.
    by destruct (run fs.handle (applyHooks scenario_hooks (str "/r")) fs.empty)
      as [[r w1] t1].
  - exists w2, t2. split; [exact H2|exact Hs].
Defined.

Example plan_twice_ex :
  let '(r1, w1, _) := run fs.handle (applyHooks scenario_hooks (str "/r")) fs.empty in
  let '(r2, w2, t2) := run fs.handle (applyHooks scenario_hooks (str "/r")) w1 in
  r1 = None ∧ r2 = None
  ∧ fs.content (str "/r/etc/ld.so.conf.d/00-lxdcdi.conf") w2
    = fs.content (str "/r/etc/ld.so.conf.d/00-lxdcdi.conf") w1
  ∧ filter (λ c, mutatingCall c = true) t2
    = [MkdirAll (str "/r/usr/lib/x") 493;
       Symlink (str "../libfoo.so") (str "/r/usr/lib/x/libfoo.so");
       MkdirAll (str "/r/etc/ld.so.conf.d") 493;
       OpenFile (str "/r/etc/ld.so.conf.d/00-lxdcdi.conf") [O_APPEND; O_RDWR] 420;
       Remove (str "/r/etc/ld.so.cache");
       CombinedOutput (str "/sbin/ldconfig") [str "-r"; str "/r"]].
Proof. vm_compute. done. Qed.

(** ** The merge, from the call to the file *)



(** * Further properties *)

(** ** More on the path resolver *)

Lemma Rel_relative bs ts :
  Forall is_name bs → Forall is_name ts →
  Rel (render bs) (render ts) = inr (relative bs ts).
Proof.
  intros Hbs Hts. unfold Rel, relative. rewrite !Clean_render by done.
  destruct (streq (render ts) (render bs)) eqn:E; [done|].
  replace (streq (render bs) dot) with false by done.
  change (negb (eqb (IsAbs (render bs)) (IsAbs (render ts)))) with false. cbv iota.
  rewrite relLoop_render.
  destruct (relLoop_names (length (J bs)) bs ts Hbs Hts (le_n _)) as (belem & -> & Hbe).
  destruct (strip_spec bs ts) as (common & Hb & Ht).
  destruct (strip bs ts) as [bs' ts']. simpl in *.
  assert (Forall is_name bs' ∧ Forall is_name ts') as [Hbs' Hts'].
  { rewrite Hb in Hbs. rewrite Ht in Hts.
    apply Forall_app in Hbs as [_ ?]. by apply Forall_app in Hts as [_ ?]. }
  apply streq_false in Hbe. rewrite Hbe.
  destruct (streq (J bs') []) eqn:E'; simpl negb; cbv iota.
  - apply streq_true in E'. apply Join_nil_inv in E'; [|done]. by subst bs'.
  - f_equal. rewrite countSep_Join by (by apply is_name_nosep).
    destruct bs' as [|b bs']; [done|].
    replace (length (b :: bs') - 1) with (length bs') by (simpl; lia).
    change (length (b :: bs')) with (S (length bs')).
    destruct (ups_Join (length bs') ts') as [H|[Hn Hne]]; [exact H|].
    by apply Join_nil_inv in Hn.
Qed.

(** What the resolver returns for an absolute link and an absolute
    target, by the names of the two paths. *)
Lemma resolve_relative link target :
  IsAbs link = true → IsAbs target = true →
  resolveTargetRelativeToLink link target
  = inr (relative (removelast (names_of link)) (names_of target)).
Proof.
  intros Hl Ht. unfold resolveTargetRelativeToLink. rewrite Hl, Ht. simpl negb. cbv iota zeta.
  rewrite (Clean_abs link), (Clean_abs target) by done.
  rewrite Dir_render by apply names_of_is_name.
  rewrite Rel_relative; [done| |apply names_of_is_name].
  apply is_name_removelast, names_of_is_name.
Qed.

Lemma IsAbs_J xs x :
  nosep x → x ≠ [] → IsAbs (J (x :: xs)) = false ∧ J (x :: xs) ≠ [].
Proof.
  intros Hx Hne. destruct x as [|c x]; [done|]. inversion Hx; subst.
  destruct xs; simpl; done.
Qed.

Lemma relative_not_abs bs ts :
  Forall is_name bs → Forall is_name ts →
  IsAbs (relative bs ts) = false ∧ relative bs ts ≠ [].
Proof.
  intros Hbs Hts. unfold relative.
  destruct (streq (render ts) (render bs)) eqn:E; [done|].
  apply streq_false in E.
  destruct (strip_spec bs ts) as (common & Hb & Ht).
  destruct (strip bs ts) as [bs' ts']. simpl in *.
  destruct bs' as [|b bs'].
  - destruct ts' as [|t ts']; [by rewrite Hb, Ht in E|].
    rewrite Ht in Hts. apply Forall_app in Hts as [_ Hts]. inversion Hts as [|?? (? & ? & _)]; subst.
    by apply IsAbs_J.
  - apply IsAbs_J; [apply nosep_dotdot|done].
Qed.

Lemma resolve_abs_link link target :
  IsAbs link = true → ∃ rel, resolveTargetRelativeToLink link target = inr rel.
Proof.
  intros Hl. destruct (IsAbs target) eqn:Ht.
  - rewrite resolve_relative by done. eauto.
  - unfold resolveTargetRelativeToLink. rewrite Hl, Ht. eauto.
Qed.

(** X1. The resolver fails exactly when the link is not absolute:
    with an absolute link it returns a path for every target, and the
    error of [filepath.Rel] is never the one it returns. *)
Theorem resolve_fails_only_on_relative_link (link target : gostring) :
  ((∃ e, resolveTargetRelativeToLink link target = inl e) ↔ IsAbs link = false)
  ∧ (∀ e, resolveTargetRelativeToLink link target ≠ inl (RelFailed e)).
Proof.
  destruct (IsAbs link) eqn:Hl.
  - destruct (resolve_abs_link link target Hl) as [rel Hrel].
    rewrite Hrel. split; [|done]. split; [by intros [? ?]|done].
  - rewrite resolve_not_abs by done. split; [|done]. split; eauto.
Qed.

(** X2. For an absolute link and an absolute target the path that is
    returned is a relative one, and it is not empty. *)
Theorem resolve_returns_relative_path (link target rel : gostring) :
  IsAbs link = true → IsAbs target = true →
  resolveTargetRelativeToLink link target = inr rel →
  IsAbs rel = false ∧ rel ≠ [].
Proof.
  intros Hl Ht. rewrite resolve_relative by done. intros [= <-].
  apply relative_not_abs; [|apply names_of_is_name].
  apply is_name_removelast, names_of_is_name.
Qed.

Lemma resolve_returns_relative_path_witness :
  IsAbs (str "../c/lib.so") = false ∧ str "../c/lib.so" ≠ [].
Proof.
  apply (resolve_returns_relative_path (str "/a/b/link") (str "/a/c/lib.so"));
    reflexivity.
Defined.

Lemma IsAbs_Clean path : IsAbs path = true → IsAbs (Clean path) = true.
Proof. intros H. by rewrite Clean_abs. Qed.

(** X3. The resolver sees an absolute link and an absolute target only
    through their cleaned forms: cleaning either of them beforehand does
    not change the result. *)
Theorem resolve_of_cleaned (link target : gostring) :
  IsAbs link = true →
  resolveTargetRelativeToLink (Clean link) target
  = resolveTargetRelativeToLink link target
  ∧ (IsAbs target = true →
     resolveTargetRelativeToLink link (Clean target)
     = resolveTargetRelativeToLink link target).
Proof.
  intros Hl. unfold resolveTargetRelativeToLink.
  rewrite Hl, (IsAbs_Clean link Hl), (Clean_idem_abs link Hl). split; [done|].
  intros Ht. by rewrite Ht, (IsAbs_Clean target Ht), (Clean_idem_abs target Ht).
Qed.

Lemma resolve_of_cleaned_witness :
  resolveTargetRelativeToLink (Clean (str "/a/./b//link")) (str "/a/c/../c/lib.so")
  = resolveTargetRelativeToLink (str "/a/./b//link") (str "/a/c/../c/lib.so").
Proof. apply (resolve_of_cleaned (str "/a/./b//link")). reflexivity. Defined.

(** ** Where the paths of the hooks lie *)

Lemma norm_no_dotdot a st es :
  dotdot_elem ∉ es → norm (a ++ st) es = a ++ norm st es.
Proof.
  revert st. induction es as [|e es IH]; intros st Hes; [done|].
  apply not_elem_of_cons in Hes as [He Hes]. rewrite !norm_cons. unfold step.
  destruct (streq e []); [by apply IH|].
  destruct (streq e dot); [by apply IH|].
  destruct (streq e dotdot_elem) eqn:E; [by apply streq_true in E|].
  rewrite <- app_assoc. by apply IH.
Qed.

Lemma Join_root_names root link :
  IsAbs root = true → dotdot_elem ∉ elements link →
  Join [root; link] = render (names_of root ++ norm [] (elements link)).
Proof.
  intros Hr Hl. rewrite Join_under_root by done. f_equal.
  rewrite <- (app_nil_r (names_of root)) at 1. by apply norm_no_dotdot.
Qed.

Lemma names_of_abs link :
  IsAbs link = true → norm [] (elements link) = names_of link.
Proof. intros H. by destruct (IsAbs_cons link H) as [rest ->]. Qed.

Lemma Clean_relative pre bs ts :
  Forall is_name pre → Forall is_name bs → Forall is_name ts →
  Clean (render (pre ++ bs) ++ Separator :: relative bs ts) = render (pre ++ ts).
Proof.
  intros Hpre Hbs Hts. unfold relative.
  assert (Forall is_name (pre ++ bs)) as Hpb by (by apply Forall_app).
  destruct (streq (render ts) (render bs)) eqn:E.
  - apply streq_true, render_inj in E; [|done..]. subst ts.
    change dot with (J [dot]).
    rewrite Clean_join_names; [done|done|by repeat constructor].
  - destruct (strip_spec bs ts) as (common & Hb & Ht).
    destruct (strip bs ts) as [bs' ts']. cbn [fst snd] in *.
    assert (Forall is_name ts') as Hts'
      by (rewrite Ht in Hts; by apply Forall_app in Hts as [_ ?]).
    rewrite Clean_join_names; [|done|].
    + f_equal. rewrite norm_app. rewrite Hb at 1. rewrite (app_assoc pre).
      rewrite norm_dotdots, norm_names by done. by rewrite Ht, app_assoc.
    + apply Forall_app. split; [|by apply is_name_nosep].
      apply Forall_replicate, nosep_dotdot.
Qed.

(** X4. The symlink points into the container. Under an absolute root,
    for an absolute link other than the root itself and an absolute
    target, neither with a [..] element: the directory the link is created
    in, joined with the path the resolver returns, is the target joined
    with the root. *)
Theorem resolved_target_under_root (root link target rel : gostring) :
  IsAbs root = true → IsAbs link = true → IsAbs target = true →
  dotdot_elem ∉ elements link → dotdot_elem ∉ elements target →
  Clean link ≠ [Separator] →
  resolveTargetRelativeToLink link target = inr rel →
  Join [Dir (Join [root; link]); rel] = Join [root; target].
Proof.
  intros Hr Hl Ht Hnl Hnt Hne. rewrite resolve_relative by done. intros [= <-].
  rewrite (Join_root_names root link), (Join_root_names root target) by done.
  rewrite !names_of_abs by done.
  pose proof (names_of_is_name root) as HR.
  pose proof (names_of_is_name link) as HL.
  pose proof (names_of_is_name target) as HT.
  assert (names_of link ≠ []) as HLne.
  { intros E. apply Hne. by rewrite Clean_abs, E. }
  rewrite Dir_render by (by apply Forall_app).
  assert (removelast (names_of root ++ names_of link)
          = names_of root ++ removelast (names_of link)) as ->.
  { destruct (names_of link) as [|x l _] using rev_ind; [done|].
    by rewrite app_assoc, !removelast_last. }
  rewrite Join_two by done.
  apply Clean_relative; [done| |done]. by apply is_name_removelast.
Qed.

Lemma resolved_target_under_root_witness :
  Join [Dir (Join [str "/var/lib/rootfs"; str "/usr/lib/x/libfoo.so"]); str "../libfoo.so"]
  = Join [str "/var/lib/rootfs"; str "/usr/lib/libfoo.so"].
Proof.
  apply (resolved_target_under_root (str "/var/lib/rootfs")
           (str "/usr/lib/x/libfoo.so") (str "/usr/lib/libfoo.so"));
    try reflexivity;
    try (intros H%list_elem_of_In; vm_compute in H; intuition discriminate);
    vm_compute; discriminate.
Defined.

Lemma Join_under root link :
  IsAbs root = true → dotdot_elem ∉ elements link → under root (Join [root; link]).
Proof.
  intros Hr Hl. exists (norm [] (elements link)). split.
  - apply is_name_norm; [apply elements_nosep|constructor].
  - by apply Join_root_names.
Qed.

(** X5. Under an absolute root, when no link of the plan has a [..]
    element, every symlink the loop asks for lies under the root, whatever
    the environment answers. *)
Theorem symlinks_created_under_root {W} (h : handler W) (root : gostring)
    (entries : list SymlinkEntry) (w : W) :
  IsAbs root = true →
  Forall (λ e, dotdot_elem ∉ elements (Link e)) entries →
  Forall (λ c, ∀ target path, c = Symlink target path → under root path)
    (run h (applySymlinks root entries) w).2.
Proof.
  intros Hr Hall. eapply Forall_impl; [apply applySymlinks_calls|].
  intros c (e & He & Hc) target path ->. rewrite Forall_forall in Hall.
  destruct Hc as [Hc|[t Hc]]; [done|]. injection Hc as _ ->.
  apply Join_under; [done|by apply Hall].
Qed.

Lemma symlinks_created_under_root_witness :
  Forall (λ c, ∀ target path, c = Symlink target path → under (str "/r") path)
    (run fs.handle (applySymlinks (str "/r") (Symlinks scenario_hooks)) fs.empty).2.
Proof.
  apply (symlinks_created_under_root fs.handle (str "/r")); [reflexivity|].
  repeat constructor. intros H%list_elem_of_In. vm_compute in H. intuition discriminate.
Defined.

(** X6. Under an absolute root the configuration file, whose path is
    put together as a string, lies in the directory that is created for it,
    whose path is joined; that directory and the cache lie under the
    root. *)
Theorem confFile_in_confDir (root : gostring) :
  IsAbs root = true →
  Dir (confFile root) = confDir root
  ∧ Dir (Clean (confFile root)) = confDir root
  ∧ under root (confDir root)
  ∧ under root (cachePath root).
Proof.
  intros Hr. split; [|split; [|split]].
  - unfold Dir.
    change (confFile root)
      with (root ++ str "/etc/ld.so.conf.d" ++ Separator :: str "00-lxdcdi.conf").
    rewrite app_assoc.
    replace (length ((root ++ str "/etc/ld.so.conf.d") ++ Separator :: str "00-lxdcdi.conf"))
      with (length (root ++ str "/etc/ld.so.conf.d") + 1 + length (str "00-lxdcdi.conf"))
      by (rewrite !length_app; simpl; lia).
    rewrite lastSep_app; [|by repeat constructor|done|done].
    replace (length (root ++ str "/etc/ld.so.conf.d") + 1)
      with (length ((root ++ str "/etc/ld.so.conf.d") ++ [Separator]))
      by (rewrite !length_app; simpl; lia).
    change ((root ++ str "/etc/ld.so.conf.d") ++ Separator :: str "00-lxdcdi.conf")
      with ((root ++ str "/etc/ld.so.conf.d") ++ [Separator] ++ str "00-lxdcdi.conf").
    rewrite (app_assoc _ [Separator]), take_app_length, <- !app_assoc.
    change (str "/etc/ld.so.conf.d" ++ [Separator])
      with (Separator :: (J [str "etc"; str "ld.so.conf.d"] ++ Separator :: [])).
    rewrite Clean_under_root, confDir_render by done. f_equal.
    rewrite elements_app_sep, norm_app.
    rewrite norm_elements_J by (apply is_name_nosep; names).
    rewrite (norm_names [_; _]) by names. reflexivity.
  - change (Clean (confFile root)) with (fs.key (confFile root)).
    rewrite confFile_key, confDir_render by done.
    rewrite Dir_render by (apply names_under; names).
    f_equal.
    change [str "etc"; str "ld.so.conf.d"; str "00-lxdcdi.conf"]
      with ([str "etc"; str "ld.so.conf.d"] ++ [str "00-lxdcdi.conf"]).
    by rewrite app_assoc, removelast_last.
  - exists [str "etc"; str "ld.so.conf.d"]. split; [names|by apply confDir_render].
  - exists [str "etc"; str "ld.so.cache"]. split; [names|by apply cachePath_render].
Qed.

Lemma confFile_in_confDir_witness :
  Dir (confFile (str "/var/lib/rootfs")) = confDir (str "/var/lib/rootfs").
Proof. apply (confFile_in_confDir (str "/var/lib/rootfs")). reflexivity. Defined.

(** ** More on the run of the hooks, in every environment *)

Section more_running.
Context {W : Type} (h : handler W).

(** X7. The hooks file is closed on every way out: when it cannot be
    opened nothing else is called, and when it is opened the last call of
    the function closes it, whatever happens in between. *)
Theorem hooks_file_closed (path root : gostring) (w w1 : W) (r : option oserror) :
  h (Open path) w = (r, w1) →
  match r with
  | Some e =>
      run h (ApplyHooksToContainer path root) w
      = (Some (FailedOpeningHooksFile path e), w1, [Open path])
  | None =>
      ∃ t, (run h (ApplyHooksToContainer path root) w).2
           = Open path :: ScanValue path :: t ++ [Close path]
  end.
Proof.
  intros Ho. unfold ApplyHooksToContainer. rewrite run_Do, Ho.
  destruct r as [e|]; [done|]. rewrite run_bind, run_Do.
  destruct (h (ScanValue path) w1) as [v w2].
  match goal with |- context [run h ?p w2] =>
    destruct (run h p w2) as [[r2 w3] t] end.
  rewrite run_Do. destruct (h (Close path) w3) as [u w4]. simpl. eauto.
Qed.

(** X8. A hooks file that cannot be read as JSON, or whose value has a
    wrong type, makes the function fail with the decoding error after it
    has closed the file: no other call is made. *)
Theorem decode_failure_touches_nothing (path root : gostring) (w w1 w2 : W)
    (v : scanerror + json) :
  h (Open path) w = (None, w1) →
  h (ScanValue path) w1 = (v, w2) →
  match v with
  | inl e =>
      run h (ApplyHooksToContainer path root) w
      = (Some (FailedDecodingHooksFile path (inl e)), (h (Close path) w2).2,
         [Open path; ScanValue path; Close path])
  | inr j =>
      ∀ e, jsondec.Unmarshal j = inl e →
      run h (ApplyHooksToContainer path root) w
      = (Some (FailedDecodingHooksFile path (inr e)), (h (Close path) w2).2,
         [Open path; ScanValue path; Close path])
  end.
Proof.
  intros Ho Hs. unfold ApplyHooksToContainer.
  destruct v as [e|j]; [|intros e He];
    rewrite run_Do, Ho, run_bind, run_Do, Hs, ?He; simpl;
    by destruct (h (Close path) w2).
Qed.

(** X9. When the symlink loop fails, the linker cache update is not
    started: the function returns the error of the loop, after the calls of
    the loop and no other. *)
Theorem symlink_failure_skips_linker_cache (hooks : Hooks) (root : gostring)
    (w w1 : W) (t : list call) (e : HookError) :
  run h (applySymlinks root (Symlinks hooks)) w = (Some e, w1, t) →
  run h (applyHooks hooks root) w = (Some e, w1, t)
  ∧ Forall (λ c, linkerCacheCall c = false) t.
Proof.
  intros Hrun. split.
  - unfold applyHooks. rewrite run_bind, Hrun. simpl. by rewrite app_nil_r.
  - pose proof (applySymlinks_calls h root (Symlinks hooks) w) as Hc.
    rewrite Hrun in Hc. eapply Forall_impl; [exact Hc|].
    intros c. apply symlinkCall_not_linker.
Qed.

(** X10. The loop works through the plan in order: the calls it issues
    are a beginning of the calls planned for the entries, the directory of
    a link before the link, and when it succeeds they are all of them and
    every entry has resolved. *)
Theorem symlink_loop_in_order (root : gostring) (entries : list SymlinkEntry) (w : W) :
  let '(r, _, t) := run h (applySymlinks root entries) w in
  t `prefix_of` plannedCalls root entries
  ∧ (r = None →
     t = plannedCalls root entries
     ∧ Forall (λ e, ∃ target,
                 resolveTargetRelativeToLink (Link e) (Target e) = inr target)
         entries).
Proof.
  revert w. induction entries as [|e entries IH]; intros w.
  { simpl. split; [done|]. intros _. split; [done|constructor]. }
  rewrite applySymlinks_cons. cbn [plannedCalls].
  destruct (resolveTargetRelativeToLink (Link e) (Target e)) as [err|target] eqn:Hr.
  { simpl. split; [done|]. done. }
  rewrite run_Do. destruct (h (MkdirAll _ _) w) as [[err|] w1].
  { simpl. split; [|done]. by apply prefix_cons, prefix_nil. }
  rewrite run_Do. destruct (h (Symlink _ _) w1) as [r2 w2].
  assert (∀ p, p = applySymlinks root entries →
            let '(r, _, t) :=
              (let '(a, w3, t) := run h p w2 in
               (a, w3, Symlink target (Join [root; Link e]) :: t)) in
            let '(r, _, t) :=
              (r, w2, MkdirAll (Dir (Join [root; Link e])) 493 :: t) in
            t `prefix_of` MkdirAll (Dir (Join [root; Link e])) 493
                          :: Symlink target (Join [root; Link e])
                          :: plannedCalls root entries
            ∧ (r = None →
               t = MkdirAll (Dir (Join [root; Link e])) 493
                   :: Symlink target (Join [root; Link e])
                   :: plannedCalls root entries
               ∧ Forall (λ e, ∃ target,
                    resolveTargetRelativeToLink (Link e) (Target e) = inr target)
                   (e :: entries))) as Hgo.
  { intros p ->. specialize (IH w2).
    destruct (run h (applySymlinks root entries) w2) as [[r w3] t].
    destruct IH as [Hp Hn]. split; [by do 2 apply prefix_cons|].
    intros Hnone. destruct (Hn Hnone) as [-> Hall]. split; [done|].
    constructor; eauto. }
  destruct r2 as [err|].
  - destruct (isErrExist err); simpl negb; cbv iota.
    + specialize (Hgo _ eq_refl).
      by destruct (run h (applySymlinks root entries) w2) as [[r w3] t].
    + simpl. split; [|done]. do 2 apply prefix_cons. apply prefix_nil.
  - specialize (Hgo _ eq_refl).
    by destruct (run h (applySymlinks root entries) w2) as [[r w3] t].
Qed.

(** X11. The loop fails for three reasons only, and the trace tells
    which: an entry of the plan whose link is not absolute; the creation of
    a directory, which is then the last call; the creation of a symlink
    that failed otherwise than with [already exists], which is then the
    last call. *)
Theorem symlink_loop_failures (root : gostring) (entries : list SymlinkEntry)
    (w w1 : W) (t : list call) (err : HookError) :
  run h (applySymlinks root entries) w = (Some err, w1, t) →
  loopFailure entries t err.
Proof.
  revert w t. induction entries as [|e entries IH]; intros w t; [done|].
  rewrite applySymlinks_cons.
  assert (∀ w2 t2, run h (applySymlinks root entries) w2 = (Some err, w1, t2) →
            ∀ c1 c2, loopFailure (e :: entries) (c1 :: c2 :: t2) err) as Hrest.
  { intros w2 t2 Hrun c1 c2. specialize (IH _ _ Hrun).
    destruct err as [| |[]| | | | | | | | |]; try done; simpl in *.
    - destruct IH as [? (x & ? & ? & ?)]. split; [done|]. exists x. split; [by right|done].
    - destruct IH as (t' & c & -> & ?). exists (c1 :: c2 :: t'), c. done.
    - destruct IH as [? (t' & c & -> & ?)]. split; [done|].
      exists (c1 :: c2 :: t'), c. done. }
  destruct (resolveTargetRelativeToLink (Link e) (Target e)) as [re|target] eqn:Hr.
  { simpl. intros [= <- _ <-].
    destruct (filepath.IsAbs (Link e)) eqn:Hl.
    - destruct (resolve_abs_link (Link e) (Target e) Hl) as [rel Hrel].
      congruence.
    - rewrite resolve_not_abs in Hr by done. injection Hr as <-. simpl.
      split; [done|]. exists e. split; [by left|done]. }
  rewrite run_Do. destruct (h (MkdirAll _ _) w) as [[e1|] wa].
  { simpl. intros [= <- _ <-]. simpl. by exists [], (MkdirAll (Dir (Join [root; Link e])) 493). }
  rewrite run_Do. destruct (h (Symlink _ _) wa) as [[e2|] wb].
  - destruct (isErrExist e2) eqn:He; simpl negb; cbv iota.
    + destruct (run h (applySymlinks root entries) wb) as [[r w3] t3] eqn:Hrun.
      intros [= -> <- <-]. by eapply Hrest.
    + simpl. intros [= <- _ <-]. simpl. split; [done|].
      by exists [MkdirAll (Dir (Join [root; Link e])) 493],
                (Symlink target (Join [root; Link e])).
  - destruct (run h (applySymlinks root entries) wb) as [[r w3] t3] eqn:Hrun.
    intros [= -> <- <-]. by eapply Hrest.
Qed.

End more_running.

Lemma hooks_file_closed_witness :
  ∃ t, (run fs.handle (ApplyHooksToContainer (str "/run/hooks.json") (str "/r"))
          (world_with (str "/run/hooks.json") partly_valid_doc)).2
       = Open (str "/run/hooks.json") :: ScanValue (str "/run/hooks.json")
           :: t ++ [Close (str "/run/hooks.json")].
Proof.
  exact (hooks_file_closed fs.handle (str "/run/hooks.json") (str "/r")
           (world_with (str "/run/hooks.json") partly_valid_doc)
           (world_with (str "/run/hooks.json") partly_valid_doc)
           None eq_refl).
Defined.

Lemma decode_failure_touches_nothing_witness :
  run fs.handle (ApplyHooksToContainer (str "/run/hooks.json") (str "/r"))
    (world_with (str "/run/hooks.json") (JString (str "x")))
  = (Some (FailedDecodingHooksFile (str "/run/hooks.json")
             (inr {| jsondec.Value := "string"; jsondec.Type_ := "cdi.Hooks" |})),
     world_with (str "/run/hooks.json") (JString (str "x")),
     [Open (str "/run/hooks.json"); ScanValue (str "/run/hooks.json");
      Close (str "/run/hooks.json")]).
Proof.
  exact (decode_failure_touches_nothing fs.handle (str "/run/hooks.json") (str "/r")
           (world_with (str "/run/hooks.json") (JString (str "x")))
           (world_with (str "/run/hooks.json") (JString (str "x")))
           (world_with (str "/run/hooks.json") (JString (str "x")))
           (inr (JString (str "x"))) eq_refl eq_refl
           {| jsondec.Value := "string"; jsondec.Type_ := "cdi.Hooks" |} eq_refl).
Defined.

Lemma symlink_failure_skips_linker_cache_witness :
  run fs.handle
    (applyHooks {| ContainerRootFS := []; LDCacheUpdates := [str "/usr/lib/x"];
                   Symlinks := [{| Target := str "libbar.so";
                                   Link := str "usr/lib/x/libbar.so" |}] |}
       (str "/r")) fs.empty
  = (Some (FailedResolvingSymlink
             (LinkNotAbsolute (str "usr/lib/x/libbar.so") (str "libbar.so"))),
     fs.empty, [])
  ∧ Forall (λ c, linkerCacheCall c = false) [].
Proof.
  exact (symlink_failure_skips_linker_cache fs.handle
           {| ContainerRootFS := []; LDCacheUpdates := [str "/usr/lib/x"];
              Symlinks := [{| Target := str "libbar.so";
                              Link := str "usr/lib/x/libbar.so" |}] |}
           (str "/r") fs.empty fs.empty []
           (FailedResolvingSymlink
              (LinkNotAbsolute (str "usr/lib/x/libbar.so") (str "libbar.so")))
           eq_refl).
Defined.

Lemma symlink_loop_failures_witness :
  loopFailure [{| Target := str "libbar.so"; Link := str "usr/lib/x/libbar.so" |}]
    []
    (FailedResolvingSymlink
       (LinkNotAbsolute (str "usr/lib/x/libbar.so") (str "libbar.so"))).
Proof.
  exact (symlink_loop_failures fs.handle (str "/r")
           [{| Target := str "libbar.so"; Link := str "usr/lib/x/libbar.so" |}]
           fs.empty fs.empty []
           (FailedResolvingSymlink
              (LinkNotAbsolute (str "usr/lib/x/libbar.so") (str "libbar.so")))
           eq_refl).
Defined.

(** ** More on the linker cache update, in every environment *)

Section linker_cache.
Context {W : Type} (h : handler W).

Lemma closeCount_cons name c t :
  closeCount name (c :: t) = (if isCloseOf name c then 1 else 0) + closeCount name t.
Proof.
  unfold closeCount. rewrite filter_cons.
  destruct (decide (isCloseOf name c = true)) as [->|Hn]; [done|].
  by apply not_true_is_false in Hn as ->.
Qed.

Lemma closeCount_app name t1 t2 :
  closeCount name (t1 ++ t2) = closeCount name t1 + closeCount name t2.
Proof. unfold closeCount. by rewrite filter_app, length_app. Qed.

Lemma isCloseOf_Close name : isCloseOf name (Close name) = true.
Proof. by apply bool_decide_eq_true. Qed.

Lemma loopShape_cons p r t c :
  isCloseOf p c = false → cacheCall c = false →
  loopShape p r t → loopShape p r (c :: t).
Proof.
  intros Hc Hk [[[-> Hn]|(He & Hn & t' & ->)] Hall]; (split; [|by constructor]).
  - left. by rewrite closeCount_cons, Hc, Hn.
  - right. split; [done|]. rewrite closeCount_cons, Hc, Hn. split; [done|].
    by exists (c :: t').
Qed.

Lemma loopShape_failed p e c :
  isCloseOf p c = false → cacheCall c = false →
  loopShape p (Some (FailedWritingLdConf p e)) [c; Close p].
Proof.
  intros Hc Hk. split; [|by repeat constructor]. right. split; [eauto|].
  rewrite !closeCount_cons, Hc, isCloseOf_Close. split; [done|]. by exists [c].
Qed.

Lemma appendMissing_shape p updates m w :
  let '(r, _, t) := run h (appendMissing p updates m) w in loopShape p r t.
Proof.
  revert m w. induction updates as [|u updates IH]; intros m w.
  { simpl. split; [by left|constructor]. }
  simpl. destruct (index m u); simpl; [apply IH|].
  destruct (h (Fprintln p u) w) as [[e|] w1].
  - simpl. destruct (h (Close p) w1). by apply loopShape_failed.
  - specialize (IH (<[u := true]> m) w1).
    destruct (run h (appendMissing p updates _) w1) as [[r w2] t].
    by apply loopShape_cons.
Qed.

Lemma writeAll_shape p updates w :
  let '(r, _, t) := run h (writeAll p updates) w in loopShape p r t.
Proof.
  revert w. induction updates as [|u updates IH]; intros w.
  { simpl. split; [by left|constructor]. }
  simpl. destruct (h (Fprintln p u) w) as [[e|] w1].
  - simpl. destruct (h (Close p) w1). by apply loopShape_failed.
  - specialize (IH w1). destruct (run h (writeAll p updates) w1) as [[r w2] t].
    by apply loopShape_cons.
Qed.

(** X12. The removal of the cache and the command, given what the
    removal answers: a removal that succeeds, or fails because there is no
    cache, is followed by the command [/sbin/ldconfig -r] on the container
    root, whose exit status decides the result; any other failure of the
    removal is returned and the command is not run. *)
Theorem cache_regeneration (root : gostring) (w w1 : W) (r0 : option oserror) :
  h (removeCache root) w = (r0, w1) →
  match r0 with
  | Some e =>
      if isErrNotExist e then
        run h (regenerateCache root) w
        = let '((output, status), w2) := h (ldconfig root) w1 in
          (match status with
           | Some s => Some (FailedRunningLdconfig s output)
           | None => None
           end, w2, [removeCache root; ldconfig root])
      else
        run h (regenerateCache root) w
        = (Some (FailedRemovingLdCache e), w1, [removeCache root])
  | None =>
      run h (regenerateCache root) w
      = let '((output, status), w2) := h (ldconfig root) w1 in
        (match status with
         | Some s => Some (FailedRunningLdconfig s output)
         | None => None
         end, w2, [removeCache root; ldconfig root])
  end.
Proof.
  intros Hr. unfold regenerateCache. fold (cachePath root). fold (removeCache root).
  rewrite run_Do, Hr. unfold runLdconfig. fold (ldconfig root).
  destruct r0 as [e|]; [destruct (isErrNotExist e); simpl negb; cbv iota; [|done]|];
    rewrite run_Do; by destruct (h (ldconfig root) w1) as [[output [s|]] w2].
Qed.

Lemma regenerateCache_shape root w :
  let '(r, _, t) := run h (regenerateCache root) w in
  closeCount (confFile root) t = 0
  ∧ confOpened r = true
  ∧ (t = [removeCache root] ∨ t = [removeCache root; ldconfig root])
  ∧ (r = None → t = [removeCache root; ldconfig root]).
Proof.
  unfold regenerateCache. fold (cachePath root). fold (removeCache root).
  rewrite run_Do. unfold runLdconfig. fold (ldconfig root).
  destruct (h (removeCache root) w) as [[e|] w1];
    [destruct (isErrNotExist e); simpl negb; cbv iota|];
    try (rewrite run_Do; destruct (h (ldconfig root) w1) as [[output [s|]] w2]);
    repeat split; auto; done.
Qed.

Lemma cacheOrder_cons root r t c :
  cacheCall c = false → cacheOrder root r t → cacheOrder root r (c :: t).
Proof.
  intros Hc (pre & tail & -> & Hpre & Htail & Hr).
  exists (c :: pre), tail. split; [done|]. split; [by constructor|]. split; [|done].
  destruct Htail as [->|[[pre' ->] Ht]]; [by left|right]. split; [|done].
  by exists (c :: pre').
Qed.

Lemma cacheOrder_failed root e t :
  Forall (λ c, cacheCall c = false) t → cacheOrder root (Some e) t.
Proof.
  intros Ht. exists t, []. rewrite app_nil_r. split; [done|]. split; [done|].
  split; [by left|done].
Qed.

Lemma merge_tail_shape root (loop : prog (option HookError)) w :
  (∀ w', let '(r, _, t) := run h loop w' in loopShape (confFile root) r t) →
  let '(r, _, t) :=
    run h (bind loop (λ err, match err with
                             | Some e => Ret (Some e)
                             | None => Do (Close (confFile root))
                                         (λ _, regenerateCache root)
                             end)) w in
  closeCount (confFile root) t = 1 ∧ confOpened r = true ∧ cacheOrder root r t.
Proof.
  intros Hloop. rewrite run_bind. specialize (Hloop w).
  destruct (run h loop w) as [[r1 w1] t1].
  destruct Hloop as [[[-> Hn]|([e ->] & Hn & t' & ->)] Hall].
  - rewrite run_Do. destruct (h (Close (confFile root)) w1) as [u w2].
    pose proof (regenerateCache_shape root w2) as Hs.
    destruct (run h (regenerateCache root) w2) as [[r w3] t2].
    destruct Hs as (Hc & Ho & Ht & Hnone).
    split; [|split; [done|]].
    + rewrite closeCount_app, closeCount_cons, isCloseOf_Close, Hn, Hc. done.
    + exists (t1 ++ [Close (confFile root)]), t2.
      split; [by rewrite <- app_assoc|]. split.
      { apply Forall_app. split; [done|by repeat constructor]. }
      split; [right; eauto|done].
  - simpl. rewrite app_nil_r. split; [done|]. split; [done|].
    by apply cacheOrder_failed.
Qed.

Lemma updateLinkerCache_shape root updates w :
  let '(r, _, t) := run h (updateLinkerCache root updates) w in
  closeCount (confFile root) t = (if confOpened r then 1 else 0)
  ∧ cacheOrder root r t.
Proof.
  unfold updateLinkerCache. fold (confDir root) (confFile root).
  assert (∀ c r t, isCloseOf (confFile root) c = false → cacheCall c = false →
            closeCount (confFile root) t = 1 ∧ confOpened r = true ∧ cacheOrder root r t →
            closeCount (confFile root) (c :: t) = (if confOpened r then 1 else 0)
            ∧ cacheOrder root r (c :: t)) as Hcons.
  { intros c r t Hc Hk (Hn & -> & Ho). rewrite closeCount_cons, Hc, Hn.
    split; [done|]. by apply cacheOrder_cons. }
  assert (∀ c r t, isCloseOf (confFile root) c = false → cacheCall c = false →
            closeCount (confFile root) t = (if confOpened r then 1 else 0)
            ∧ cacheOrder root r t →
            closeCount (confFile root) (c :: t) = (if confOpened r then 1 else 0)
            ∧ cacheOrder root r (c :: t)) as Hcons2.
  { intros c r t Hc Hk (Hn & Ho). rewrite closeCount_cons, Hc, Hn.
    split; [done|]. by apply cacheOrder_cons. }
  rewrite run_Do. destruct (h (MkdirAll _ _) w) as [[e|] w1].
  { simpl. split; [done|]. apply cacheOrder_failed. by repeat constructor. }
  rewrite run_Do. destruct (h (Stat _) w1) as [[e|] w2].
  - destruct (isErrNotExist e).
    + rewrite run_Do. destruct (h (OpenFile _ _ _) w2) as [[e'|] w3].
      { simpl. split; [done|]. apply cacheOrder_failed. by repeat constructor. }
      pose proof (merge_tail_shape root (writeAll (confFile root) updates) w3
                    (writeAll_shape (confFile root) updates)) as Hs.
      match goal with |- context [run h ?p w3] =>
        destruct (run h p w3) as [[r w4] t] end.
      apply Hcons2; [done..|]. apply Hcons2; [done..|]. by apply Hcons.
    + simpl. split; [done|]. apply cacheOrder_failed. by repeat constructor.
  - rewrite run_Do. destruct (h (OpenFile _ _ _) w2) as [[e'|] w3].
    { simpl. split; [done|]. apply cacheOrder_failed. by repeat constructor. }
    rewrite run_Do. destruct (h (ScanLines _) w3) as [lines w4].
    pose proof (merge_tail_shape root
                  (appendMissing (confFile root) updates (scanExisting lines)) w4
                  (appendMissing_shape (confFile root) updates _)) as Hs.
    match goal with |- context [run h ?p w4] =>
      destruct (run h p w4) as [[r w5] t] end.
    apply Hcons2; [done..|]. apply Hcons2; [done..|]. apply Hcons2; [done..|].
    by apply Hcons.
Qed.

(** X13. The configuration file is closed exactly once on every way
    out of the update on which it has been opened, also when a write
    fails, and never when the update ends before or at the opening. *)
Theorem conf_file_closed_once (root : gostring) (updates : list gostring) (w : W) :
  let '(r, _, t) := run h (updateLinkerCache root updates) w in
  closeCount (confFile root) t = (if confOpened r then 1 else 0).
Proof.
  pose proof (updateLinkerCache_shape root updates w) as H.
  by destruct (run h (updateLinkerCache root updates) w) as [[r w1] t], H.
Qed.

(** X14. The cache is touched last: it is removed only after the
    configuration file has been written and closed, the command is run
    only after the removal, and the update succeeds only after the command
    [/sbin/ldconfig -r] on the container root; a failure before that
    leaves the cache alone. *)
Theorem cache_touched_last (root : gostring) (updates : list gostring) (w : W) :
  let '(r, _, t) := run h (updateLinkerCache root updates) w in
  cacheOrder root r t.
Proof.
  pose proof (updateLinkerCache_shape root updates w) as H.
  by destruct (run h (updateLinkerCache root updates) w) as [[r w1] t], H.
Qed.

End linker_cache.

Lemma cache_regeneration_witness :
  run fs.handle (regenerateCache (str "/r")) fs.empty
  = (None,
     {| fs.nodes := ∅; fs.documents := ∅;
        fs.commands := [(str "/sbin/ldconfig", [str "-r"; str "/r"])] |},
     [removeCache (str "/r"); ldconfig (str "/r")]).
Proof.
  exact (cache_regeneration fs.handle (str "/r") fs.empty fs.empty
           (Some ErrNotExist) eq_refl).
Defined.

(** ** The merge, made again *)







(** ** What the symlink loop does to the tree *)

Lemma onlyAdds_refl root entries w : onlyAdds root entries w w.
Proof. repeat split; [done|]. intros k n H1 H2. congruence. Qed.

Lemma mkdirAll_adds path w :
  let w1 := (fs.mkdirAll path w).2 in
  fs.nodes w ⊆ fs.nodes w1
  ∧ fs.documents w1 = fs.documents w
  ∧ fs.commands w1 = fs.commands w
  ∧ ∀ k n, fs.nodes w1 !! k = Some n → fs.nodes w !! k = None → n = fs.Dir_.
Proof.
  destruct (fs.mkdirAll path w) as [r w1] eqn:Hm. cbn [snd].
  pose proof Hm as Hm'. unfold fs.mkdirAll in Hm'.
  destruct (forallb _ _); injection Hm' as <- <-.
  - apply mkdirAll_ok in Hm as [Hsub _]. repeat split; [done|].
    cbn [fs.nodes fs.set_nodes]. intros k n. rewrite foldr_insert_dir_lookup.
    destruct (bool_decide _); congruence.
  - repeat split; [done|]. congruence.
Qed.

Lemma symlink_adds oldname newname w :
  let w1 := (fs.symlink oldname newname w).2 in
  fs.nodes w ⊆ fs.nodes w1
  ∧ fs.documents w1 = fs.documents w
  ∧ fs.commands w1 = fs.commands w
  ∧ ∀ k n, fs.nodes w1 !! k = Some n → fs.nodes w !! k = None →
      n = fs.Link oldname ∧ k = fs.key newname.
Proof.
  assert (∀ r, let w1 := (r : option oserror, w).2 in
            fs.nodes w ⊆ fs.nodes w1
            ∧ fs.documents w1 = fs.documents w
            ∧ fs.commands w1 = fs.commands w
            ∧ ∀ k n, fs.nodes w1 !! k = Some n → fs.nodes w !! k = None →
                n = fs.Link oldname ∧ k = fs.key newname) as Hsame.
  { intros r. cbn [snd]. repeat split; try done; congruence. }
  unfold fs.symlink. destruct (fs.nodes w !! fs.key newname) as [x|] eqn:E;
    [apply Hsame|].
  destruct (fs.nodes w !! filepath.Dir (fs.key newname)) as [[]|];
    try apply Hsame.
  cbn [fst snd fs.nodes fs.set_nodes fs.documents fs.commands].
  split; [by apply insert_subseteq|]. split; [done|]. split; [done|].
  intros k n Hk Hnone. destruct (decide (fs.key newname = k)) as [<-|Hne].
  - rewrite lookup_insert_eq in Hk. by injection Hk as <-.
  - rewrite lookup_insert_ne in Hk by done. congruence.
Qed.

(** X16. On the reference file system the symlink loop only adds,
    whether it succeeds or fails: every directory, file and link that was
    there is still there, unchanged, so that what lies at the path of a
    link is never replaced; and what is new is a directory, or the symlink
    of an entry of the plan, at the path of its link under the root and
    with the target that was resolved for it. *)
Theorem symlink_loop_only_adds (root : gostring) (entries : list SymlinkEntry)
    (w : fs.world) :
  onlyAdds root entries w (run fs.handle (applySymlinks root entries) w).1.2.
Proof.
  revert w. induction entries as [|e entries IH]; intros w; [apply onlyAdds_refl|].
  rewrite applySymlinks_cons.
  destruct (resolveTargetRelativeToLink (Link e) (Target e)) as [err|target] eqn:Hr;
    [apply onlyAdds_refl|].
  rewrite run_Do. change (fs.handle (MkdirAll ?p ?m) w) with (fs.mkdirAll p w).
  pose proof (mkdirAll_adds (Dir (Join [root; Link e])) w) as Hm.
  destruct (fs.mkdirAll (Dir (Join [root; Link e])) w) as [r1 w1]. cbn [snd] in Hm.
  destruct Hm as (Hs1 & Hd1 & Hc1 & Hn1).
  assert (onlyAdds root (e :: entries) w w1) as H1.
  { repeat split; try done. intros k n Hk Hnone. left. by eapply Hn1. }
  destruct r1 as [err|]; [done|].
  rewrite run_Do. change (fs.handle (Symlink ?o ?n) w1) with (fs.symlink o n w1).
  pose proof (symlink_adds target (Join [root; Link e]) w1) as Hl.
  destruct (fs.symlink target (Join [root; Link e]) w1) as [r2 w2]. cbn [fst snd] in Hl.
  destruct Hl as (Hs2 & Hd2 & Hc2 & Hn2).
  assert (onlyAdds root (e :: entries) w w2) as H2.
  { split; [by etrans|]. split; [congruence|]. split; [congruence|].
    intros k n Hk Hnone. destruct (fs.nodes w1 !! k) as [n1|] eqn:E1.
    - left. rewrite (lookup_weaken _ _ _ _ E1 Hs2) in Hk. injection Hk as <-.
      by eapply Hn1.
    - destruct (Hn2 k n Hk E1) as [-> ->]. right.
      exists e, target. split; [by left|done]. }
  assert (onlyAdds root (e :: entries) w
            (run fs.handle (applySymlinks root entries) w2).1.2) as H3.
  { specialize (IH w2).
    destruct (run fs.handle (applySymlinks root entries) w2) as [[r3 w3] t3].
    cbn [fst snd] in *. destruct IH as (Hs3 & Hd3 & Hc3 & Hn3).
    destruct H2 as (Hs & Hd & Hc & Hn).
    split; [by etrans|]. split; [congruence|]. split; [congruence|].
    intros k n Hk Hnone. destruct (fs.nodes w2 !! k) as [n2|] eqn:E2.
    - rewrite (lookup_weaken _ _ _ _ E2 Hs3) in Hk. injection Hk as <-.
      by apply Hn.
    - destruct (Hn3 k n Hk E2) as [->|(x & tg & Hx & Hres & -> & ->)]; [by left|].
      right. exists x, tg. split; [by right|done]. }
  destruct r2 as [err|].
  - destruct (isErrExist err); simpl negb; cbv iota; [|done].
    by destruct (run fs.handle (applySymlinks root entries) w2) as [[r3 w3] t3].
  - by destruct (run fs.handle (applySymlinks root entries) w2) as [[r3 w3] t3].
Qed.

(** ** Reading back a plan *)

Section reading_back.
Import jsondec jsonspec.

Lemma decodeMembers_skip {S F} (fields : list (string * F))
    (dec : F → S → json → S * option UnmarshalTypeError) cur skipped members :
  Forall (λ m, fieldByName fields m.1 = None) skipped →
  decodeMembers fields dec cur (skipped ++ members)
  = decodeMembers fields dec cur members.
Proof.
  induction 1 as [|[k v] skipped Hk _ IH]; [done|].
  change (((k, v) :: skipped) ++ members) with ((k, v) :: (skipped ++ members)).
  rewrite decodeMembers_cons. simpl in Hk. by rewrite Hk.
Qed.

Lemma decodeElems_strings cur l :
  decodeElems decodeString [] cur (map JString l) = (l, None).
Proof.
  revert cur. induction l as [|s l IH]; intros cur; [done|].
  simpl. by rewrite IH.
Qed.

Lemma decodeSymlinkEntry_members cur e :
  decodeSymlinkEntry cur (JObject (entryMembers e)) = (e, None).
Proof.
  assert (fieldByName symlinkEntryFields (str "target") = Some FTarget) as Ht
    by (vm_compute; reflexivity).
  assert (fieldByName symlinkEntryFields (str "link") = Some FLink) as Hl
    by (vm_compute; reflexivity).
  unfold decodeSymlinkEntry, decodeStruct, entryMembers.
  rewrite decodeMembers_cons, Ht. cbn [decodeSymlinkEntryField decodeString].
  rewrite decodeMembers_cons, Hl. by destruct e.
Qed.

Lemma decodeElems_entries cur l :
  decodeElems decodeSymlinkEntry zeroSymlinkEntry cur
    (map (λ e, JObject (entryMembers e)) l) = (l, None).
Proof.
  revert cur. induction l as [|e l IH]; intros cur; [done|].
  cbn [map decodeElems]. by rewrite decodeSymlinkEntry_members, IH.
Qed.

(** X17. A plan is read back from the document that spells it with
    the names of the struct tags, strings as strings and lists as arrays:
    decoding gives the plan, field by field and entry by entry in order,
    and members placed before that select no field do not change it. *)
Theorem unmarshal_reads_back (h : Hooks) (skipped : list (gostring * json)) :
  Forall (λ m, fieldByName hooksFields m.1 = None) skipped →
  Unmarshal (JObject (skipped ++ hooksMembers h)) = inr h.
Proof.
  intros Hs.
  assert (fieldByName hooksFields (str "container_rootfs") = Some FContainerRootFS)
    as H1 by (vm_compute; reflexivity).
  assert (fieldByName hooksFields (str "ld_cache_updates") = Some FLDCacheUpdates)
    as H2 by (vm_compute; reflexivity).
  assert (fieldByName hooksFields (str "symlinks") = Some FSymlinks)
    as H3 by (vm_compute; reflexivity).
  unfold Unmarshal, decodeHooks, decodeStruct.
  rewrite decodeMembers_skip by done. unfold hooksMembers.
  rewrite decodeMembers_cons, H1. cbn [decodeHooksField decodeString].
  rewrite decodeMembers_cons, H2. cbn [decodeHooksField decodeSlice].
  rewrite decodeElems_strings.
  rewrite decodeMembers_cons, H3. cbn [decodeHooksField decodeSlice].
  rewrite decodeElems_entries. by destruct h.
Qed.

End reading_back.

Lemma unmarshal_reads_back_witness :
  jsondec.Unmarshal
    (JObject ([(str "comment", JNumber (str "1"))]
              ++ hooksMembers
                   {| ContainerRootFS := str "/r";
                      LDCacheUpdates := [str "/usr/lib/x"];
                      Symlinks := [{| Target := str "/usr/lib/libfoo.so";
                                      Link := str "/usr/lib/x/libfoo.so" |}] |}))
  = inr {| ContainerRootFS := str "/r";
           LDCacheUpdates := [str "/usr/lib/x"];
           Symlinks := [{| Target := str "/usr/lib/libfoo.so";
                           Link := str "/usr/lib/x/libfoo.so" |}] |}.
Proof.
  apply unmarshal_reads_back. repeat constructor.
Defined.

(** ** A call that succeeds *)

Section whole_run.
Context {W : Type} (h : handler W).

Lemma applySymlinks_success root entries w w1 t :
  run h (applySymlinks root entries) w = (None, w1, t) →
  t = plannedCalls root entries
  ∧ Forall (λ e, ∃ target,
              resolveTargetRelativeToLink (Link e) (Target e) = inr target) entries.
Proof.
  revert w t. induction entries as [|e entries IH]; intros w t.
  { simpl. intros [= _ <-]. split; [done|constructor]. }
  rewrite applySymlinks_cons. cbn [plannedCalls].
  destruct (resolveTargetRelativeToLink (Link e) (Target e)) as [re|target] eqn:Hr;
    [done|].
  rewrite run_Do. destruct (h (MkdirAll _ _) w) as [[e1|] wa]; [done|].
  rewrite run_Do. destruct (h (Symlink _ _) wa) as [r2 wb].
  assert (run h (applySymlinks root entries) wb
          = (let '(a, w3, t0) := run h (applySymlinks root entries) wb in (a, w3, t0)))
    as Hsame by (by destruct (run h (applySymlinks root entries) wb) as [[? ?] ?]).
  assert (∀ t0, run h (applySymlinks root entries) wb = (None, w1, t0) →
            MkdirAll (Dir (Join [root; Link e])) 493
              :: Symlink target (Join [root; Link e]) :: t0
            = MkdirAll (Dir (Join [root; Link e])) 493
              :: Symlink target (Join [root; Link e]) :: plannedCalls root entries
            ∧ Forall (λ e, ∃ target,
                 resolveTargetRelativeToLink (Link e) (Target e) = inr target)
                (e :: entries)) as Hgo.
  { intros t0 Hrun. destruct (IH _ _ Hrun) as [-> Hall]. split; [done|].
    constructor; eauto. }
  destruct r2 as [e2|]; [destruct (isErrExist e2); simpl negb; cbv iota; [|done]|];
    destruct (run h (applySymlinks root entries) wb) as [[r3 w3] t3];
    intros [= -> <- <-]; by apply Hgo.
Qed.

(** X18. What success means. When the function returns no error, the
    hooks file was opened and held a plan; every link of the plan is
    absolute; the calls are, in this order and with nothing else: the
    opening and the reading of the file, for every entry of the plan the
    directory of its link and then the link, the linker cache update when
    the plan has linker directories, which ends with the closing of the
    configuration file, the removal of the cache and the command, and at
    the very end the closing of the hooks file. *)
Theorem success_runs_whole_plan (path root : gostring) (w w' : W) (t : list call) :
  run h (ApplyHooksToContainer path root) w = (None, w', t) →
  ∃ w1 w2 j hooks tu,
    h (Open path) w = (None, w1)
    ∧ h (ScanValue path) w1 = (inr j, w2)
    ∧ jsondec.Unmarshal j = inr hooks
    ∧ Forall (λ e, IsAbs (Link e) = true) (Symlinks hooks)
    ∧ t = Open path :: ScanValue path
            :: plannedCalls root (Symlinks hooks) ++ tu ++ [Close path]
    ∧ match LDCacheUpdates hooks with
      | [] => tu = []
      | _ :: _ =>
          ∃ pre, tu = pre ++ [Close (confFile root); removeCache root; ldconfig root]
                 ∧ Forall (λ c, cacheCall c = false) pre
      end.
Proof.
  unfold ApplyHooksToContainer. rewrite run_Do.
  destruct (h (Open path) w) as [[e|] w1] eqn:Ho; [done|].
  rewrite run_bind, run_Do.
  destruct (h (ScanValue path) w1) as [[e|j] w2] eqn:Hs.
  { simpl. by destruct (h (Close path) w2). }
  destruct (jsondec.Unmarshal j) as [e|hooks] eqn:Hu.
  { simpl. by destruct (h (Close path) w2). }
  unfold applyHooks. rewrite run_bind.
  destruct (run h (applySymlinks root (Symlinks hooks)) w2) as [[[e|] w3] ts] eqn:Hloop.
  { simpl. by destruct (h (Close path) w3). }
  apply applySymlinks_success in Hloop as [-> Hall].
  assert (Forall (λ e, IsAbs (Link e) = true) (Symlinks hooks)) as Habs.
  { eapply Forall_impl; [exact Hall|]. intros e [target He]. simpl in He.
    destruct (IsAbs (Link e)) eqn:Hl; [done|].
    by rewrite resolve_not_abs in He. }
  match goal with |- context [run h ?p w3] =>
    destruct (run h p w3) as [[r w4] tu] eqn:Hrun end.
  rewrite run_Do. destruct (h (Close path) w4) as [x w5].
  intros [= -> <- <-]. exists w1, w2, j, hooks, tu.
  split; [done|]. split; [done|]. split; [done|]. split; [done|].
  split; [by rewrite <- app_assoc|].
  destruct (LDCacheUpdates hooks) as [|u updates].
  - simpl in Hrun. by injection Hrun as _ <-.
  - cbn [length Nat.ltb Nat.leb] in Hrun.
    pose proof (updateLinkerCache_shape h root (u :: updates) w3) as Hshape.
    rewrite Hrun in Hshape.
    destruct Hshape as [_ (pre & tail & -> & Hpre & Htail & Hnone)].
    rewrite (Hnone eq_refl) in *.
    destruct Htail as [?|[[pre' ->] _]]; [done|].
    exists pre'. rewrite <- app_assoc. split; [done|].
    by apply Forall_app in Hpre as [? _].
Qed.

End whole_run.

Lemma success_runs_whole_plan_witness :
  let path := str "/run/hooks.json" in
  let w := world_with path (JObject (hooksMembers scenario_hooks)) in
  let result := run fs.handle (ApplyHooksToContainer path (str "/r")) w in
  result.1.1 = None
  ∧ ∃ w1 w2 j hooks tu,
      fs.handle (Open path) w = (None, w1)
      ∧ fs.handle (ScanValue path) w1 = (inr j, w2)
      ∧ jsondec.Unmarshal j = inr hooks
      ∧ Forall (λ e, IsAbs (Link e) = true) (Symlinks hooks)
      ∧ result.2 = Open path :: ScanValue path
                     :: plannedCalls (str "/r") (Symlinks hooks) ++ tu ++ [Close path]
      ∧ match LDCacheUpdates hooks with
        | [] => tu = []
        | _ :: _ =>
            ∃ pre, tu = pre ++ [Close (confFile (str "/r")); removeCache (str "/r");
                                ldconfig (str "/r")]
                   ∧ Forall (λ c, cacheCall c = false) pre
        end.
Proof.
  intros path w result.
  assert (result.1.1 = None) as H by (vm_compute; reflexivity).
  split; [exact H|].
  apply (success_runs_whole_plan fs.handle path (str "/r") w result.1.2 result.2).
  rewrite <- H. unfold result.
  by destruct (run fs.handle (ApplyHooksToContainer path (str "/r")) w) as [[r w1] t1].
Defined.
